(** * HDXGoogleDLPRedactor: a shallow embedding and its properties

    The development follows [src/custom/HDXGoogleDLPRedactor.ts]:
    the likelihood table, the overlap resolver
    [removeOverlappingFindings], the confidence filter, the substitution
    loop of [doRedactAsync], and the two batching drivers [redactAsync]
    and [inspectStructured].

    Conventions of the embedding.
    - A JavaScript number that the code uses as an index, a length or a
      rank is a [Z]; a number-or-[NaN] is an [option Z].
    - An object used as a dictionary (the likelihood table, a filter
      policy) is a plain object whose own properties are numbers: a
      [gmap string Z] for the own properties, read with [js_get], which
      also finds the members inherited from [Object.prototype].
    - The batch size of [redactAsync], the exact half of a constant
      by default, and the loop indices that are sums of it are whole or
      half numbers; they are kept in halves, the number [n / 2] as the
      integer [n].
    - A [string] stands for a JavaScript string; only its length, its
      substrings and concatenation are used.
    - The remote inspection service is a parameter of the development:
      a function from the submitted item to the findings it reports.
    - A thrown [TypeError] is the [Err] outcome of the [result] type; a
      promise is the [result] it settles to.
    - The [while] loop of the batching drivers is run for a given number
      of iterations; a run that is still in the loop then has the
      outcome [Running]. The drivers also record the trace of their
      scheduling actions. *)

From Stdlib Require Import ZArith Lia Bool.
From stdpp Require Import base option list gmap strings sorting.

Local Open Scope Z_scope.

(** ** JavaScript values and comparisons *)

(** [a > b] on numbers: [None] is [NaN], and every comparison with [NaN]
    is false. *)
Definition js_gt (a b : option Z) : bool :=
  match a, b with
  | Some x, Some y => y <? x
  | _, _ => false
  end.

(** [a <= b], same convention. *)
Definition js_le (a b : option Z) : bool :=
  match a, b with
  | Some x, Some y => x <=? y
  | _, _ => false
  end.

(** [!a]: [NaN] and [0] are falsy, every other number is truthy. *)
Definition js_not (a : option Z) : bool :=
  match a with
  | None => true
  | Some x => x =? 0
  end.

(** [a || b] on an optional number: the left operand when it is truthy. *)
Definition js_or_default (a : option Z) (b : Z) : Z :=
  match a with
  | Some x => if x =? 0 then b else x
  | None => b
  end.

(** A number that is whole or half: the number [n / 2] is kept as the
    integer [n]. The batch size of [redactAsync] and the indices that
    are sums of it are such numbers. *)
Definition halves : Type := Z.

(** A whole number in halves. *)
Definition in_halves (n : Z) : halves := 2 * n.

(** The integer that an index argument of [substring] is converted to:
    the number truncated towards zero. *)
Definition trunc_halves (h : halves) : Z := Z.quot h 2.

(** A value read from a plain object whose own properties are numbers:
    [undefined], a number, or the member that the object inherits from
    [Object.prototype] under the name (a function, or the prototype
    itself for [__proto__]). *)
Inductive js_value :=
| JsUndefined
| JsNumber (n : Z)
| JsInherited (name : string).

(** The names of the members of [Object.prototype]. *)
Definition Object_prototype_names : list string :=
  [ "constructor"; "__defineGetter__"; "__defineSetter__"; "hasOwnProperty";
    "__lookupGetter__"; "__lookupSetter__"; "isPrototypeOf";
    "propertyIsEnumerable"; "toString"; "valueOf"; "__proto__";
    "toLocaleString" ].

(** [o[name]] for a plain object [o] with the own properties [own]: an
    own property hides an inherited member of the same name. *)
Definition js_get (own : gmap string Z) (name : string) : js_value :=
  match own !! name with
  | Some n => JsNumber n
  | None =>
      if bool_decide (name ∈ Object_prototype_names)
      then JsInherited name else JsUndefined
  end.

(** The value as a number: [undefined] and the inherited members
    convert to [NaN]. *)
Definition js_to_number (v : js_value) : option Z :=
  match v with
  | JsNumber n => Some n
  | JsUndefined | JsInherited _ => None
  end.

(** The primitive of an inherited member in a comparison: its
    [valueOf] returns the object, so it is the string of its
    [toString]; the member [constructor] is the function [Object], and
    [__proto__] is the prototype object. *)
Definition inherited_primitive (name : string) : string :=
  if String.eqb name "__proto__" then "[object Object]"
  else "function "
         +:+ (if String.eqb name "constructor" then "Object" else name)
         +:+ "() { [native code] }".

(** [a > b] and [a <= b] on values: two inherited members are compared
    as strings, every other pair as numbers. *)
Definition js_value_gt (a b : js_value) : bool :=
  match a, b with
  | JsInherited n1, JsInherited n2 =>
      String.ltb (inherited_primitive n2) (inherited_primitive n1)
  | _, _ => js_gt (js_to_number a) (js_to_number b)
  end.

Definition js_value_le (a b : js_value) : bool :=
  match a, b with
  | JsInherited n1, JsInherited n2 =>
      String.leb (inherited_primitive n1) (inherited_primitive n2)
  | _, _ => js_le (js_to_number a) (js_to_number b)
  end.

(** [!a]: an inherited member is an object, which is truthy. *)
Definition js_value_not (a : js_value) : bool :=
  match a with
  | JsInherited _ => false
  | JsUndefined | JsNumber _ => js_not (js_to_number a)
  end.

(** [Array.prototype.sort(cmp)]: a stable sort; [x] is placed before the
    elements [y] that followed it in the array whenever [cmp x y <= 0].
    This is the order of every engine for a consistent comparator, as
    [byStart] is, and as [byLikelihoodDesc] is on findings whose
    likelihoods are names of the table; for an inconsistent comparator
    the engine is free in the order, and only the elements are the
    same. *)
Section JsSort.
Context {A : Type} (cmp : A → A → Z).

Fixpoint js_sort_insert (x : A) (l : list A) : list A :=
  match l with
  | [] => [x]
  | y :: l' => if cmp x y <=? 0 then x :: y :: l' else y :: js_sort_insert x l'
  end.

Definition js_sort (l : list A) : list A := foldr js_sort_insert [] l.
End JsSort.

(** ** Findings and the likelihood table *)

(** [interface Finding]. The byte range fields arrive as numeric strings
    and may be missing; [None] is a missing field, [Some z] a field whose
    string denotes the integer [z]. *)
Record Finding := mkFinding {
  likelihood : string;
  quote : string;
  infoType_name : string;
  byteRange_start : option Z;
  byteRange_end : option Z
}.

#[global] Instance Finding_eq_dec : EqDecision Finding.
Proof. solve_decision. Defined.

Definition MIN_FINDING_QUOTE_LENGTH : Z := 2.

Definition likelihoodPriority : gmap string Z :=
  list_to_map
    [ ("EXCLUDE", -1);
      ("LIKELIHOOD_UNSPECIFIED", 0);
      ("VERY_UNLIKELY", 1);
      ("UNLIKELY", 2);
      ("POSSIBLE", 3);
      ("LIKELY", 4);
      ("VERY_LIKELY", 5) ].

Definition LIKELIHOOD_PRIORITY : gmap string Z := likelihoodPriority.

(** The names of the table, in the order of the source. *)
Definition likelihood_names : list string :=
  [ "EXCLUDE"; "LIKELIHOOD_UNSPECIFIED"; "VERY_UNLIKELY"; "UNLIKELY";
    "POSSIBLE"; "LIKELY"; "VERY_LIKELY" ].

(** [likelihoodPriority[f.likelihood]] *)
Definition likelihoodValue (f : Finding) : js_value :=
  js_get likelihoodPriority (likelihood f).

(** [likelihoodPriority[f.likelihood]] as a number: the rank of a
    likelihood of the table, [NaN] for every other likelihood. *)
Definition rank (f : Finding) : option Z := likelihoodPriority !! likelihood f.

(** [Number(get(finding, 'location.byteRange.start', 0))] *)
Definition getFindingStart (f : Finding) : Z := default 0 (byteRange_start f).
Definition getFindingEnd (f : Finding) : Z := default 0 (byteRange_end f).

(** ** The overlap resolver *)

(** The comparator of [findings.sort((a, b) => start(a) - start(b))]. *)
Definition byStart (a b : Finding) : Z := getFindingStart a - getFindingStart b.

(** One iteration of the [for] loop: [current] against the last element
    of [resultFindings]. The list is never empty inside the loop (it is
    seeded with [findings[0]]); the [None] branch is not reachable. *)
Definition overlapStep (resultFindings : list Finding) (current : Finding)
  : list Finding :=
  match last resultFindings with
  | Some previous =>
      if getFindingStart current <? getFindingEnd previous then
        if js_value_gt (likelihoodValue current) (likelihoodValue previous)
        then <[ (length resultFindings - 1)%nat := current ]> resultFindings
        else resultFindings
      else resultFindings ++ [current]
  | None => resultFindings ++ [current]
  end.

(** [removeOverlappingFindings] sorts its argument in place and returns
    a fresh array (or the argument itself when it has at most one
    element). The first component is the argument array after the call,
    the second the returned array. *)
Definition removeOverlappingFindings_st (findings : list Finding)
  : list Finding * list Finding :=
  if (length findings <=? 1)%nat then (findings, findings)
  else
    let sorted := js_sort byStart findings in
    match sorted with
    | [] => (sorted, [])
    | first :: rest => (sorted, fold_left overlapStep rest [first])
    end.

Definition removeOverlappingFindings (findings : list Finding) : list Finding :=
  snd (removeOverlappingFindings_st findings).

(** Two spans overlap: [a.start < b.end && b.start < a.end]. *)
Definition overlaps (a b : Finding) : Prop :=
  getFindingStart a < getFindingEnd b ∧ getFindingStart b < getFindingEnd a.

Definition overlapsb (a b : Finding) : bool :=
  (getFindingStart a <? getFindingEnd b) && (getFindingStart b <? getFindingEnd a).

(** The worked example of the source's comment and of the specification:
    PERSON_NAME at 11-17, FIRST_NAME at 11-15, LAST_NAME at 15-17. *)
Definition exA : Finding := mkFinding "LIKELY" "John D." "PERSON_NAME" (Some 11) (Some 17).
Definition exB : Finding := mkFinding "VERY_LIKELY" "John" "FIRST_NAME" (Some 11) (Some 15).
Definition exC : Finding := mkFinding "POSSIBLE" "D." "LAST_NAME" (Some 15) (Some 17).


(** ** Strings and arrays *)

Fixpoint string_take (n : nat) (s : string) : string :=
  match n, s with
  | S n', String c s' => String c (string_take n' s')
  | _, _ => EmptyString
  end.

Fixpoint string_drop (n : nat) (s : string) : string :=
  match n, s with
  | S n', String _ s' => string_drop n' s'
  | _, _ => s
  end.

(** [s.length] *)
Definition js_length (s : string) : Z := Z.of_nat (String.length s).

(** An index argument of [substring]: clamped to [0 .. s.length]. *)
Definition clamp_index (len i : Z) : Z := Z.max 0 (Z.min i len).

(** [s.substring(a, b)]: both indices are clamped and swapped when
    [a > b]. *)
Definition js_substring (s : string) (a b : Z) : string :=
  let a' := clamp_index (js_length s) a in
  let b' := clamp_index (js_length s) b in
  let lo := Z.min a' b' in
  let hi := Z.max a' b' in
  string_take (Z.to_nat (hi - lo)) (string_drop (Z.to_nat lo) s).

(** An index argument of [slice]: a negative index counts from the end. *)
Definition slice_index (len i : Z) : Z :=
  if i <? 0 then Z.max (len + i) 0 else Z.min i len.

(** [l.slice(a, b)] *)
Definition js_slice {A} (l : list A) (a b : Z) : list A :=
  let len := Z.of_nat (length l) in
  let k := slice_index len a in
  let final := slice_index len b in
  take (Z.to_nat (final - k)) (drop (Z.to_nat k) l).

(** [s.indexOf(find)]: [None] stands for [-1]. *)
Fixpoint js_indexOf (find s : string) : option Z :=
  if String.prefix find s then Some 0
  else match s with
       | EmptyString => None
       | String _ s' => Z.succ <$> js_indexOf find s'
       end.

(** [s.replace(find, repl)] with a string pattern: the first occurrence
    only. The replacement is inserted literally (the labels inserted by
    the redactor are info type names, without [$] patterns). *)
Definition js_replace (find repl s : string) : string :=
  match js_indexOf find s with
  | Some i =>
      string_take (Z.to_nat i) s +:+ repl
        +:+ string_drop (Z.to_nat i + String.length find) s
  | None => s
  end.

(** ** Outcomes of a call *)

Inductive error := TypeError.

Inductive result (A : Type) :=
| Ok (a : A)
| Err (e : error).
Arguments Ok {A} a.
Arguments Err {A} e.

Definition result_bind {A B} (m : result A) (f : A → result B) : result B :=
  match m with
  | Ok a => f a
  | Err e => Err e
  end.

Notation "'let*' x ':=' m 'in' k" := (result_bind m (λ x, k))
  (at level 10, x name, m at level 100, k at level 200, only parsing).

(** [await Promise.all(promises)]: the values in order, or the rejection. *)
Fixpoint Promise_all {A} (promises : list (result A)) : result (list A) :=
  match promises with
  | [] => Ok []
  | p :: ps => let* a := p in let* rest := Promise_all ps in Ok (a :: rest)
  end.

(** [array.filter(callback)] with a callback that may throw. *)
Fixpoint js_filter {A} (callback : A → result bool) (l : list A)
  : result (list A) :=
  match l with
  | [] => Ok []
  | a :: l' =>
      let* b := callback a in
      let* rest := js_filter callback l' in
      Ok (if b then a :: rest else rest)
  end.

(** [array.reduce(f)] without an initial value: a [TypeError] on the
    empty array. *)
Definition js_reduce {A} (f : A → A → A) (l : list A) : result A :=
  match l with
  | [] => Err TypeError
  | a :: l' => Ok (fold_left f l' a)
  end.

(** ** The filter policy *)

(** The [filter?: any] argument: absent, [null], or a plain object
    whose own properties are numeric thresholds. *)
Inductive Policy :=
| PolicyUndefined
| PolicyNull
| PolicyObject (entries : gmap string Z).

(** [filter[name]]: reading a property of [undefined] or [null] throws;
    on an object the look-up also finds the inherited members. *)
Definition policy_get (filter : Policy) (name : string) : result js_value :=
  match filter with
  | PolicyObject entries => Ok (js_get entries name)
  | PolicyUndefined | PolicyNull => Err TypeError
  end.

(** The callback of [findings.filter]:
    [filter[a.infoType.name] <= LIKELIHOOD_PRIORITY[a.likelihood]
     || !filter[a.infoType.name]]. *)
Definition keepFinding (filter : Policy) (a : Finding) : result bool :=
  let* entry := policy_get filter (infoType_name a) in
  Ok (js_value_le entry (js_get LIKELIHOOD_PRIORITY (likelihood a))
      || js_value_not entry).

(** ** Options, configuration and output *)

Record InspectConfigOverride := mkOverride {
  override_infoTypes : option (list string);
  override_customInfoTypes : option (list string)
}.

(** The credentials are opaque to the redactor. *)
Record ClientOptions := mkClientOptions { credentials : string }.

Record HDXGoogleDLPRedactorOptions := mkOptions {
  includeInfoTypes : option (list string);
  customInfoTypes : option (list string);
  inspectConfig : option InspectConfigOverride;
  maxContentSizeForBatch : option Z;
  disableAutoBatchWhenContentSizeExceedsLimit : bool;
  clientOptions : option ClientOptions
}.

(** The part of the inspection configuration that the output reports:
    the names of the requested and of the custom info types. *)
Record InspectConfig := mkInspectConfig {
  infoTypes : list string;
  customInfoTypeNames : list string
}.

Record RedactorOutput := mkOutput {
  config_infoTypes : list string;
  metrics_findingsCap : Z;
  metrics_maxFindings : Z;
  text : string;
  findings : list Finding
}.

(** [getInspectConfig]: the defaults built from the options, overridden
    field by field by [opts.inspectConfig] ([Object.assign]). *)
Definition getInspectConfig (opts : HDXGoogleDLPRedactorOptions) : InspectConfig :=
  let infoTypes := default [] (includeInfoTypes opts) in
  let customInfoTypes := default [] (customInfoTypes opts) in
  match inspectConfig opts with
  | Some o =>
      mkInspectConfig (default infoTypes (override_infoTypes o))
                      (default customInfoTypes (override_customInfoTypes o))
  | None => mkInspectConfig infoTypes customInfoTypes
  end.

(** ** The substitution loop *)

(** The comparator [likelihoodPriority[b.likelihood] -
    likelihoodPriority[a.likelihood]]; a [NaN] difference counts as [0]. *)
Definition byLikelihoodDesc (a b : Finding) : Z :=
  match rank b, rank a with
  | Some rb, Some ra => rb - ra
  | _, _ => 0
  end.

(** [while (numSearches++ < 1000 && text.indexOf(find) >= 0)
      text = text.replace(find, name)] *)
Fixpoint replaceLoop (find name : string) (searchesLeft : nat) (textToRedact : string)
  : string :=
  match searchesLeft with
  | O => textToRedact
  | S n =>
      match js_indexOf find textToRedact with
      | Some _ => replaceLoop find name n (js_replace find name textToRedact)
      | None => textToRedact
      end
  end.

(** The body of [findingsWithoutOverlaps.forEach]. *)
Definition replaceFinding (textToRedact : string) (finding : Finding) : string :=
  let find := quote finding in
  if negb (String.eqb find (infoType_name finding))
     && (MIN_FINDING_QUOTE_LENGTH <=? js_length find)
  then replaceLoop find (infoType_name finding) 1000 textToRedact
  else textToRedact.

(** ** Traces of the batching drivers *)

(** The drivers are instrumented with the sequence of their scheduling
    actions: [EvCall item] when a batch call is issued, [EvAwaitAll n]
    when [await Promise.all(batchPromises)] returns, the [n] pending
    promises being fulfilled. A rejected [await] leaves no action: the
    driver throws and issues nothing more. *)
Inductive event (Item : Type) :=
| EvCall (item : Item)
| EvAwaitAll (n : nat).
Arguments EvCall {Item} item.
Arguments EvAwaitAll {Item} n.

(** How a driver run ends: with a value, with a thrown error, or still
    inside the [while] loop after the given number of iterations. *)
Inductive outcome (A : Type) :=
| Returned (a : A)
| Thrown (e : error)
| Running.
Arguments Returned {A} a.
Arguments Thrown {A} e.
Arguments Running {A}.

(** A settled promise seen as the outcome of the function returning it. *)
Definition settle {A} (r : result A) : outcome A :=
  match r with
  | Ok a => Returned a
  | Err e => Thrown e
  end.

(** The calls in flight after a trace: those issued since the last
    [await Promise.all]. *)
Definition inFlightStep {Item} (n : Z) (ev : event Item) : Z :=
  match ev with
  | EvCall _ => n + 1
  | EvAwaitAll _ => 0
  end.

Definition inFlight {Item} (tr : list (event Item)) : Z :=
  fold_left inFlightStep tr 0.

(** The items of the calls of a trace, in order. *)
Definition dispatched {Item} (tr : list (event Item)) : list Item :=
  omap (λ ev, match ev with EvCall item => Some item | EvAwaitAll _ => None end) tr.

Record BatchState (Item : Type) := mkBatchState {
  batchPromises : list (result RedactorOutput);
  batchStartIndex : Z;
  batchResults : list RedactorOutput;
  trace : list (event Item)
}.
Arguments mkBatchState {Item}.
Arguments batchPromises {Item}.
Arguments batchStartIndex {Item}.
Arguments batchResults {Item}.
Arguments trace {Item}.

(** The [while] loop shared by [redactAsync] and [inspectStructured]
    (the source repeats it verbatim): [total] is the length of the
    content, [batchAt] cuts a batch, [call] issues its request. *)
Section Waves.
Context {Item : Type}.
Variable MAX_PROMISES : Z.
Variable total : Z.
Variable maxContentSize : Z.
Variable batchAt : Z → Z → Item.
Variable call : Item → result RedactorOutput.

Fixpoint batchLoop (iterations : nat) (st : BatchState Item)
  : outcome unit * BatchState Item :=
  if batchStartIndex st <? total then
    match iterations with
    | O => (Running, st)
    | S n =>
        let batchEndIndex := batchStartIndex st + maxContentSize in
        let batch := batchAt (batchStartIndex st) batchEndIndex in
        let promises := batchPromises st ++ [call batch] in
        let tr := trace st ++ [EvCall batch] in
        if MAX_PROMISES <=? Z.of_nat (length promises) then
          let tr' := tr ++ [EvAwaitAll (length promises)] in
          match Promise_all promises with
          | Ok rs =>
              batchLoop n (mkBatchState [] batchEndIndex (batchResults st ++ rs) tr')
          | Err e =>
              (Thrown e, mkBatchState promises batchEndIndex (batchResults st) tr)
          end
        else batchLoop n (mkBatchState promises batchEndIndex (batchResults st) tr)
    end
  else (Returned (), st).
End Waves.

(** ** The redactor *)

(** The module constants [MAX_CONTENT_LENGTH] (the imported
    [MAX_DLP_CONTENT_LENGTH] or its environment override) and
    [MAX_PROMISES], the two requests to the inspection service, and the
    options of the redactor instance. *)
Section Redactor.
Variable MAX_CONTENT_LENGTH : Z.
Variable MAX_PROMISES : Z.
Variable inspectContent : InspectConfig → string → list Finding.
Variable inspectTable :
  InspectConfig → list string → list (list string) → option (list Finding).
Variable opts : HDXGoogleDLPRedactorOptions.

(** [inspectConfig.infoTypes.map(i => i.name)
      .concat(inspectConfig.customInfoTypes.map(i => i.infoType.name))] *)
Definition reportedInfoTypes (inspectConfig : InspectConfig) : list string :=
  infoTypes inspectConfig ++ customInfoTypeNames inspectConfig.

Definition doRedactAsync (textToRedact : string) (filter : Policy)
    (replaceText : bool) : result RedactorOutput :=
  let inspectConfig := getInspectConfig opts in
  let findings := inspectContent inspectConfig textToRedact in
  let* redacted :=
    if 0 <? Z.of_nat (length findings) then
      let* filteredFindings := js_filter (keepFinding filter) findings in
      if replaceText then
        let st := removeOverlappingFindings_st filteredFindings in
        let findingsWithoutOverlaps := js_sort byLikelihoodDesc (snd st) in
        Ok (fold_left replaceFinding findingsWithoutOverlaps textToRedact, fst st)
      else Ok (textToRedact, filteredFindings)
    else Ok (textToRedact, findings) in
  Ok {| config_infoTypes := reportedInfoTypes inspectConfig;
        text := fst redacted;
        findings := snd redacted;
        metrics_maxFindings := Z.of_nat (length findings);
        metrics_findingsCap := if 2000 <=? Z.of_nat (length findings) then 1 else 0 |}.

Definition doInspectStructured (headers : list string) (rows : list (list string))
    (filter : Policy) : result RedactorOutput :=
  let inspectConfig := getInspectConfig opts in
  let* keys :=
    match clientOptions opts with
    | Some c => Ok (credentials c)
    | None => Err TypeError
    end in
  let findings := default [] (inspectTable inspectConfig headers rows) in
  let* filteredFindings :=
    if 0 <? Z.of_nat (length findings)
    then js_filter (keepFinding filter) findings
    else Ok findings in
  Ok {| config_infoTypes := reportedInfoTypes inspectConfig;
        text := "";
        findings := filteredFindings;
        metrics_maxFindings := Z.of_nat (length findings);
        metrics_findingsCap := if 2000 <=? Z.of_nat (length findings) then 1 else 0 |}.

(** The merge of the batch results (the five [map]/[reduce] lines). *)
Definition mergeBatchResults (batchResults : list RedactorOutput)
  : result RedactorOutput :=
  let* findings := js_reduce app (map findings batchResults) in
  let* text := js_reduce String.append (map text batchResults) in
  let* infoTypes := js_reduce (λ a b, b) (map config_infoTypes batchResults) in
  let* maxFindings := js_reduce Z.max (map metrics_maxFindings batchResults) in
  let* findingsCap := js_reduce Z.add (map metrics_findingsCap batchResults) in
  Ok {| config_infoTypes := infoTypes;
        findings := findings;
        text := text;
        metrics_findingsCap := findingsCap;
        metrics_maxFindings := maxFindings |}.

(** The batching branch: the loop, the last [await Promise.all] and
    the merge. *)
Definition runBatches {Item} (total maxContentSize : Z) (batchAt : Z → Z → Item)
    (call : Item → result RedactorOutput) (iterations : nat)
  : outcome RedactorOutput * list (event Item) :=
  let run := batchLoop MAX_PROMISES total maxContentSize batchAt call iterations
               (mkBatchState [] 0 [] []) in
  let st := snd run in
  match fst run with
  | Returned _ =>
      let tr := trace st ++ [EvAwaitAll (length (batchPromises st))] in
      match Promise_all (batchPromises st) with
      | Ok rs => (settle (mergeBatchResults (batchResults st ++ rs)), tr)
      | Err e => (Thrown e, trace st)
      end
  | Thrown e => (Thrown e, trace st)
  | Running => (Running, trace st)
  end.

(** [this.opts.maxContentSizeForBatch || MAX_CONTENT_LENGTH / 2], in
    halves. The quotient is the exact one: with an odd
    [MAX_CONTENT_LENGTH] the default size is a half number. The option
    is a whole number [m], which is [2 * m] halves; the default is
    [MAX_CONTENT_LENGTH] halves. *)
Definition maxContentSize : halves :=
  js_or_default (Z.mul 2 <$> maxContentSizeForBatch opts) MAX_CONTENT_LENGTH.

(** The indices of the loop of [redactAsync] are sums of the batch
    size: they are in halves, as is the length they are compared with;
    [substring] truncates them. *)
Definition redactAsync (iterations : nat) (textToRedact : string) (filter : Policy)
  : outcome RedactorOutput * list (event string) :=
  if (maxContentSize <? in_halves (js_length textToRedact))
     && negb (disableAutoBatchWhenContentSizeExceedsLimit opts)
  then
    runBatches (in_halves (js_length textToRedact)) maxContentSize
      (λ batchStartIndex batchEndIndex,
         js_substring textToRedact (trunc_halves batchStartIndex)
           (trunc_halves batchEndIndex))
      (λ batchText, doRedactAsync batchText filter false) iterations
  else (settle (doRedactAsync textToRedact filter false), [EvCall textToRedact]).

(** [Math.trunc(50000 / headers.length / 2) - 1]; [None] is [Infinity]
    (no header). For a positive column count the truncated real
    quotient is the iterated integer quotient. *)
Definition maxRowsPerBatch (headers : list string) : option Z :=
  let columns := Z.of_nat (length headers) in
  if columns =? 0 then None else Some (50000 / columns / 2 - 1).

Definition inspectStructured (iterations : nat) (headers : list string)
    (rows : list (list string)) (filter : Policy)
  : outcome RedactorOutput * list (event (list string * list (list string))) :=
  let single :=
    (settle (doInspectStructured headers rows filter), [EvCall (headers, rows)]) in
  match maxRowsPerBatch headers with
  | Some maxContentSize =>
      if maxContentSize <? Z.of_nat (length rows) then
        runBatches (Z.of_nat (length rows)) maxContentSize
          (λ a b, (headers, js_slice rows a b))
          (λ batch, doInspectStructured (fst batch) (snd batch) filter) iterations
      else single
  | None => single
  end.
End Redactor.

(** ** Auxiliary definitions for the statements *)

(** The loop of [removeOverlappingFindings] seen from its last kept
    finding [previous]: the findings kept before it are final. *)
Fixpoint sweep (previous : Finding) (rest : list Finding) : list Finding :=
  match rest with
  | [] => [previous]
  | current :: rest' =>
      if getFindingStart current <? getFindingEnd previous then
        if js_value_gt (likelihoodValue current) (likelihoodValue previous)
        then sweep current rest'
        else sweep previous rest'
      else previous :: sweep current rest'
  end.

(** Order of two findings by start offset. *)
Definition startsBefore (a b : Finding) : Prop := getFindingStart a ≤ getFindingStart b.

(** The later finding starts at or after the end of the earlier one. *)
Definition endsBefore (a b : Finding) : Prop := getFindingEnd a ≤ getFindingStart b.

#[global] Instance overlaps_dec a b : Decision (overlaps a b).
Proof. unfold overlaps. apply _. Defined.

(** Comparison of two findings by rank, both likelihoods being names of
    the table. *)
Definition rank_le (a b : Finding) : Prop :=
  ∃ ra rb, rank a = Some ra ∧ rank b = Some rb ∧ ra ≤ rb.

Definition rank_lt (a b : Finding) : Prop :=
  ∃ ra rb, rank a = Some ra ∧ rank b = Some rb ∧ ra < rb.

(** A maximal cluster of mutually overlapping findings of [findings]. *)
Definition is_cluster (findings cluster : list Finding) : Prop :=
  cluster ≠ [] ∧
  cluster `sublist_of` findings ∧
  (∀ i j a b, i ≠ j → cluster !! i = Some a → cluster !! j = Some b → overlaps a b) ∧
  (∀ h, h ∈ findings → h ∉ cluster → ∃ a, a ∈ cluster ∧ ¬ overlaps h a).

(** The max-rank-wins property as the specification words it: of every
    maximal cluster exactly one finding survives, it has the maximum
    rank of the cluster, and no finding of the cluster with the same
    rank starts earlier. *)
Definition max_rank_wins_as_specified (findings : list Finding) : Prop :=
  ∀ cluster, is_cluster findings cluster →
    ∃ g, filter (λ f, f ∈ cluster) (removeOverlappingFindings findings) = [g] ∧
         (∀ h, h ∈ cluster → rank_le h g) ∧
         (∀ h, h ∈ cluster → rank h = rank g → startsBefore g h).

(** The inputs on which the clusters are disjoint: non-empty spans,
    likelihoods of the table, and a transitive overlap relation. *)
Definition nonempty_span (f : Finding) : Prop := getFindingStart f < getFindingEnd f.

Definition known_likelihood (f : Finding) : Prop := is_Some (rank f).

Definition overlap_transitive (findings : list Finding) : Prop :=
  Forall (λ a, Forall (λ b, Forall (λ c,
    overlaps a b → overlaps b c → overlaps a c) findings) findings) findings.

(** A sorted list of findings with disjoint clusters. *)
Record clustered (L : list Finding) : Prop := mkClustered {
  clustered_sorted : StronglySorted startsBefore L;
  clustered_nonempty : ∀ f, f ∈ L → nonempty_span f;
  clustered_known : ∀ f, f ∈ L → known_likelihood f;
  clustered_trans : ∀ a b c, a ∈ L → b ∈ L → c ∈ L →
    overlaps a b → overlaps b c → overlaps a c
}.

(** Findings for the examples: two overlapping findings and a third one
    apart. *)
Definition exX : Finding := mkFinding "POSSIBLE" "Jane Roe" "PERSON_NAME" (Some 0) (Some 8).
Definition exY : Finding := mkFinding "LIKELY" "Roe" "LAST_NAME" (Some 5) (Some 8).
Definition exZ : Finding := mkFinding "LIKELY" "a@b.org" "EMAIL_ADDRESS" (Some 20) (Some 27).

(** The value of the filter callback on an object policy. *)
Definition keeps (entries : gmap string Z) (a : Finding) : bool :=
  js_value_le (js_get entries (infoType_name a)) (likelihoodValue a)
  || js_value_not (js_get entries (infoType_name a)).


(** The loud failure as the specification words it: a finding with a
    likelihood outside the table makes the call fail. *)
Definition unknown_likelihood_fails_as_specified : Prop :=
  ∀ inspectContent opts textToRedact filter replaceText f,
    f ∈ inspectContent (getInspectConfig opts) textToRedact →
    rank f = None →
    ∃ e, doRedactAsync inspectContent opts textToRedact filter replaceText = Err e.

(** A redactor for the examples: its service reports the three findings
    of the worked example on the sentence of the source's comment. *)
Definition exOptions : HDXGoogleDLPRedactorOptions :=
  mkOptions (Some ["PERSON_NAME"; "FIRST_NAME"; "LAST_NAME"]) None None None false
            (Some (mkClientOptions "key")).

Definition exText : string := "My name is John D.".

Definition exInspectContent (inspectConfig : InspectConfig) (item : string)
  : list Finding :=
  if String.eqb item exText then [exA; exB; exC] else [].


Definition exUnknown : Finding :=
  mkFinding "CERTAIN" "John" "FIRST_NAME" (Some 11) (Some 15).


(** The wave discipline of a trace under the bound [bound]: at every
    point at most [bound] calls are in flight; a call is issued only
    when fewer than [bound] are in flight; an [await Promise.all] waits
    for every call in flight; and once [bound] calls are in flight the
    next action is the [await] of them all. *)
Definition wave_discipline {Item} (bound : Z) (tr : list (event Item)) : Prop :=
  ∀ p, p `prefix_of` tr →
    inFlight p ≤ bound ∧
    (∀ item, p ++ [EvCall item] `prefix_of` tr → inFlight p < bound) ∧
    (∀ n, p ++ [EvAwaitAll n] `prefix_of` tr → Z.of_nat n = inFlight p) ∧
    (∀ ev, p ++ [ev] `prefix_of` tr → inFlight p = bound →
           ev = EvAwaitAll (Z.to_nat bound)).

(** The [i]-th batch of a run with batch size [size]. *)
Definition nthBatch {Item} (size : Z) (batchAt : Z → Z → Item) (i : nat) : Item :=
  batchAt (Z.of_nat i * size) (Z.of_nat i * size + size).

(** What the loop has done after [k] batches: the next start index, the
    batches issued, and the promises of their calls, settled or pending. *)
Definition batched {Item} (total size : Z) (batchAt : Z → Z → Item)
    (call : Item → result RedactorOutput) (k : nat) (st : BatchState Item) : Prop :=
  batchStartIndex st = Z.of_nat k * size ∧
  dispatched (trace st) = map (nthBatch size batchAt) (seq 0 k) ∧
  (∀ i, (i < k)%nat → Z.of_nat i * size < total) ∧
  map call (dispatched (trace st)) = map Ok (batchResults st) ++ batchPromises st.

(** The batch reconstruction of [redactAsync] on [textToRedact] with an
    object policy, for a batch size that is whole or half: the run
    returns; the batches issued are the consecutive substrings between
    the truncated multiples of the size; every batch has at most the
    size rounded up, every batch but the last at least the size rounded
    down, and none is empty when the size is at least one; their
    number is the ceiling of the length over the size; the call of
    every batch returns, and the texts of the outputs, appended in
    batch order, are the input, as is the text of the result. *)
Definition batch_reconstruction (MAX_CONTENT_LENGTH MAX_PROMISES : Z)
    (inspectContent : InspectConfig → string → list Finding)
    (opts : HDXGoogleDLPRedactorOptions) (textToRedact : string)
    (entries : gmap string Z) : Prop :=
  let size := maxContentSize MAX_CONTENT_LENGTH opts in
  ∃ r tr outs,
    redactAsync MAX_CONTENT_LENGTH MAX_PROMISES inspectContent opts
      (2 * String.length textToRedact) textToRedact (PolicyObject entries)
    = (Returned r, tr) ∧
    (∀ (i : nat) batchText,
       dispatched tr !! i = Some batchText →
       batchText = js_substring textToRedact
                     (trunc_halves (Z.of_nat i * size))
                     (trunc_halves (Z.of_nat i * size + size)) ∧
       js_length batchText ≤ (size + 1) / 2 ∧
       (2 ≤ size → 0 < js_length batchText) ∧
       ((S i < length (dispatched tr))%nat → size / 2 ≤ js_length batchText)) ∧
    Z.of_nat (length (dispatched tr))
      = (in_halves (js_length textToRedact) + size - 1) / size ∧
    Forall2 (λ batchText out,
               doRedactAsync inspectContent opts batchText (PolicyObject entries) false
               = Ok out)
            (dispatched tr) outs ∧
    foldr String.append "" (map text outs) = textToRedact ∧
    text r = textToRedact.

(** The same for a whole batch size of [size] characters, as the
    specification words it: the run returns within as many iterations
    as the text has characters; the batches are the consecutive
    substrings of exactly [size] characters, the last one possibly
    shorter and none empty; their number is the ceiling of the length
    over [size]. *)
Definition whole_batch_reconstruction (MAX_CONTENT_LENGTH MAX_PROMISES : Z)
    (inspectContent : InspectConfig → string → list Finding)
    (opts : HDXGoogleDLPRedactorOptions) (textToRedact : string)
    (entries : gmap string Z) : Prop :=
  let size := maxContentSize MAX_CONTENT_LENGTH opts / 2 in
  ∃ r tr outs,
    redactAsync MAX_CONTENT_LENGTH MAX_PROMISES inspectContent opts
      (String.length textToRedact) textToRedact (PolicyObject entries)
    = (Returned r, tr) ∧
    (∀ (i : nat) batchText,
       dispatched tr !! i = Some batchText →
       batchText = js_substring textToRedact (Z.of_nat i * size) (Z.of_nat i * size + size) ∧
       0 < js_length batchText ≤ size ∧
       ((S i < length (dispatched tr))%nat → js_length batchText = size)) ∧
    Z.of_nat (length (dispatched tr)) = (js_length textToRedact + size - 1) / size ∧
    Forall2 (λ batchText out,
               doRedactAsync inspectContent opts batchText (PolicyObject entries) false
               = Ok out)
            (dispatched tr) outs ∧
    foldr String.append "" (map text outs) = textToRedact ∧
    text r = textToRedact.

(** The slices as the specification words them: every slice but the
    last has exactly the batch size. *)
Definition batch_slices_as_specified : Prop :=
  ∀ MAX_CONTENT_LENGTH MAX_PROMISES inspectContent opts iterations textToRedact
    entries r tr,
    0 < maxContentSize MAX_CONTENT_LENGTH opts →
    maxContentSize MAX_CONTENT_LENGTH opts < in_halves (js_length textToRedact) →
    disableAutoBatchWhenContentSizeExceedsLimit opts = false →
    redactAsync MAX_CONTENT_LENGTH MAX_PROMISES inspectContent opts
      iterations textToRedact (PolicyObject entries) = (Returned r, tr) →
    ∀ (i : nat) batchText,
      dispatched tr !! i = Some batchText →
      (S i < length (dispatched tr))%nat →
      in_halves (js_length batchText) = maxContentSize MAX_CONTENT_LENGTH opts.

(** The returned finding set as the specification words it: filtered
    and free of overlaps. *)
Definition result_post_filter_post_resolve_as_specified : Prop :=
  ∀ MAX_CONTENT_LENGTH MAX_PROMISES inspectContent opts iterations textToRedact
    entries r tr,
    redactAsync MAX_CONTENT_LENGTH MAX_PROMISES inspectContent opts
      iterations textToRedact (PolicyObject entries) = (Returned r, tr) →
    (∀ f, f ∈ findings r → keeps entries f = true) ∧
    (∀ (i j : nat) a b,
       i ≠ j → findings r !! i = Some a → findings r !! j = Some b → ¬ overlaps a b).

(** Structured batching as the specification words it: the maximum is
    [floor(50000 / H / 2) - 1], no batch has more rows, and every batch
    carries the header list. *)
Definition structured_batching_as_specified : Prop :=
  ∀ MAX_PROMISES inspectTable opts iterations headers rows filter maxRows batch,
    maxRowsPerBatch headers = Some maxRows →
    batch ∈ dispatched (snd (inspectStructured MAX_PROMISES inspectTable opts
                               iterations headers rows filter)) →
    maxRows = 50000 / Z.of_nat (length headers) / 2 - 1 ∧
    fst batch = headers ∧
    Z.of_nat (length (snd batch)) ≤ maxRows.

(** A table service without findings, and a header list of 25001
    columns. *)
Definition exInspectTable (inspectConfig : InspectConfig) (headers : list string)
    (rows : list (list string)) : option (list Finding) := None.

Definition exWideHeaders : list string := replicate (Z.to_nat 25001) "c".

(** ** Auxiliary definitions for the further properties *)

(** A group of the sweep: the consecutive findings, in sorted order,
    of which [group_kept] is the one kept. *)
Record Group := mkGroup {
  group_before : list Finding;
  group_kept : Finding;
  group_after : list Finding
}.

Definition group_members (g : Group) : list Finding :=
  group_before g ++ group_kept g :: group_after g.

(** Every member after the first starts before the end of an earlier
    member. *)
Definition chained (members : list Finding) : Prop :=
  ∀ (i : nat) h, (0 < i)%nat → members !! i = Some h →
    ∃ (j : nat) q, (j < i)%nat ∧ members !! j = Some q ∧
                   getFindingStart h < getFindingEnd q.

(** The kept finding has a higher rank than the members before it; the
    members after it have no higher rank and start before its end. *)
Definition group_dominated (g : Group) : Prop :=
  (∀ h, h ∈ group_before g → rank_lt h (group_kept g)) ∧
  (∀ h, h ∈ group_after g →
     rank_le h (group_kept g) ∧ getFindingStart h < getFindingEnd (group_kept g)).

(** Every member of the later group starts at or after the end of the
    finding kept of the earlier group. *)
Definition group_precedes (g1 g2 : Group) : Prop :=
  ∀ h, h ∈ group_members g2 → getFindingEnd (group_kept g1) ≤ getFindingStart h.

(** [find] occurs in [s]. *)
Definition occurs (find s : string) : Prop :=
  ∃ pre post, s = pre +:+ find +:+ post.

(** The text [s] after [k] replacements of the first occurrence of
    [find] by [name]. *)
Definition replaced (find name : string) (k : nat) (s : string) : string :=
  Nat.iter k (js_replace find name) s.

(** Nothing is substituted for the finding in [s]: its quote is its
    label, or shorter than the minimum, or does not occur in [s]. *)
Definition nothing_to_replace (s : string) (f : Finding) : Prop :=
  quote f = infoType_name f ∨
  js_length (quote f) < MIN_FINDING_QUOTE_LENGTH ∨
  ¬ occurs (quote f) s.

(** A service that reports one finding whose quote is its label. *)
Definition exInspectLabel (inspectConfig : InspectConfig) (item : string)
  : list Finding :=
  [mkFinding "LIKELY" "PERSON_NAME" "PERSON_NAME" (Some 11) (Some 22)].

(** The number of findings the service reports for a batch of text and
    for a batch of rows. *)
Definition reportedCount (inspectContent : InspectConfig → string → list Finding)
    (opts : HDXGoogleDLPRedactorOptions) (item : string) : Z :=
  Z.of_nat (length (inspectContent (getInspectConfig opts) item)).

Definition reportedTableCount
    (inspectTable : InspectConfig → list string → list (list string)
                    → option (list Finding))
    (opts : HDXGoogleDLPRedactorOptions) (batch : list string * list (list string))
  : Z :=
  Z.of_nat (length (default [] (inspectTable (getInspectConfig opts)
                                  (fst batch) (snd batch)))).

(** What the merged metrics of a run over [items] are, [count] being
    the number of findings reported for an item: the number of items
    that reached the cap of 2000 findings and the largest count. *)
Definition merged_metrics {Item} (count : Item → Z) (items : list Item)
    (r : RedactorOutput) : Prop :=
  metrics_findingsCap r
    = Z.of_nat (length (filter (λ item, 2000 ≤ count item) items)) ∧
  (∀ item, item ∈ items → count item ≤ metrics_maxFindings r) ∧
  (∃ item, item ∈ items ∧ count item = metrics_maxFindings r).

(** A table service that reports two findings for every request. *)
Definition exInspectTableTwo (inspectConfig : InspectConfig) (headers : list string)
    (rows : list (list string)) : option (list Finding) := Some [exA; exB].

(** The thresholds of [lower] are entries of [entries] lowered: every
    entry of [lower] is at most the entry of [entries] for the same
    category. *)
Definition lower_policy (lower entries : gmap string Z) : Prop :=
  ∀ name m', lower !! name = Some m' → ∃ m, entries !! name = Some m ∧ m' ≤ m.

(** No two different findings of the list start at the same offset. *)
Definition distinct_starts (findings : list Finding) : Prop :=
  ∀ a b, a ∈ findings → b ∈ findings →
         getFindingStart a = getFindingStart b → a = b.


(** Options without client options, as the default [opts = {}] has. *)
Definition exOptionsDefault : HDXGoogleDLPRedactorOptions :=
  mkOptions None None None None false None.

(** Options with a negative batch size. *)
Definition exOptionsNegative : HDXGoogleDLPRedactorOptions :=
  mkOptions None None None (Some (-4)) false (Some (mkClientOptions "key")).

(** * Properties *)

(** ** Values read from the likelihood table *)

Lemma likelihoodValue_number f : js_to_number (likelihoodValue f) = rank f.
Proof.
  unfold likelihoodValue, js_get, rank.
  destruct (likelihoodPriority !! likelihood f); [done|]. by case_bool_decide.
Qed.

(** Unless both likelihoods name inherited members, the comparison of
    two table values is the comparison of the ranks. *)
Lemma js_value_gt_rank c p :
  is_Some (rank c) ∨ is_Some (rank p) ∨
  likelihood c ∉ Object_prototype_names ∨ likelihood p ∉ Object_prototype_names →
  js_value_gt (likelihoodValue c) (likelihoodValue p) = js_gt (rank c) (rank p).
Proof.
  unfold likelihoodValue, js_get, rank.
  destruct (likelihoodPriority !! likelihood c) as [rc|] eqn:Hc;
    destruct (likelihoodPriority !! likelihood p) as [rp|] eqn:Hp;
    repeat case_bool_decide; try done.
  intros [[? [=]]|[[? [=]]|[?|?]]]; done.
Qed.

(** ** The sort *)

Section JsSortFacts.
Context {A : Type} (cmp : A → A → Z).

Lemma js_sort_insert_perm x l : js_sort_insert cmp x l ≡ₚ x :: l.
Proof.
  induction l as [|y l IH]; simpl; [done|].
  destruct (cmp x y <=? 0); [done|].
  rewrite IH. apply Permutation_swap.
Qed.

Lemma js_sort_perm l : js_sort cmp l ≡ₚ l.
Proof.
  induction l as [|x l IH]; simpl; [done|].
  rewrite js_sort_insert_perm. by rewrite IH.
Qed.

Lemma js_sort_length l : length (js_sort cmp l) = length l.
Proof. apply Permutation_length, js_sort_perm. Qed.

Lemma elem_of_js_sort x l : x ∈ js_sort cmp l ↔ x ∈ l.
Proof. by rewrite js_sort_perm. Qed.
End JsSortFacts.

Lemma js_sort_insert_byStart_sorted x l :
  StronglySorted startsBefore l →
  StronglySorted startsBefore (js_sort_insert byStart x l).
Proof.
  induction 1 as [|y l Hl IH Hy]; simpl.
  - repeat constructor.
  - unfold byStart at 1. case_eq (getFindingStart x - getFindingStart y <=? 0); intros Hc.
    + apply Z.leb_le in Hc. constructor; [by constructor|].
      constructor; [unfold startsBefore; lia|].
      eapply Forall_impl; [exact Hy|]. unfold startsBefore. intros; lia.
    + apply Z.leb_gt in Hc. constructor; [done|].
      rewrite js_sort_insert_perm. constructor; [unfold startsBefore; lia|done].
Qed.

Lemma js_sort_byStart_sorted l : StronglySorted startsBefore (js_sort byStart l).
Proof.
  induction l as [|x l IH]; simpl; [constructor|].
  by apply js_sort_insert_byStart_sorted.
Qed.

(** The sort is stable: findings with the same start keep their order. *)
Lemma js_sort_insert_byStart_stable k x l :
  StronglySorted startsBefore l →
  filter (λ f, getFindingStart f = k) (js_sort_insert byStart x l)
  = filter (λ f, getFindingStart f = k) (x :: l).
Proof.
  induction 1 as [|y l Hl IH Hy]; simpl; [done|].
  unfold byStart at 1. case_eq (getFindingStart x - getFindingStart y <=? 0); intros Hc; [done|].
  apply Z.leb_gt in Hc.
  rewrite !filter_cons in *.
  destruct (decide (getFindingStart y = k)) as [Hyk|Hyk];
    destruct (decide (getFindingStart x = k)) as [Hxk|Hxk]; try lia;
    rewrite IH; try done.
Qed.

Lemma js_sort_byStart_stable k l :
  filter (λ f, getFindingStart f = k) (js_sort byStart l)
  = filter (λ f, getFindingStart f = k) l.
Proof.
  induction l as [|x l IH]; simpl; [done|].
  rewrite js_sort_insert_byStart_stable by apply js_sort_byStart_sorted.
  rewrite !filter_cons. by rewrite IH.
Qed.

(** ** The overlap resolver *)

Lemma overlapStep_snoc kept previous current :
  overlapStep (kept ++ [previous]) current =
    if getFindingStart current <? getFindingEnd previous then
      if js_value_gt (likelihoodValue current) (likelihoodValue previous)
      then kept ++ [current]
      else kept ++ [previous]
    else (kept ++ [previous]) ++ [current].
Proof.
  unfold overlapStep. rewrite last_snoc.
  destruct (getFindingStart current <? getFindingEnd previous); [|done].
  destruct (js_value_gt (likelihoodValue current) (likelihoodValue previous)); [|done].
  rewrite length_app. simpl.
  replace (length kept + 1 - 1)%nat with (length kept + 0)%nat by lia.
  by rewrite insert_app_r.
Qed.

Lemma fold_overlapStep_sweep rest kept previous :
  fold_left overlapStep rest (kept ++ [previous]) = kept ++ sweep previous rest.
Proof.
  revert kept previous. induction rest as [|current rest IH]; intros kept previous.
  - done.
  - simpl. rewrite overlapStep_snoc.
    destruct (getFindingStart current <? getFindingEnd previous).
    + destruct (js_value_gt (likelihoodValue current) (likelihoodValue previous)); apply IH.
    + rewrite IH. by rewrite <- app_assoc.
Qed.

(** The resolver is the sweep over the sorted findings, also on the
    early return. *)
Lemma removeOverlappingFindings_sweep findings :
  removeOverlappingFindings findings =
    match js_sort byStart findings with
    | [] => []
    | first :: rest => sweep first rest
    end.
Proof.
  unfold removeOverlappingFindings, removeOverlappingFindings_st.
  destruct findings as [|a [|b l]]; [done..|].
  replace (length (a :: b :: l) <=? 1)%nat with false by done.
  cbv zeta. destruct (js_sort byStart (a :: b :: l)) as [|first rest]; [done|].
  simpl. apply (fold_overlapStep_sweep rest []).
Qed.

Lemma removeOverlappingFindings_st_fst findings :
  fst (removeOverlappingFindings_st findings) ≡ₚ findings.
Proof.
  unfold removeOverlappingFindings_st.
  destruct (length findings <=? 1)%nat; [done|].
  cbv zeta. pose proof (js_sort_perm byStart findings) as Hp.
  by destruct (js_sort byStart findings).
Qed.

Lemma sweep_subset previous rest f :
  f ∈ sweep previous rest → f ∈ previous :: rest.
Proof.
  revert previous. induction rest as [|current rest IH]; intros previous; simpl.
  - done.
  - destruct (getFindingStart current <? getFindingEnd previous).
    + destruct (js_value_gt (likelihoodValue current) (likelihoodValue previous));
        intros Hf; apply IH in Hf; rewrite !elem_of_cons in *; tauto.
    + rewrite !elem_of_cons. intros [->|Hf]; [by left|].
      apply IH in Hf. rewrite elem_of_cons in Hf. tauto.
Qed.

Lemma removeOverlappingFindings_subset findings f :
  f ∈ removeOverlappingFindings findings → f ∈ findings.
Proof.
  rewrite removeOverlappingFindings_sweep.
  pose proof (js_sort_perm byStart findings) as Hp.
  destruct (js_sort byStart findings) as [|first rest].
  { intros Hf. by apply elem_of_nil in Hf. }
  intros Hf%sweep_subset. by rewrite <- Hp.
Qed.

(** Along the sweep of a sorted list every kept finding ends before the
    findings kept after it start. *)
Lemma sweep_endsBefore rest previous :
  StronglySorted startsBefore (previous :: rest) →
  StronglySorted endsBefore (sweep previous rest).
Proof.
  revert previous. induction rest as [|current rest IH]; intros previous Hs; simpl.
  - repeat constructor.
  - inversion Hs as [|?? Hs' Hp]; subst.
    inversion Hs' as [|?? Hs'' Hc]; subst.
    inversion Hp as [|?? Hpc Hp']; subst.
    case_eq (getFindingStart current <? getFindingEnd previous); intros Hov.
    + destruct (js_value_gt (likelihoodValue current) (likelihoodValue previous)); apply IH; [done|].
      by constructor.
    + apply Z.ltb_ge in Hov. constructor; [by apply IH|].
      apply Forall_forall. intros g Hg%sweep_subset.
      assert (startsBefore current g) as Hcg.
      { apply elem_of_cons in Hg as [->|Hg]; [unfold startsBefore; lia|].
        by eapply (proj1 (Forall_forall _ _) Hc). }
      unfold endsBefore, startsBefore in *. lia.
Qed.

Lemma removeOverlappingFindings_endsBefore findings :
  StronglySorted endsBefore (removeOverlappingFindings findings).
Proof.
  rewrite removeOverlappingFindings_sweep.
  pose proof (js_sort_byStart_sorted findings) as Hs.
  destruct (js_sort byStart findings); [constructor|].
  by apply sweep_endsBefore.
Qed.

Lemma StronglySorted_lookup_lt {A} (R : A → A → Prop) (l : list A) i j a b :
  StronglySorted R l → (i < j)%nat → l !! i = Some a → l !! j = Some b → R a b.
Proof.
  intros Hs. revert i j. induction Hs as [|x l Hs IH Hx]; intros i j Hij Hi Hj.
  - by rewrite lookup_nil in Hi.
  - destruct j as [|j]; [lia|]. simpl in Hj.
    destruct i as [|i]; simpl in Hi.
    + injection Hi as ->. eapply Forall_forall; [exact Hx|].
      by eapply list_elem_of_lookup_2.
    + eapply (IH i j); [lia|done..].
Qed.

Lemma overlapsb_spec a b : overlapsb a b = true ↔ overlaps a b.
Proof. unfold overlapsb, overlaps. rewrite andb_true_iff, !Z.ltb_lt. tauto. Qed.

Lemma overlaps_sym a b : overlaps a b → overlaps b a.
Proof. unfold overlaps. tauto. Qed.

(** C1. No-overlap invariant: for every input list of findings, no two
    findings at different positions of the output of
    [removeOverlappingFindings] overlap, that is, satisfy
    [a.start < b.end] and [b.start < a.end]. *)
Theorem removeOverlappingFindings_no_overlap (findings : list Finding) :
  ∀ (i j : nat) (a b : Finding),
    i ≠ j →
    removeOverlappingFindings findings !! i = Some a →
    removeOverlappingFindings findings !! j = Some b →
    ¬ overlaps a b.
Proof.
  intros i j a b Hij Hi Hj [Hab Hba].
  pose proof (removeOverlappingFindings_endsBefore findings) as Hs.
  destruct (decide (i < j)%nat) as [Hlt|Hge].
  - pose proof (StronglySorted_lookup_lt _ _ _ _ _ _ Hs Hlt Hi Hj) as H.
    unfold endsBefore in H. lia.
  - assert (j < i)%nat as Hlt by lia.
    pose proof (StronglySorted_lookup_lt _ _ _ _ _ _ Hs Hlt Hj Hi) as H.
    unfold endsBefore in H. lia.
Qed.

(** The two survivors of the worked example, given in another order. *)
Lemma removeOverlappingFindings_no_overlap_witness :
  removeOverlappingFindings [exC; exA; exB] !! 0%nat = Some exB ∧
  removeOverlappingFindings [exC; exA; exB] !! 1%nat = Some exC ∧
  ¬ overlaps exB exC.
Proof.
  split; [by vm_compute|]. split; [by vm_compute|].
  apply (removeOverlappingFindings_no_overlap [exC; exA; exB] 0 1 exB exC).
  - lia.
  - by vm_compute.
  - by vm_compute.
Defined.

(** ** Clusters *)

Lemma filter_all {A} (P : A → Prop) `{∀ x, Decision (P x)} (l : list A) :
  (∀ x, x ∈ l → P x) → filter P l = l.
Proof.
  induction l as [|x l IH]; intros Hl; [done|].
  rewrite filter_cons_True by (apply Hl; left).
  f_equal. apply IH. intros y Hy. apply Hl. by right.
Qed.

Lemma filter_none {A} (P : A → Prop) `{∀ x, Decision (P x)} (l : list A) :
  (∀ x, x ∈ l → ¬ P x) → filter P l = [].
Proof.
  induction l as [|x l IH]; intros Hl; [done|].
  rewrite filter_cons_False by (apply Hl; left).
  apply IH. intros y Hy. apply Hl. by right.
Qed.

Lemma rank_lt_le a b : rank_lt a b → rank_le a b.
Proof. intros (ra & rb & ? & ? & ?). exists ra, rb. repeat split; [done..|lia]. Qed.

Lemma rank_le_lt_trans a b c : rank_le a b → rank_lt b c → rank_lt a c.
Proof.
  intros (ra & rb & Ha & Hb & ?) (rb' & rc & Hb' & Hc & ?).
  exists ra, rc. repeat split; [done..|]. congruence || (rewrite Hb in Hb'; simplify_eq; lia).
Qed.

Lemma clustered_suffix l1 l2 : clustered (l1 ++ l2) → clustered l2.
Proof.
  intros [Hs Hn Hk Ht]. split.
  - by eapply StronglySorted_app_1_r.
  - intros f Hf. apply Hn, elem_of_app. by right.
  - intros f Hf. apply Hk, elem_of_app. by right.
  - intros a b c Ha Hb Hc. apply Ht; apply elem_of_app; by right.
Qed.

Lemma overlaps_refl f : nonempty_span f → overlaps f f.
Proof. unfold nonempty_span, overlaps. lia. Qed.

(** The sweep over a sorted list with disjoint clusters. [Db ++ p :: Da]
    is the part of the current cluster already swept, [p] its champion:
    the findings before it have a lower rank, those behind it none
    higher. *)
Lemma sweep_clustered rest :
  ∀ Db p Da L,
    L = Db ++ p :: Da ++ rest →
    clustered L →
    (∀ d, d ∈ Db ++ p :: Da → overlaps d p) →
    (∀ d, d ∈ Db → rank_lt d p) →
    (∀ d, d ∈ Da → rank_le d p) →
    ∀ f, f ∈ L →
      ∃ before g after,
        filter (overlaps f) L = before ++ g :: after ∧
        filter (overlaps f) (sweep p rest) = [g] ∧
        (∀ h, h ∈ before → rank_lt h g) ∧
        (∀ h, h ∈ after → rank_le h g).
Proof.
  induction rest as [|c r IH]; intros Db p Da L HL HC Hcur Hb Ha f Hf.
  - rewrite app_nil_r in HL. exists Db, p, Da. simpl.
    assert (p ∈ L) as HpL by (rewrite HL, elem_of_app, elem_of_cons; tauto).
    assert (overlaps f p) as Hfp by (apply Hcur; by rewrite <- HL).
    split; [|split; [by rewrite filter_singleton_True|done]].
    rewrite <- HL. apply filter_all. intros d Hd.
    apply (clustered_trans L HC f p d); [done..|].
    apply overlaps_sym, Hcur. by rewrite <- HL.
  - assert (L = (Db ++ p :: Da) ++ c :: r) as HL'.
    { rewrite HL. by rewrite <- app_assoc. }
    assert (∀ d, d ∈ Db ++ p :: Da → d ∈ L) as Hcur_in.
    { intros d Hd. rewrite HL'. apply elem_of_app. by left. }
    assert (∀ d, d ∈ c :: r → d ∈ L) as Hrest_in.
    { intros d Hd. rewrite HL'. apply elem_of_app. by right. }
    assert (p ∈ Db ++ p :: Da) as Hp_cur by (rewrite elem_of_app, elem_of_cons; tauto).
    assert (p ∈ L) as HpL by by apply Hcur_in.
    assert (c ∈ L) as HcL by (apply Hrest_in; left).
    assert (∀ d y, d ∈ Db ++ p :: Da → y ∈ c :: r →
              startsBefore d c ∧ startsBefore c y) as Hord.
    { intros d y Hd Hy. pose proof (clustered_sorted L HC) as Hs.
      rewrite HL' in Hs. split.
      - eapply StronglySorted_app_1_elem_of; [exact Hs|done|left].
      - apply StronglySorted_app_1_r in Hs. inversion Hs as [|?? _ Hall]; subst.
        apply elem_of_cons in Hy as [->|Hy]; [unfold startsBefore; lia|].
        eapply Forall_forall; [exact Hall|done]. }
    pose proof (clustered_nonempty L HC c HcL) as Hcne.
    simpl. case_eq (getFindingStart c <? getFindingEnd p); intros Hov.
    + apply Z.ltb_lt in Hov.
      assert (overlaps c p) as Hcp.
      { destruct (Hord p c Hp_cur) as [Hpc _]; [left|].
        unfold overlaps, startsBefore, nonempty_span in *. lia. }
      destruct (clustered_known L HC c HcL) as [rc Hrc].
      destruct (clustered_known L HC p HpL) as [rp Hrp].
      rewrite js_value_gt_rank by (left; by exists rc).
      rewrite Hrc, Hrp. simpl. case_eq (rp <? rc); intros Hr.
      * apply Z.ltb_lt in Hr.
        assert (rank_lt p c) as Hltpc by (exists rp, rc; done).
        apply (IH (Db ++ p :: Da) c [] L); [|done| | | |done].
        { rewrite HL. by rewrite <- !app_assoc. }
        { intros d Hd. apply elem_of_app in Hd as [Hd|Hd].
          - apply (clustered_trans L HC d p c); [by apply Hcur_in|done..| |].
            + by apply Hcur.
            + by apply overlaps_sym.
          - apply list_elem_of_singleton in Hd as ->. by apply overlaps_refl. }
        { intros d Hd. apply elem_of_app in Hd as [Hd|Hd].
          - eapply rank_le_lt_trans; [apply rank_lt_le, Hb, Hd|done].
          - apply elem_of_cons in Hd as [->|Hd]; [done|].
            eapply rank_le_lt_trans; [apply Ha, Hd|done]. }
        { intros d Hd. by apply elem_of_nil in Hd. }
      * apply Z.ltb_ge in Hr.
        apply (IH Db p (Da ++ [c]) L); [|done| |done| |done].
        { rewrite HL. by rewrite <- !app_assoc. }
        { intros d Hd. rewrite app_comm_cons, app_assoc in Hd.
          apply elem_of_app in Hd as [Hd|Hd]; [by apply Hcur|].
          apply list_elem_of_singleton in Hd as ->. done. }
        { intros d Hd. apply elem_of_app in Hd as [Hd|Hd]; [by apply Ha|].
          apply list_elem_of_singleton in Hd as ->. by exists rc, rp. }
    + apply Z.ltb_ge in Hov.
      (* [c] opens a new cluster: nothing swept so far overlaps what follows *)
      assert (∀ d y, d ∈ Db ++ p :: Da → y ∈ c :: r → ¬ overlaps d y) as Hsep.
      { intros d y Hd Hy Hdy.
        destruct (Hord d y Hd Hy) as [Hdc Hcy].
        assert (overlaps d c) as Hdc'.
        { unfold overlaps, startsBefore, nonempty_span in *. lia. }
        assert (overlaps p c) as Hpc'.
        { apply (clustered_trans L HC p d c); [done|by apply Hcur_in|done| |done].
          by apply overlaps_sym, Hcur. }
        unfold overlaps in Hpc'. lia. }
      assert (f ∈ Db ++ p :: Da ∨ f ∈ c :: r) as [Hfc|Hfr].
      { rewrite HL' in Hf. by apply elem_of_app in Hf. }
      * exists Db, p, Da.
        assert (overlaps f p) as Hfp by by apply Hcur.
        split; [|split; [|done]].
        -- rewrite HL' at 1. rewrite filter_app.
           rewrite (filter_none _ (c :: r)) by (intros y Hy; by apply Hsep).
           rewrite app_nil_r. apply filter_all. intros d Hd.
           apply (clustered_trans L HC f p d);
             [done|done|by apply Hcur_in|done|by apply overlaps_sym, Hcur].
        -- rewrite filter_cons_True by done. f_equal.
           apply filter_none. intros y Hy. apply sweep_subset in Hy. by apply Hsep.
      * assert (clustered (c :: r)) as HC'.
        { rewrite HL' in HC. by eapply clustered_suffix. }
        destruct (IH [] c [] (c :: r)) with (f := f)
          as (before & g & after & Hcl & Hout & Hbef & Haft); [done|done| | | |done|].
        { intros d Hd. apply list_elem_of_singleton in Hd as ->.
          by apply overlaps_refl. }
        { intros d Hd. by apply elem_of_nil in Hd. }
        { intros d Hd. by apply elem_of_nil in Hd. }
        exists before, g, after. split; [|split; [|done]].
        -- rewrite HL' at 1. rewrite filter_app.
           rewrite (filter_none _ (Db ++ p :: Da)); [done|].
           intros d Hd Hfd. by apply (Hsep d f Hd Hfr), overlaps_sym.
        -- rewrite filter_cons_False; [done|].
           intros Hfp. by apply (Hsep p f Hp_cur Hfr), overlaps_sym.
Qed.

Lemma clustered_sorted_input findings :
  Forall nonempty_span findings →
  Forall known_likelihood findings →
  overlap_transitive findings →
  clustered (js_sort byStart findings).
Proof.
  intros Hn Hk Ht. split.
  - apply js_sort_byStart_sorted.
  - intros f Hf%elem_of_js_sort. by eapply Forall_forall.
  - intros f Hf%elem_of_js_sort. by eapply Forall_forall.
  - intros a b c Ha%elem_of_js_sort Hb%elem_of_js_sort Hc%elem_of_js_sort.
    unfold overlap_transitive in Ht.
    pose proof (proj1 (Forall_forall _ _) Ht a Ha) as Hta. simpl in Hta.
    pose proof (proj1 (Forall_forall _ _) Hta b Hb) as Htb. simpl in Htb.
    exact (proj1 (Forall_forall _ _) Htb c Hc).
Qed.

(** C2, as amended. When the clusters of the input are disjoint
    (non-empty spans, likelihoods of the table, transitive overlap),
    exactly one finding [g] of the cluster of every input finding [f]
    is in the output of [removeOverlappingFindings]; in the cluster
    taken in sorted order, every finding before [g] has a strictly lower
    rank and every finding after it a rank that is not higher: [g] has
    the maximum rank and is the first of that rank in sorted order. *)
Theorem removeOverlappingFindings_disjoint_clusters (findings : list Finding) :
  Forall nonempty_span findings →
  Forall known_likelihood findings →
  overlap_transitive findings →
  ∀ f, f ∈ findings →
    ∃ before g after,
      filter (overlaps f) (js_sort byStart findings) = before ++ g :: after ∧
      filter (overlaps f) (removeOverlappingFindings findings) = [g] ∧
      (∀ h, h ∈ before → rank_lt h g) ∧
      (∀ h, h ∈ after → rank_le h g).
Proof.
  intros Hn Hk Ht f Hf.
  pose proof (clustered_sorted_input findings Hn Hk Ht) as HC.
  apply (elem_of_js_sort byStart) in Hf.
  rewrite removeOverlappingFindings_sweep.
  destruct (js_sort byStart findings) as [|p rest] eqn:Hsort.
  { by apply elem_of_nil in Hf. }
  apply (sweep_clustered rest [] p [] (p :: rest)); [done|done| | |  |done].
  - intros d Hd. apply list_elem_of_singleton in Hd as ->.
    apply overlaps_refl, (clustered_nonempty _ HC). left.
  - intros d Hd. by apply elem_of_nil in Hd.
  - intros d Hd. by apply elem_of_nil in Hd.
Qed.

(** Two overlapping findings and a third one apart: the cluster of the
    first is won by the second. *)
Lemma removeOverlappingFindings_disjoint_clusters_witness :
  ∃ before g after,
    filter (overlaps exX) (js_sort byStart [exY; exZ; exX]) = before ++ g :: after ∧
    filter (overlaps exX) (removeOverlappingFindings [exY; exZ; exX]) = [g] ∧
    (∀ h, h ∈ before → rank_lt h g) ∧
    (∀ h, h ∈ after → rank_le h g).
Proof.
  apply (removeOverlappingFindings_disjoint_clusters [exY; exZ; exX]).
  - repeat constructor; unfold nonempty_span; simpl; lia.
  - repeat constructor; eexists; vm_compute; reflexivity.
  - unfold overlap_transitive. apply (bool_decide_unpack _). vm_compute. exact I.
  - apply (bool_decide_unpack _). vm_compute. exact I.
Defined.

Example removeOverlappingFindings_example :
  removeOverlappingFindings [exA; exB; exC] = [exB; exC].
Proof. vm_compute. reflexivity. Qed.

(** C2, counterexample. On the example of the specification the cluster
    of PERSON_NAME (rank 4) and LAST_NAME (rank 3) is maximal, and its
    only survivor is LAST_NAME. *)
Lemma max_rank_wins_counterexample :
  is_cluster [exA; exB; exC] [exA; exC] ∧
  removeOverlappingFindings [exA; exB; exC] = [exB; exC] ∧
  ¬ max_rank_wins_as_specified [exA; exB; exC].
Proof.
  assert (is_cluster [exA; exB; exC] [exA; exC]) as Hcl.
  { split; [done|]. split; [|split].
    - apply sublist_skip, sublist_cons, sublist_skip, sublist_nil.
    - intros i j a b Hij Hi Hj.
      destruct i as [|[|i]], j as [|[|j]]; simplify_eq/=; try done;
        apply (bool_decide_unpack _); vm_compute; exact I.
    - intros h Hh Hnot. exists exC. split; [right; left|].
      assert (h = exB) as ->.
      { apply elem_of_cons in Hh as [->|Hh]; [exfalso; apply Hnot; left|].
        apply elem_of_cons in Hh as [->|Hh]; [done|].
        apply list_elem_of_singleton in Hh as ->. exfalso. apply Hnot. right; left. }
      apply (bool_decide_unpack _). vm_compute. exact I. }
  split; [done|]. split; [apply removeOverlappingFindings_example|].
  intros H. destruct (H [exA; exC] Hcl) as (g & Hg & Hmax & _).
  rewrite removeOverlappingFindings_example in Hg.
  vm_compute in Hg. injection Hg as <-.
  destruct (Hmax exA) as (ra & rg & Ha & Hrg & Hle); [left|].
  vm_compute in Ha, Hrg. simplify_eq. lia.
Qed.

(** ** The likelihood table and the filter *)

Lemma likelihoodPriority_lookup name r :
  likelihoodPriority !! name = Some r ↔
  (name, r) ∈ [ ("EXCLUDE", -1); ("LIKELIHOOD_UNSPECIFIED", 0); ("VERY_UNLIKELY", 1);
                ("UNLIKELY", 2); ("POSSIBLE", 3); ("LIKELY", 4); ("VERY_LIKELY", 5) ].
Proof.
  unfold likelihoodPriority. symmetry. apply elem_of_list_to_map.
  apply (bool_decide_unpack _). by vm_compute.
Qed.

Lemma likelihoodPriority_cases name r :
  likelihoodPriority !! name = Some r →
  (name = "EXCLUDE" ∧ r = -1) ∨ (name = "LIKELIHOOD_UNSPECIFIED" ∧ r = 0) ∨
  (name = "VERY_UNLIKELY" ∧ r = 1) ∨ (name = "UNLIKELY" ∧ r = 2) ∨
  (name = "POSSIBLE" ∧ r = 3) ∨ (name = "LIKELY" ∧ r = 4) ∨
  (name = "VERY_LIKELY" ∧ r = 5).
Proof.
  rewrite likelihoodPriority_lookup.
  rewrite !elem_of_cons, elem_of_nil.
  intros H. repeat (destruct H as [H|H]; [simplify_eq; tauto|]). done.
Qed.

Lemma keepFinding_object entries a :
  keepFinding (PolicyObject entries) a = Ok (keeps entries a).
Proof. reflexivity. Qed.

Lemma js_filter_Ok {A} (keep : A → bool) (callback : A → result bool) (l : list A) :
  (∀ a, callback a = Ok (keep a)) →
  js_filter callback l = Ok (filter (λ a, keep a = true) l).
Proof.
  intros Hcb. induction l as [|a l IH]; [done|].
  simpl. rewrite Hcb, IH. simpl. rewrite filter_cons.
  destruct (keep a); by case_decide.
Qed.

Lemma js_filter_object entries l :
  js_filter (keepFinding (PolicyObject entries)) l
  = Ok (filter (λ a, keeps entries a = true) l).
Proof. apply js_filter_Ok. intros a. apply keepFinding_object. Qed.

(** No name of the table is the name of an inherited member. *)
Lemma inherited_not_in_table name :
  name ∈ Object_prototype_names → likelihoodPriority !! name = None.
Proof.
  unfold Object_prototype_names. rewrite !elem_of_cons, elem_of_nil.
  intros H. repeat (destruct H as [->|H]; [by vm_compute|]). done.
Qed.

Lemma known_not_inherited f r :
  rank f = Some r → likelihood f ∉ Object_prototype_names.
Proof.
  intros Hr Hin. apply inherited_not_in_table in Hin.
  unfold rank in Hr. congruence.
Qed.

(** A likelihood that names no inherited member reads as its rank or as
    [undefined]. *)
Lemma likelihoodValue_not_inherited f :
  likelihood f ∉ Object_prototype_names →
  likelihoodValue f = match rank f with Some r => JsNumber r | None => JsUndefined end.
Proof.
  intros Hf. unfold likelihoodValue, js_get, rank.
  destruct (likelihoodPriority !! likelihood f); [done|]. by case_bool_decide.
Qed.

Lemma keeps_true_iff entries f :
  likelihood f ∉ Object_prototype_names →
  (keeps entries f = true ↔
   (entries !! infoType_name f = None ∧
    infoType_name f ∉ Object_prototype_names) ∨
   entries !! infoType_name f = Some 0 ∨
   ∃ m r, entries !! infoType_name f = Some m ∧ rank f = Some r ∧ m ≤ r).
Proof.
  intros Hf. unfold keeps. rewrite (likelihoodValue_not_inherited f Hf).
  unfold js_get.
  destruct (entries !! infoType_name f) as [m|] eqn:Hm;
    destruct (rank f) as [r|] eqn:Hr; simpl;
    rewrite ?orb_true_iff, ?Z.leb_le, ?Z.eqb_eq.
  - split.
    + intros [K|K]; [right; right; by exists m, r|right; left; by subst].
    + intros [[K _]|[K|(m' & r' & ? & ? & ?)]]; simplify_eq; [by right|by left].
  - split.
    + intros ->. by right; left.
    + intros [[K _]|[K|(m' & r' & ? & ? & ?)]]; by simplify_eq.
  - case_bool_decide; simpl; split.
    + intros [K|K]; done.
    + intros [[_ K]|[K|(m' & r' & ? & ? & ?)]]; done.
    + intros _. by left.
    + intros _. by right.
  - case_bool_decide; simpl; split.
    + intros [K|K]; done.
    + intros [[_ K]|[K|(m' & r' & ? & ? & ?)]]; done.
    + intros _. by left.
    + intros _. by right.
Qed.




(** C5, the failing input. With the policy argument omitted and one or
    more findings reported, the filter callback reads a property of
    [undefined]: both request functions and the public entry point end
    with a [TypeError]. *)
Theorem missing_policy_throws :
  doRedactAsync exInspectContent exOptions exText PolicyUndefined false
    = Err TypeError ∧
  doInspectStructured (λ _ _ _, Some [exA]) exOptions ["name"] [["John D."]]
    PolicyUndefined = Err TypeError ∧
  fst (redactAsync 524288 5 exInspectContent exOptions 0 exText PolicyUndefined)
    = Thrown TypeError.
Proof. repeat split; by vm_compute. Qed.

(** C9, as amended. The table maps exactly its seven names, to distinct
    integers, [EXCLUDE] to [-1] and every other name above it. Reading
    the table at another likelihood fails nowhere: the value is
    [undefined], or the inherited member for the name of a member of
    [Object.prototype], and it is no number. In the resolver a finding
    never replaces, and is never replaced, when one of the two
    likelihoods is outside the table, unless both name inherited
    members (which are compared as strings); in the filter a finding
    whose likelihood is outside the table and names no inherited member
    is kept exactly when its category reads as [undefined] or as zero
    in the policy. *)
Theorem likelihoodPriority_table :
  (∀ name, is_Some (likelihoodPriority !! name) ↔ name ∈ likelihood_names) ∧
  (∀ n1 n2 r, likelihoodPriority !! n1 = Some r →
              likelihoodPriority !! n2 = Some r → n1 = n2) ∧
  likelihoodPriority !! "EXCLUDE" = Some (-1) ∧
  (∀ name r, likelihoodPriority !! name = Some r → name ≠ "EXCLUDE" → -1 < r) ∧
  (∀ name,
     likelihoodPriority !! name = js_to_number (js_get likelihoodPriority name) ∧
     (js_get likelihoodPriority name = JsUndefined ↔
      ((name ∉ likelihood_names) ∧ name ∉ Object_prototype_names))) ∧
  (∀ kept previous current,
     rank current = None ∨ rank previous = None →
     likelihood current ∉ Object_prototype_names ∨
     likelihood previous ∉ Object_prototype_names →
     overlapStep (kept ++ [previous]) current =
       if getFindingStart current <? getFindingEnd previous
       then kept ++ [previous] else kept ++ [previous; current]) ∧
  (∀ entries a,
     rank a = None → likelihood a ∉ Object_prototype_names →
     keepFinding (PolicyObject entries) a
     = Ok (js_value_not (js_get entries (infoType_name a)))).
Proof.
  assert (∀ name, is_Some (likelihoodPriority !! name) ↔ name ∈ likelihood_names)
    as Hnames.
  { intros name. split.
    + intros [r Hr%likelihoodPriority_cases]. unfold likelihood_names.
      rewrite !elem_of_cons.
      repeat (destruct Hr as [[-> _]|Hr]; [tauto|]). destruct Hr as [-> _]. tauto.
    + unfold likelihood_names. rewrite !elem_of_cons, elem_of_nil.
      intros H. repeat (destruct H as [->|H]; [by eexists; vm_compute|]). done. }
  split; [exact Hnames|]. split; [|split; [|split; [|split; [|split]]]].
  - intros n1 n2 r H1%likelihoodPriority_cases H2%likelihoodPriority_cases.
    repeat (destruct H1 as [[-> ->]|H1] || destruct H1 as [-> ->]);
      repeat (destruct H2 as [[-> ?]|H2] || destruct H2 as [-> ?]); done.
  - by vm_compute.
  - intros name r Hr%likelihoodPriority_cases Hne.
    repeat (destruct Hr as [[-> ->]|Hr]; [done || lia|]). destruct Hr as [-> ->]. lia.
  - intros name. specialize (Hnames name). unfold js_get.
    destruct (likelihoodPriority !! name) as [r|] eqn:Hr.
    + split; [done|]. split; [done|]. intros [Hout _]. destruct Hout.
      apply Hnames. by eexists.
    + assert (name ∉ likelihood_names) as Hout.
      { intros Hin. apply Hnames in Hin as [? [=]]. }
      case_bool_decide; simpl; (split; [done|]); split; try done.
      by intros [_ ?].
  - intros kept previous current Hrank Hinherited. rewrite overlapStep_snoc.
    rewrite js_value_gt_rank by tauto.
    destruct (getFindingStart current <? getFindingEnd previous).
    + destruct Hrank as [-> | ->]; [done|]. by destruct (rank current).
    + by rewrite <- app_assoc.
  - intros entries a Ha Hinherited. rewrite keepFinding_object. unfold keeps.
    rewrite (likelihoodValue_not_inherited a Hinherited), Ha.
    unfold js_get. destruct (entries !! infoType_name a); [done|].
    by case_bool_decide.
Qed.

(** C9, counterexample. A finding of the unknown likelihood [CERTAIN]
    goes through the filter and through the resolver, and the call
    returns. *)
Lemma unknown_likelihood_counterexample :
  rank exUnknown = None ∧
  (∃ r, doRedactAsync (λ _ _, [exA; exUnknown]) exOptions exText
          (PolicyObject {[ "PERSON_NAME" := 3 ]}) true = Ok r) ∧
  removeOverlappingFindings [exA; exUnknown] = [exA] ∧
  ¬ unknown_likelihood_fails_as_specified.
Proof.
  split; [by vm_compute|]. split; [eexists; by vm_compute|].
  split; [by vm_compute|].
  intros H.
  destruct (H (λ _ _, [exA; exUnknown]) exOptions exText
              (PolicyObject {[ "PERSON_NAME" := 3 ]}) true exUnknown)
    as [e He].
  - right; left.
  - by vm_compute.
  - by vm_compute in He.
Qed.

(** ** The batching loop *)

Lemma Promise_all_Ok {A} (promises : list (result A)) (rs : list A) :
  Promise_all promises = Ok rs ↔ promises = map Ok rs.
Proof.
  revert rs. induction promises as [|p ps IH]; intros rs; simpl.
  - split; [intros [= <-]; done|]. by destruct rs.
  - destruct p as [a|e]; simpl.
    + destruct (Promise_all ps) as [rest|e] eqn:Hps; simpl.
      * split.
        -- intros [= <-]. simpl. f_equal. by apply IH.
        -- destruct rs as [|r rs]; [done|]. simpl. intros [= -> Hrs].
           apply IH in Hrs. by simplify_eq.
      * split; [done|]. destruct rs as [|r rs]; [done|]. simpl. intros [= -> Hrs].
        apply IH in Hrs. done.
    + split; [done|]. by destruct rs.
Qed.

Lemma Promise_all_map_Ok {A} (rs : list A) : Promise_all (map Ok rs) = Ok rs.
Proof. by apply Promise_all_Ok. Qed.

Section BatchLoopFacts.
Context {Item : Type}.
Variable MAX_PROMISES total size : Z.
Variable batchAt : Z → Z → Item.
Variable call : Item → result RedactorOutput.

Local Abbreviation loop := (batchLoop MAX_PROMISES total size batchAt call).

(** The proof rule of the loop: [P] holds of the states at the loop
    head, [Q] of the way the loop is left. *)
Lemma batchLoop_rule (P : BatchState Item → Prop)
    (Q : outcome unit → BatchState Item → Prop) :
  (∀ st, P st → total ≤ batchStartIndex st → Q (Returned ()) st) →
  (∀ st, P st → batchStartIndex st < total → Q Running st) →
  (∀ st, P st → batchStartIndex st < total →
     let batchEndIndex := batchStartIndex st + size in
     let batch := batchAt (batchStartIndex st) batchEndIndex in
     let promises := batchPromises st ++ [call batch] in
     let tr := trace st ++ [EvCall batch] in
     if MAX_PROMISES <=? Z.of_nat (length promises) then
       match Promise_all promises with
       | Ok rs =>
           P (mkBatchState [] batchEndIndex (batchResults st ++ rs)
                (tr ++ [EvAwaitAll (length promises)]))
       | Err e =>
           Q (Thrown e) (mkBatchState promises batchEndIndex (batchResults st) tr)
       end
     else P (mkBatchState promises batchEndIndex (batchResults st) tr)) →
  ∀ iterations st, P st →
    Q (fst (loop iterations st)) (snd (loop iterations st)).
Proof.
  intros Hdone Hrun Hstep. induction iterations as [|n IH]; intros st HP.
  - simpl. case_eq (batchStartIndex st <? total); intros Hlt; simpl.
    + apply Hrun; [done|]. by apply Z.ltb_lt.
    + apply Hdone; [done|]. by apply Z.ltb_ge.
  - simpl. case_eq (batchStartIndex st <? total); intros Hlt; simpl.
    + apply Z.ltb_lt in Hlt. specialize (Hstep st HP Hlt). cbv zeta in Hstep.
      destruct (MAX_PROMISES <=? _).
      * destruct (Promise_all _) as [rs|e]; [by apply IH|done].
      * by apply IH.
    + apply Hdone; [done|]. by apply Z.ltb_ge.
Qed.

(** With a positive batch size the loop ends within [total - start]
    iterations. *)
Lemma batchLoop_ends iterations st :
  0 < size →
  total - batchStartIndex st ≤ Z.of_nat iterations →
  fst (loop iterations st) ≠ Running.
Proof.
  intros Hsize. revert st. induction iterations as [|n IH]; intros st Hn; simpl.
  - case_eq (batchStartIndex st <? total); intros Hlt; [|done].
    apply Z.ltb_lt in Hlt. lia.
  - case_eq (batchStartIndex st <? total); intros Hlt; [|done].
    destruct (MAX_PROMISES <=? _).
    + destruct (Promise_all _); [|done]. apply IH. simpl. lia.
    + apply IH. simpl. lia.
Qed.

(** With a positive batch size the loop ends as soon as the iterations
    times the size cover what is left of the content. *)
Lemma batchLoop_ends_within iterations st :
  0 < size →
  total - batchStartIndex st ≤ Z.of_nat iterations * size →
  fst (loop iterations st) ≠ Running.
Proof.
  intros Hsize. revert st. induction iterations as [|n IH]; intros st Hn; simpl.
  - case_eq (batchStartIndex st <? total); intros Hlt; [|done].
    apply Z.ltb_lt in Hlt. lia.
  - case_eq (batchStartIndex st <? total); intros Hlt; [|done].
    destruct (MAX_PROMISES <=? _).
    + destruct (Promise_all _); [|done]. apply IH. simpl. lia.
    + apply IH. simpl. lia.
Qed.

(** Once the loop has been left, further iterations change nothing. *)
Lemma batchLoop_more_iterations iterations extra st :
  fst (loop iterations st) ≠ Running →
  loop (iterations + extra) st = loop iterations st.
Proof.
  revert st. induction iterations as [|n IH]; intros st; simpl.
  - destruct (batchStartIndex st <? total) eqn:Hlt; [done|].
    intros _. destruct extra; simpl; by rewrite Hlt.
  - destruct (batchStartIndex st <? total); [|done].
    destruct (MAX_PROMISES <=? _); [|apply IH].
    destruct (Promise_all _); [apply IH|done].
Qed.
End BatchLoopFacts.

(** ** Traces *)

Lemma inFlight_call {Item} (tr : list (event Item)) item :
  inFlight (tr ++ [EvCall item]) = inFlight tr + 1.
Proof. unfold inFlight. by rewrite fold_left_app. Qed.

Lemma inFlight_await {Item} (tr : list (event Item)) n :
  inFlight (tr ++ [EvAwaitAll n]) = 0.
Proof. unfold inFlight. by rewrite fold_left_app. Qed.

Lemma dispatched_call {Item} (tr : list (event Item)) item :
  dispatched (tr ++ [EvCall item]) = dispatched tr ++ [item].
Proof. unfold dispatched. by rewrite omap_app. Qed.

Lemma dispatched_await {Item} (tr : list (event Item)) n :
  dispatched (tr ++ [EvAwaitAll n]) = dispatched tr.
Proof. unfold dispatched. rewrite omap_app. simpl. by rewrite app_nil_r. Qed.

Lemma prefix_snoc_inv {A} (p l : list A) x :
  p `prefix_of` l ++ [x] → p `prefix_of` l ∨ p = l ++ [x].
Proof.
  intros [k Hk]. destruct k as [|y k _] using rev_ind.
  - right. by rewrite app_nil_r in Hk.
  - left. rewrite app_assoc in Hk. apply app_inj_tail in Hk as [-> _].
    by exists k.
Qed.

Lemma wave_discipline_nil {Item} bound : 0 ≤ bound → wave_discipline (Item:=Item) bound [].
Proof.
  intros Hb p Hp%prefix_nil_inv. subst p. split; [done|].
  split; [|split]; intros x Hx; simpl in Hx; by apply prefix_nil_not in Hx.
Qed.

Lemma wave_discipline_snoc {Item} bound (tr : list (event Item)) ev :
  wave_discipline bound tr →
  match ev with
  | EvCall _ => inFlight tr < bound
  | EvAwaitAll n => Z.of_nat n = inFlight tr ∧ 0 ≤ bound
  end →
  wave_discipline bound (tr ++ [ev]).
Proof.
  intros Htr Hev p Hp.
  assert (∀ ev', p ++ [ev'] `prefix_of` tr ++ [ev] →
            p ++ [ev'] `prefix_of` tr ∨ (p = tr ∧ ev' = ev)) as Hnext.
  { intros ev' [H|H]%prefix_snoc_inv; [by left|right]. by apply app_inj_tail in H. }
  apply prefix_snoc_inv in Hp as [Hp| ->].
  - destruct (Htr p Hp) as (Hle & Hcall & Hawait & Hfull).
    split; [done|]. split; [|split].
    + intros item [H|[-> <-]]%Hnext; [by eapply Hcall|done].
    + intros n [H|[-> <-]]%Hnext; [by eapply Hawait|by destruct Hev].
    + intros ev' [H|[-> ->]]%Hnext Hp'; [by apply Hfull|].
      destruct ev as [item|n]; [lia|]. destruct Hev as [Hn _]. f_equal. lia.
  - split; [|split; [|split]].
    + destruct ev; [rewrite inFlight_call; lia|rewrite inFlight_await; lia].
    + intros item H. by apply prefix_snoc_not in H.
    + intros n H. by apply prefix_snoc_not in H.
    + intros ev' H. by apply prefix_snoc_not in H.
Qed.

Section WaveFacts.
Context {Item : Type}.
Variable MAX_PROMISES total size : Z.
Variable batchAt : Z → Z → Item.
Variable call : Item → result RedactorOutput.
Hypothesis MAX_PROMISES_pos : 1 ≤ MAX_PROMISES.

Lemma batchLoop_waves iterations st :
  Z.of_nat (length (batchPromises st)) = inFlight (trace st) →
  inFlight (trace st) < MAX_PROMISES →
  wave_discipline MAX_PROMISES (trace st) →
  let run := batchLoop MAX_PROMISES total size batchAt call iterations st in
  wave_discipline MAX_PROMISES (trace (snd run)) ∧
  (fst run = Returned () →
   Z.of_nat (length (batchPromises (snd run))) = inFlight (trace (snd run))).
Proof.
  intros Hlen Hlt Hw.
  apply (batchLoop_rule MAX_PROMISES total size batchAt call
    (λ st, Z.of_nat (length (batchPromises st)) = inFlight (trace st) ∧
           inFlight (trace st) < MAX_PROMISES ∧
           wave_discipline MAX_PROMISES (trace st))
    (λ out st, wave_discipline MAX_PROMISES (trace st) ∧
               (out = Returned () →
                Z.of_nat (length (batchPromises st)) = inFlight (trace st))));
    [| | |done].
  - intros st' (? & ? & ?) _. done.
  - intros st' (? & ? & ?) _. done.
  - intros st' (Hl & Hf & Hd) _. cbv zeta.
    set (batch := batchAt _ _).
    assert (wave_discipline MAX_PROMISES (trace st' ++ [EvCall batch])) as Hd'.
    { by apply wave_discipline_snoc. }
    assert (Z.of_nat (length (batchPromises st' ++ [call batch]))
            = inFlight (trace st' ++ [EvCall batch])) as Hl'.
    { rewrite length_app, inFlight_call. simpl. lia. }
    case_eq (MAX_PROMISES <=? Z.of_nat (length (batchPromises st' ++ [call batch])));
      intros Hfull.
    + assert (wave_discipline MAX_PROMISES
                ((trace st' ++ [EvCall batch])
                   ++ [EvAwaitAll (length (batchPromises st' ++ [call batch]))])) as Hd''.
      { apply wave_discipline_snoc; [done|]. split; [done|lia]. }
      destruct (Promise_all _) as [rs|e]; simpl.
      * rewrite inFlight_await. split; [done|]. split; [lia|done].
      * split; [done|]. done.
    + apply Z.leb_gt in Hfull. simpl. split; [done|]. split; [lia|done].
Qed.

Lemma runBatches_waves iterations :
  wave_discipline MAX_PROMISES
    (snd (runBatches MAX_PROMISES total size batchAt call iterations)).
Proof.
  unfold runBatches. cbv zeta.
  destruct (batchLoop_waves iterations (mkBatchState [] 0 [] [])) as [Hw Hret].
  { done. }
  { simpl. unfold inFlight. simpl. lia. }
  { apply wave_discipline_nil. lia. }
  destruct (fst (batchLoop _ _ _ _ _ _ _)) as [[]|e|] eqn:Hexit; simpl; [|done..].
  assert (wave_discipline MAX_PROMISES
            (trace (snd (batchLoop MAX_PROMISES total size batchAt call iterations
                           (mkBatchState [] 0 [] [])))
             ++ [EvAwaitAll (length (batchPromises
                   (snd (batchLoop MAX_PROMISES total size batchAt call iterations
                           (mkBatchState [] 0 [] [])))))])) as Hw'.
  { apply wave_discipline_snoc; [done|]. split; [by apply Hret|lia]. }
  by destruct (Promise_all _).
Qed.
End WaveFacts.

Lemma wave_discipline_single {Item} bound (item : Item) :
  1 ≤ bound → wave_discipline bound [EvCall item].
Proof.
  intros Hb. apply (wave_discipline_snoc bound [] (EvCall item)).
  - apply wave_discipline_nil. lia.
  - unfold inFlight. simpl. lia.
Qed.

(** C7. Under a bound [MAX_PROMISES] of at least one, in every run of
    [redactAsync] and of [inspectStructured], whatever the number of
    loop iterations observed: never more than [MAX_PROMISES] calls are
    in flight; a call is issued only while fewer than [MAX_PROMISES] are
    in flight; every [await Promise.all] waits for all the calls in
    flight; and a full wave is awaited, as a whole, before the next call
    is issued. *)
Theorem waves_bounded (MAX_CONTENT_LENGTH MAX_PROMISES : Z)
    (inspectContent : InspectConfig → string → list Finding)
    (inspectTable : InspectConfig → list string → list (list string) → option (list Finding))
    (opts : HDXGoogleDLPRedactorOptions) :
  1 ≤ MAX_PROMISES →
  (∀ iterations textToRedact filter,
     wave_discipline MAX_PROMISES
       (snd (redactAsync MAX_CONTENT_LENGTH MAX_PROMISES inspectContent opts
               iterations textToRedact filter))) ∧
  (∀ iterations headers rows filter,
     wave_discipline MAX_PROMISES
       (snd (inspectStructured MAX_PROMISES inspectTable opts
               iterations headers rows filter))).
Proof.
  intros Hmax. split.
  - intros iterations textToRedact filter. unfold redactAsync.
    destruct (_ && _); simpl.
    + by apply runBatches_waves.
    + by apply wave_discipline_single.
  - intros iterations headers rows filter. unfold inspectStructured.
    destruct (maxRowsPerBatch headers) as [m|]; simpl.
    + destruct (m <? _); simpl.
      * by apply runBatches_waves.
      * by apply wave_discipline_single.
    + by apply wave_discipline_single.
Qed.

(** ** Strings and slices *)

Lemma string_app_nil_r s : s +:+ "" = s.
Proof.
  induction s as [|c s IH]; [done|].
  change (String c (s +:+ "") = String c s). by rewrite IH.
Qed.

Lemma string_app_assoc s1 s2 s3 : (s1 +:+ s2) +:+ s3 = s1 +:+ (s2 +:+ s3).
Proof.
  induction s1 as [|c s1 IH]; [done|].
  change (String c ((s1 +:+ s2) +:+ s3) = String c (s1 +:+ (s2 +:+ s3))).
  by rewrite IH.
Qed.

Lemma string_take_0 s : string_take 0 s = "".
Proof. by destruct s. Qed.

Lemma string_take_all n s : (String.length s ≤ n)%nat → string_take n s = s.
Proof.
  revert n. induction s as [|c s IH]; intros n Hn; [by destruct n|].
  destruct n as [|n]; simpl in *; [lia|]. rewrite IH; [done|lia].
Qed.

Lemma string_drop_all n s : (String.length s ≤ n)%nat → string_drop n s = "".
Proof.
  revert n. induction s as [|c s IH]; intros n Hn; [by destruct n|].
  destruct n as [|n]; simpl in *; [lia|]. apply IH. lia.
Qed.

Lemma string_length_take n s :
  String.length (string_take n s) = Nat.min n (String.length s).
Proof.
  revert n. induction s as [|c s IH]; intros [|n]; simpl; [done..|]. by rewrite IH.
Qed.

Lemma string_length_drop n s :
  String.length (string_drop n s) = (String.length s - n)%nat.
Proof.
  revert n. induction s as [|c s IH]; intros [|n]; simpl; [done..|]. by rewrite IH.
Qed.

(** Two adjacent pieces make the longer prefix. *)
Lemma string_take_glue a k s :
  string_take a s +:+ string_take k (string_drop a s) = string_take (a + k) s.
Proof.
  revert s. induction a as [|a IH]; intros s.
  - by destruct s.
  - destruct s as [|c s]; simpl.
    + by destruct k.
    + change (String c (string_take a s +:+ string_take k (string_drop a s))
              = String c (string_take (a + k) s)).
      by rewrite IH.
Qed.

(** [substring] between two ordered, non-negative indices. *)
Lemma js_substring_ordered s a b :
  0 ≤ a ≤ b →
  js_substring s a b
  = string_take (Z.to_nat b - Z.to_nat a) (string_drop (Z.to_nat a) s).
Proof.
  intros Hab. unfold js_substring, clamp_index, js_length.
  pose proof (string_length_drop (Z.to_nat a) s) as Hdrop.
  set (L := Z.of_nat (String.length s)) in *.
  destruct (decide (L ≤ a)) as [HLa|HLa].
  - replace (Z.to_nat (Z.max (Z.max 0 (Z.min a L)) (Z.max 0 (Z.min b L))
                       - Z.min (Z.max 0 (Z.min a L)) (Z.max 0 (Z.min b L))))
      with 0%nat by lia.
    rewrite string_take_0.
    rewrite (string_drop_all (Z.to_nat a)) by lia.
    by rewrite string_take_all by (simpl; lia).
  - replace (Z.to_nat (Z.min (Z.max 0 (Z.min a L)) (Z.max 0 (Z.min b L))))
      with (Z.to_nat a) by lia.
    destruct (decide (L ≤ b)) as [HLb|HLb].
    + rewrite !string_take_all; [done|lia..].
    + f_equal. lia.
Qed.

Lemma js_substring_nonpos s a b : a ≤ 0 → b ≤ 0 → js_substring s a b = "".
Proof.
  intros Ha Hb. unfold js_substring, clamp_index, js_length.
  replace (Z.to_nat _) with 0%nat by lia. apply string_take_0.
Qed.

Lemma js_substring_whole s b : js_length s ≤ b → js_substring s 0 b = s.
Proof.
  unfold js_length. intros Hb. rewrite js_substring_ordered by lia.
  simpl. apply string_take_all. lia.
Qed.

Lemma js_substring_glue s a size :
  (0 ≤ size ∧ 0 ≤ a) ∨ (size < 0 ∧ a ≤ 0) →
  js_substring s 0 a +:+ js_substring s a (a + size) = js_substring s 0 (a + size).
Proof.
  intros [[Hs Ha]|[Hs Ha]].
  - rewrite !js_substring_ordered by lia. simpl.
    rewrite !Nat.sub_0_r, string_take_glue. f_equal. lia.
  - by rewrite !js_substring_nonpos by lia.
Qed.

Lemma js_substring_length s a b :
  0 ≤ a ≤ b →
  js_length (js_substring s a b) = Z.min b (js_length s) - Z.min a (js_length s).
Proof.
  intros Hab. rewrite js_substring_ordered by done. unfold js_length.
  rewrite string_length_take, string_length_drop. lia.
Qed.

Lemma js_slice_length {A} (l : list A) a size :
  0 ≤ a → 0 ≤ size → Z.of_nat (length (js_slice l a (a + size))) ≤ size.
Proof.
  intros Ha Hs. unfold js_slice, slice_index.
  replace (a <? 0) with false by (symmetry; apply Z.ltb_ge; lia).
  replace (a + size <? 0) with false by (symmetry; apply Z.ltb_ge; lia).
  rewrite length_take. lia.
Qed.

Lemma foldr_append_snoc (l : list string) s :
  foldr String.append "" (l ++ [s]) = foldr String.append "" l +:+ s.
Proof.
  induction l as [|x l IH]; simpl.
  - by rewrite string_app_nil_r.
  - by rewrite IH, string_app_assoc.
Qed.

Lemma fold_left_append (l : list string) s :
  fold_left String.append l s = s +:+ foldr String.append "" l.
Proof.
  revert s. induction l as [|x l IH]; intros s; simpl.
  - by rewrite string_app_nil_r.
  - by rewrite IH, string_app_assoc.
Qed.

Lemma fold_left_app_concat {A} (l : list (list A)) (a : list A) :
  fold_left app l a = a ++ concat l.
Proof.
  revert a. induction l as [|x l IH]; intros a; simpl.
  - by rewrite app_nil_r.
  - by rewrite IH, app_assoc.
Qed.

(** ** Batches and their results *)

Lemma map_Ok_Forall2 {A B} (f : A → result B) (l : list A) (outs : list B) :
  map f l = map Ok outs → Forall2 (λ x o, f x = Ok o) l outs.
Proof.
  revert outs. induction l as [|x l IH]; intros [|o outs] Heq; simplify_eq/=.
  - constructor.
  - constructor; [done|]. by apply IH.
Qed.

Lemma Promise_all_Forall {A} (promises : list (result A)) :
  Forall (λ p, ∃ a, p = Ok a) promises → ∃ rs, Promise_all promises = Ok rs.
Proof.
  induction 1 as [|p ps [a ->] _ [rs IH]]; simpl; [by eexists|].
  rewrite IH. simpl. by eexists.
Qed.

Section BatchResultFacts.
Context {Item : Type}.
Variable MAX_PROMISES total size : Z.
Variable batchAt : Z → Z → Item.
Variable call : Item → result RedactorOutput.

Local Abbreviation nthBatch := (nthBatch size batchAt).
Local Abbreviation batched := (batched total size batchAt call).

Lemma batchLoop_batched iterations :
  let run := batchLoop MAX_PROMISES total size batchAt call iterations
               (mkBatchState [] 0 [] []) in
  (∃ k, batched k (snd run)) ∧
  (fst run = Returned () → total ≤ batchStartIndex (snd run)).
Proof.
  apply (batchLoop_rule MAX_PROMISES total size batchAt call
    (λ st, ∃ k, batched k st)
    (λ out st, (∃ k, batched k st) ∧
               (out = Returned () → total ≤ batchStartIndex st))).
  - intros st Hk Hle. done.
  - intros st Hk Hlt. split; [done|]. intros [=].
  - intros st [k (Hstart & Hdisp & Hlt & Hres)] Hcont. cbv zeta.
    assert (batched (S k)
              (mkBatchState
                 (batchPromises st
                    ++ [call (batchAt (batchStartIndex st) (batchStartIndex st + size))])
                 (batchStartIndex st + size) (batchResults st)
                 (trace st
                    ++ [EvCall (batchAt (batchStartIndex st) (batchStartIndex st + size))])))
      as Hpush.
    { unfold batched. cbn [batchStartIndex trace batchResults batchPromises].
      rewrite dispatched_call. split; [lia|]. split; [|split].
      - rewrite seq_S, map_app, Hdisp. simpl. unfold nthBatch. by rewrite Hstart.
      - intros i Hi. destruct (decide (i = k)) as [->|Hne]; [lia|]. apply Hlt. lia.
      - rewrite map_app, Hres. simpl. by rewrite app_assoc. }
    destruct Hpush as (Hstart' & Hdisp' & Hlt' & Hres'). simpl in *.
    destruct (MAX_PROMISES <=? _).
    + destruct (Promise_all _) as [rs|e] eqn:Hall.
      * exists (S k). unfold batched. simpl. rewrite dispatched_await.
        split; [done|]. split; [done|]. split; [done|].
        apply Promise_all_Ok in Hall. rewrite Hres', Hall.
        by rewrite app_nil_r, map_app.
      * split; [|intros [=]]. by exists (S k).
    + by exists (S k).
  - exists 0%nat. unfold batched. simpl. split; [lia|]. split; [done|].
    split; [lia|done].
Qed.

(** The batches issued by a run, whatever its outcome. *)
Lemma runBatches_dispatched iterations :
  ∃ k, dispatched (snd (runBatches MAX_PROMISES total size batchAt call iterations))
       = map nthBatch (seq 0 k) ∧
       (∀ i, (i < k)%nat → Z.of_nat i * size < total).
Proof.
  unfold runBatches. cbv zeta.
  destruct (batchLoop_batched iterations) as [[k (_ & Hdisp & Hlt & _)] _].
  exists k. split; [|done].
  destruct (fst (batchLoop _ _ _ _ _ _ _)) as [[]|e|]; simpl; [|done..].
  destruct (Promise_all _); simpl; [by rewrite dispatched_await|done].
Qed.

(** A run that returns has issued the batches up to the end of the
    content, every call has returned, and the result is the merge of
    the outputs in batch order. *)
Lemma runBatches_returned iterations r tr :
  runBatches MAX_PROMISES total size batchAt call iterations = (Returned r, tr) →
  ∃ k outs,
    dispatched tr = map nthBatch (seq 0 k) ∧
    (∀ i, (i < k)%nat → Z.of_nat i * size < total) ∧
    total ≤ Z.of_nat k * size ∧
    Forall2 (λ item o, call item = Ok o) (dispatched tr) outs ∧
    mergeBatchResults outs = Ok r.
Proof.
  unfold runBatches. cbv zeta.
  destruct (batchLoop_batched iterations) as [[k (Hstart & Hdisp & Hlt & Hres)] Hend].
  destruct (fst (batchLoop _ _ _ _ _ _ _)) as [[]|e|]; simpl; [|done..].
  destruct (Promise_all _) as [rs|e] eqn:Hall; [|done].
  intros [= Hmerge <-]. apply Promise_all_Ok in Hall.
  exists k, (batchResults (snd (batchLoop MAX_PROMISES total size batchAt call
                                 iterations (mkBatchState [] 0 [] []))) ++ rs).
  rewrite dispatched_await. split; [done|]. split; [done|]. split.
  { rewrite <- Hstart. by apply Hend. }
  split.
  - apply map_Ok_Forall2. by rewrite Hres, Hall, map_app.
  - unfold settle in Hmerge. by destruct (mergeBatchResults _); simplify_eq.
Qed.

(** With a positive batch size, a non-empty content and calls that all
    return, the run returns as soon as the iterations times the size
    cover the content. *)
Lemma runBatches_returns_within iterations :
  0 < size → 0 < total → total ≤ Z.of_nat iterations * size →
  (∀ item, ∃ o, call item = Ok o) →
  ∃ r tr, runBatches MAX_PROMISES total size batchAt call iterations = (Returned r, tr).
Proof.
  intros Hsize Htotal Hn Hcall.
  pose proof (batchLoop_ends_within MAX_PROMISES total size batchAt call iterations
                (mkBatchState [] 0 [] []) Hsize) as Hends.
  assert ((∀ e, fst (batchLoop MAX_PROMISES total size batchAt call iterations
                       (mkBatchState [] 0 [] [])) ≠ Thrown e) ∧
          Forall (λ p, ∃ a, p = Ok a)
            (batchPromises (snd (batchLoop MAX_PROMISES total size batchAt call
                                   iterations (mkBatchState [] 0 [] [])))))
    as [Hthrown Hpending].
  { apply (batchLoop_rule MAX_PROMISES total size batchAt call
      (λ st, Forall (λ p, ∃ a, p = Ok a) (batchPromises st))
      (λ out st, (∀ e, out ≠ Thrown e) ∧
                 Forall (λ p, ∃ a, p = Ok a) (batchPromises st))).
    - done.
    - done.
    - intros st Hst _. cbv zeta.
      assert (Forall (λ p, ∃ a, p = Ok a)
                (batchPromises st
                   ++ [call (batchAt (batchStartIndex st) (batchStartIndex st + size))]))
        as Hst'.
      { apply Forall_app. split; [done|]. constructor; [apply Hcall|constructor]. }
      destruct (MAX_PROMISES <=? _); [|done].
      destruct (Promise_all_Forall _ Hst') as [rs ->]. simpl. constructor.
    - simpl. constructor. }
  destruct (batchLoop_batched iterations) as [[k (Hstart & Hdisp & Hlt & Hres)] Hend].
  unfold runBatches. cbv zeta.
  destruct (fst (batchLoop _ _ _ _ _ _ _)) as [[]|e|] eqn:Hexit; simpl.
  - destruct (Promise_all_Forall _ Hpending) as [rs Hall]. rewrite Hall.
    apply Promise_all_Ok in Hall.
    assert (k ≠ 0)%nat as Hk.
    { specialize (Hend eq_refl). intros ->. lia. }
    assert (batchResults (snd (batchLoop MAX_PROMISES total size batchAt call
              iterations (mkBatchState [] 0 [] []))) ++ rs ≠ []) as Hne.
    { intros Hnil. rewrite Hall, <- map_app, Hnil, Hdisp in Hres.
      destruct k; [done|]. by rewrite seq_S, !map_app in Hres;
        apply app_eq_nil in Hres as [_ ?]. }
    destruct (_ ++ rs) as [|o os]; [done|]. by eexists _, _.
  - by destruct (Hthrown e).
  - destruct Hends; [simpl; lia|done].
Qed.

(** In particular within [total] iterations. *)
Lemma runBatches_returns iterations :
  0 < size → 0 < total → total ≤ Z.of_nat iterations →
  (∀ item, ∃ o, call item = Ok o) →
  ∃ r tr, runBatches MAX_PROMISES total size batchAt call iterations = (Returned r, tr).
Proof.
  intros Hsize Htotal Hn Hcall. apply runBatches_returns_within; [done|done|nia|done].
Qed.
End BatchResultFacts.

(** ** The redactor *)

Lemma mergeBatchResults_Ok outs r :
  mergeBatchResults outs = Ok r →
  text r = foldr String.append "" (map text outs) ∧
  findings r = concat (map findings outs).
Proof.
  destruct outs as [|o os]; [done|].
  unfold mergeBatchResults. simpl. intros [= <-]. simpl.
  by rewrite fold_left_append, fold_left_app_concat.
Qed.

Lemma trunc_halves_nonneg h : 0 ≤ h → trunc_halves h = h / 2.
Proof. intros Hh. unfold trunc_halves. by apply Z.quot_div_nonneg. Qed.

Lemma trunc_halves_nonpos h : h ≤ 0 → trunc_halves h ≤ 0.
Proof. intros Hh. unfold trunc_halves. by apply Z.quot_le_upper_bound; lia. Qed.

Lemma trunc_halves_whole n : trunc_halves (in_halves n) = n.
Proof. unfold trunc_halves, in_halves. rewrite Z.mul_comm. by apply Z.quot_mul. Qed.

(** The substrings between truncated indices glue like the substrings
    between whole indices. *)
Lemma js_substring_glue_halves s a size :
  (0 ≤ size ∧ 0 ≤ a) ∨ (size < 0 ∧ a ≤ 0) →
  js_substring s 0 (trunc_halves a)
    +:+ js_substring s (trunc_halves a) (trunc_halves (a + size))
  = js_substring s 0 (trunc_halves (a + size)).
Proof.
  intros [[Hs Ha]|[Hs Ha]].
  - rewrite !trunc_halves_nonneg by lia.
    assert (0 ≤ a / 2) by (apply Z.div_pos; lia).
    assert (a / 2 ≤ (a + size) / 2) by (apply Z.div_le_mono; lia).
    replace ((a + size) / 2) with (a / 2 + ((a + size) / 2 - a / 2)) by lia.
    apply js_substring_glue. left. lia.
  - pose proof (trunc_halves_nonpos a Ha).
    pose proof (trunc_halves_nonpos (a + size) ltac:(lia)).
    by rewrite !js_substring_nonpos by lia.
Qed.

Lemma substring_batches_concat s size k :
  foldr String.append ""
    (map (nthBatch size (λ a b, js_substring s (trunc_halves a) (trunc_halves b)))
       (seq 0 k))
  = js_substring s 0 (trunc_halves (Z.of_nat k * size)).
Proof.
  induction k as [|k IH].
  - simpl. by rewrite js_substring_nonpos.
  - rewrite seq_S, map_app. cbn [map]. rewrite foldr_append_snoc, IH.
    unfold nthBatch. simpl.
    rewrite js_substring_glue_halves by nia. do 2 f_equal. lia.
Qed.

Lemma runBatches_more_iterations {Item} MAX_PROMISES total size
    (batchAt : Z → Z → Item) call iterations extra :
  fst (runBatches MAX_PROMISES total size batchAt call iterations) ≠ Running →
  runBatches MAX_PROMISES total size batchAt call (iterations + extra)
  = runBatches MAX_PROMISES total size batchAt call iterations.
Proof.
  intros Hrun. unfold runBatches in *. cbv zeta in *.
  rewrite batchLoop_more_iterations; [done|].
  intros Hloop. rewrite Hloop in Hrun. done.
Qed.

(** The number of loop iterations granted to a run does not matter once
    it suffices. *)
Lemma redactAsync_more_iterations MAX_CONTENT_LENGTH MAX_PROMISES inspectContent opts
    iterations extra textToRedact filter :
  fst (redactAsync MAX_CONTENT_LENGTH MAX_PROMISES inspectContent opts
         iterations textToRedact filter) ≠ Running →
  redactAsync MAX_CONTENT_LENGTH MAX_PROMISES inspectContent opts
    (iterations + extra) textToRedact filter
  = redactAsync MAX_CONTENT_LENGTH MAX_PROMISES inspectContent opts
      iterations textToRedact filter.
Proof.
  unfold redactAsync. destruct (_ && _); [|done].
  apply runBatches_more_iterations.
Qed.

Lemma inspectStructured_more_iterations MAX_PROMISES inspectTable opts
    iterations extra headers rows filter :
  fst (inspectStructured MAX_PROMISES inspectTable opts iterations headers rows filter)
    ≠ Running →
  inspectStructured MAX_PROMISES inspectTable opts (iterations + extra) headers rows filter
  = inspectStructured MAX_PROMISES inspectTable opts iterations headers rows filter.
Proof.
  unfold inspectStructured. cbv zeta.
  destruct (maxRowsPerBatch headers) as [m|]; [|done].
  destruct (m <? _); [|done].
  apply runBatches_more_iterations.
Qed.

Section RedactorFacts.
Variable MAX_CONTENT_LENGTH : Z.
Variable MAX_PROMISES : Z.
Variable inspectContent : InspectConfig → string → list Finding.
Variable inspectTable :
  InspectConfig → list string → list (list string) → option (list Finding).
Variable opts : HDXGoogleDLPRedactorOptions.

Local Abbreviation doRedact := (doRedactAsync inspectContent opts).
Local Abbreviation redact :=
  (redactAsync MAX_CONTENT_LENGTH MAX_PROMISES inspectContent opts).
Local Abbreviation batchSize := (maxContentSize MAX_CONTENT_LENGTH opts).

(** What a returning call of [doRedactAsync] reports. *)
Lemma doRedactAsync_Ok textToRedact filter replaceText o :
  doRedact textToRedact filter replaceText = Ok o →
  ∃ kept,
    js_filter (keepFinding filter) (inspectContent (getInspectConfig opts) textToRedact)
      = Ok kept ∧
    findings o ≡ₚ kept ∧
    (replaceText = false → findings o = kept ∧ text o = textToRedact).
Proof.
  unfold doRedactAsync. cbv zeta.
  destruct (inspectContent (getInspectConfig opts) textToRedact) as [|f fs] eqn:Hfs.
  - simpl. intros [= <-]. exists []. simpl. done.
  - replace (0 <? Z.of_nat (length (f :: fs))) with true
      by (symmetry; apply Z.ltb_lt; simpl; lia).
    destruct (js_filter (keepFinding filter) (f :: fs)) as [kept|e]; [|done].
    exists kept. split; [done|].
    destruct replaceText; simpl in *; simplify_eq/=.
    + split; [apply removeOverlappingFindings_st_fst|done].
    + done.
Qed.

Lemma doRedactAsync_object textToRedact entries :
  ∃ o, doRedact textToRedact (PolicyObject entries) false = Ok o.
Proof.
  unfold doRedactAsync. cbv zeta.
  destruct (0 <? _); [|by eexists].
  rewrite js_filter_object. by eexists.
Qed.

(** The texts of the outputs of the batch calls are the batches. *)
Lemma batch_texts filter (items : list string) outs :
  Forall2 (λ item o, doRedact item filter false = Ok o) items outs →
  map text outs = items.
Proof.
  induction 1 as [|item o items outs Hcall _ IH]; [done|].
  simpl. rewrite IH. f_equal.
  by destruct (doRedactAsync_Ok _ _ _ _ Hcall) as (kept & _ & _ & [_ ->]).
Qed.

Lemma redactAsync_returned iterations textToRedact filter r tr :
  redact iterations textToRedact filter = (Returned r, tr) →
  text r = textToRedact.
Proof.
  unfold redactAsync. destruct (_ && _).
  - intros Hrun. apply runBatches_returned in Hrun
      as (k & outs & Hdisp & Hlt & Hend & Hcalls & Hmerge).
    apply mergeBatchResults_Ok in Hmerge as [-> _].
    rewrite (batch_texts _ _ _ Hcalls), Hdisp, substring_batches_concat.
    unfold in_halves in *.
    destruct (decide (0 ≤ batchSize)) as [Hs|Hs].
    + apply js_substring_whole. rewrite trunc_halves_nonneg by nia.
      apply Z.div_le_lower_bound; lia.
    + assert (js_length textToRedact = 0) as Hlen.
      { unfold js_length in *. nia. }
      destruct textToRedact; [|done]. apply js_substring_nonpos; [done|].
      apply trunc_halves_nonpos. nia.
  - intros [= Hcall <-]. unfold settle in Hcall.
    destruct (doRedact _ _ _) as [o|e] eqn:Ho; simplify_eq.
    by destruct (doRedactAsync_Ok _ _ _ _ Ho) as (kept & _ & _ & [_ ->]).
Qed.

(** With a positive batch size and an object policy the run returns as
    soon as the iterations times the size cover the text. *)
Lemma redactAsync_returns_within iterations textToRedact entries :
  0 < batchSize →
  in_halves (js_length textToRedact) ≤ Z.of_nat iterations * batchSize →
  ∃ r tr, redact iterations textToRedact (PolicyObject entries) = (Returned r, tr).
Proof.
  intros Hsize Hn. unfold redactAsync.
  case_eq ((batchSize <? in_halves (js_length textToRedact))
           && negb (disableAutoBatchWhenContentSizeExceedsLimit opts)); intros Hb.
  - apply andb_true_iff in Hb as [Hlt%Z.ltb_lt _].
    apply runBatches_returns_within; [done|lia|done|].
    intros item. apply doRedactAsync_object.
  - destruct (doRedactAsync_object textToRedact entries) as [o ->]. by eexists _, _.
Qed.

(** A batch size of at least one character: within as many iterations
    as the text has characters. *)
Lemma redactAsync_returns textToRedact entries :
  2 ≤ batchSize →
  ∃ r tr, redact (String.length textToRedact) textToRedact (PolicyObject entries)
          = (Returned r, tr).
Proof.
  intros Hsize. apply redactAsync_returns_within; [lia|].
  unfold in_halves, js_length. nia.
Qed.
End RedactorFacts.




(** C10. The text of the result of [redactAsync] is the input string:
    every result that a run returns has it, on the single-call path and
    on the batched path; and with an object policy and a batch size of
    at least one character a run of as many loop iterations as the
    input has characters does return (with a positive batch size
    below one character, of twice as many). *)
Theorem redactAsync_text_unchanged (MAX_CONTENT_LENGTH MAX_PROMISES : Z)
    (inspectContent : InspectConfig → string → list Finding)
    (opts : HDXGoogleDLPRedactorOptions) (textToRedact : string) :
  (∀ iterations filter r tr,
     redactAsync MAX_CONTENT_LENGTH MAX_PROMISES inspectContent opts
       iterations textToRedact filter = (Returned r, tr) →
     text r = textToRedact) ∧
  (∀ entries,
     2 ≤ maxContentSize MAX_CONTENT_LENGTH opts →
     ∃ r tr,
       redactAsync MAX_CONTENT_LENGTH MAX_PROMISES inspectContent opts
         (String.length textToRedact) textToRedact (PolicyObject entries)
       = (Returned r, tr) ∧
       text r = textToRedact) ∧
  (∀ entries,
     0 < maxContentSize MAX_CONTENT_LENGTH opts →
     ∃ r tr,
       redactAsync MAX_CONTENT_LENGTH MAX_PROMISES inspectContent opts
         (2 * String.length textToRedact) textToRedact (PolicyObject entries)
       = (Returned r, tr) ∧
       text r = textToRedact).
Proof.
  split; [|split].
  - intros iterations filter r tr. apply redactAsync_returned.
  - intros entries Hsize.
    destruct (redactAsync_returns MAX_CONTENT_LENGTH MAX_PROMISES inspectContent opts
                textToRedact entries Hsize) as (r & tr & Hrun).
    exists r, tr. split; [done|]. by eapply redactAsync_returned.
  - intros entries Hsize.
    destruct (redactAsync_returns_within MAX_CONTENT_LENGTH MAX_PROMISES inspectContent
                opts (2 * String.length textToRedact) textToRedact entries Hsize)
      as (r & tr & Hrun).
    { unfold in_halves, js_length. nia. }
    exists r, tr. split; [done|]. by eapply redactAsync_returned.
Qed.

Lemma lookup_map_seq {A} (f : nat → A) k i x :
  map f (seq 0 k) !! i = Some x ↔ x = f i ∧ (i < k)%nat.
Proof.
  change (map f (seq 0 k)) with (f <$> seq 0 k).
  rewrite list_lookup_fmap. destruct (seq 0 k !! i) as [j|] eqn:Hj; simpl.
  - apply lookup_seq in Hj as [-> Hlt]. simpl.
    split; [by intros [= <-]|by intros [-> _]].
  - split; [done|]. intros [_ Hlt].
    by rewrite lookup_seq_lt in Hj.
Qed.

(** The batches of a batched run that returns. *)
Lemma redactAsync_batches (MAX_CONTENT_LENGTH MAX_PROMISES : Z)
    (inspectContent : InspectConfig → string → list Finding)
    (opts : HDXGoogleDLPRedactorOptions) (iterations : nat) (textToRedact : string)
    (entries : gmap string Z) r tr :
  0 < maxContentSize MAX_CONTENT_LENGTH opts →
  maxContentSize MAX_CONTENT_LENGTH opts < in_halves (js_length textToRedact) →
  disableAutoBatchWhenContentSizeExceedsLimit opts = false →
  redactAsync MAX_CONTENT_LENGTH MAX_PROMISES inspectContent opts
    iterations textToRedact (PolicyObject entries) = (Returned r, tr) →
  ∃ outs,
    (∀ (i : nat) batchText,
       dispatched tr !! i = Some batchText →
       batchText = js_substring textToRedact
                     (trunc_halves (Z.of_nat i * maxContentSize MAX_CONTENT_LENGTH opts))
                     (trunc_halves (Z.of_nat i * maxContentSize MAX_CONTENT_LENGTH opts
                                    + maxContentSize MAX_CONTENT_LENGTH opts)) ∧
       js_length batchText ≤ (maxContentSize MAX_CONTENT_LENGTH opts + 1) / 2 ∧
       (2 ≤ maxContentSize MAX_CONTENT_LENGTH opts → 0 < js_length batchText) ∧
       ((S i < length (dispatched tr))%nat →
        maxContentSize MAX_CONTENT_LENGTH opts / 2 ≤ js_length batchText)) ∧
    Z.of_nat (length (dispatched tr))
      = (in_halves (js_length textToRedact) + maxContentSize MAX_CONTENT_LENGTH opts - 1)
          / maxContentSize MAX_CONTENT_LENGTH opts ∧
    Forall2 (λ batchText out,
               doRedactAsync inspectContent opts batchText (PolicyObject entries) false
               = Ok out)
            (dispatched tr) outs ∧
    foldr String.append "" (map text outs) = textToRedact ∧
    text r = textToRedact.
Proof.
  intros Hsize Hlen Hauto Hrun.
  set (size := maxContentSize MAX_CONTENT_LENGTH opts) in *.
  pose proof (redactAsync_returned _ _ _ _ _ _ _ _ _ Hrun) as Htext.
  pose proof Hrun as Hbatches.
  unfold redactAsync in Hbatches. fold size in Hbatches.
  replace (size <? in_halves (js_length textToRedact)) with true in Hbatches
    by (symmetry; by apply Z.ltb_lt).
  rewrite Hauto in Hbatches. simpl in Hbatches.
  apply runBatches_returned in Hbatches
    as (k & outs & Hdisp & Hlt & Hend & Hcalls & Hmerge).
  unfold in_halves in *.
  exists outs. split; [|split; [|split; [|split]]].
  - rewrite Hdisp, length_map, length_seq.
    intros i batchText [-> Hi]%lookup_map_seq. unfold nthBatch.
    split; [done|]. pose proof (Hlt i Hi) as Hstart.
    assert (0 ≤ Z.of_nat i * size) as Hpos by nia.
    rewrite !trunc_halves_nonneg by lia.
    set (x := Z.of_nat i * size) in *.
    rewrite js_substring_length
      by (split; [apply Z.div_pos; lia|apply Z.div_le_mono; lia]).
    split; [|split].
    + Z.to_euclidean_division_equations. lia.
    + intros Hwhole. Z.to_euclidean_division_equations. lia.
    + intros HSi. pose proof (Hlt (S i) HSi) as Hnext.
      replace (Z.of_nat (S i) * size) with (x + size) in Hnext by (subst x; lia).
      Z.to_euclidean_division_equations. lia.
  - rewrite Hdisp, length_map, length_seq.
    assert (k ≠ 0)%nat as Hk by (intros ->; lia).
    pose proof (Hlt (k - 1)%nat ltac:(lia)) as Hlast.
    apply Z.div_unique
      with (r := 2 * js_length textToRedact + size - 1 - Z.of_nat k * size); nia.
  - done.
  - rewrite (batch_texts _ _ _ _ _ Hcalls), Hdisp, substring_batches_concat.
    apply js_substring_whole. rewrite trunc_halves_nonneg by nia.
    apply Z.div_le_lower_bound; lia.
  - done.
Qed.

(** C4, as amended. With a positive batch size, whole or half (the
    default is the exact half of [MAX_CONTENT_LENGTH]), that the length
    of the content exceeds, auto-batching enabled and an object policy
    (no substitution is ever requested by [redactAsync]): the run
    returns; the content is cut into the consecutive substrings between
    the truncated multiples of the size, each of at most the size
    rounded up and each but the last of at least the size rounded down;
    their number is the ceiling of the length over the size; and the
    texts of the outputs of the batch calls, appended in batch order,
    are the original content. When the size is whole, the substrings
    have exactly that many characters, the last one possibly shorter
    and none empty. *)
Theorem redactAsync_batch_reconstruction (MAX_CONTENT_LENGTH MAX_PROMISES : Z)
    (inspectContent : InspectConfig → string → list Finding)
    (opts : HDXGoogleDLPRedactorOptions) (textToRedact : string)
    (entries : gmap string Z) :
  0 < maxContentSize MAX_CONTENT_LENGTH opts →
  maxContentSize MAX_CONTENT_LENGTH opts < in_halves (js_length textToRedact) →
  disableAutoBatchWhenContentSizeExceedsLimit opts = false →
  batch_reconstruction MAX_CONTENT_LENGTH MAX_PROMISES inspectContent opts
    textToRedact entries ∧
  (Z.even (maxContentSize MAX_CONTENT_LENGTH opts) = true →
   whole_batch_reconstruction MAX_CONTENT_LENGTH MAX_PROMISES inspectContent opts
     textToRedact entries).
Proof.
  intros Hsize Hlen Hauto. split.
  - unfold batch_reconstruction. cbv zeta.
    destruct (redactAsync_returns_within MAX_CONTENT_LENGTH MAX_PROMISES inspectContent
                opts (2 * String.length textToRedact) textToRedact entries Hsize)
      as (r & tr & Hrun).
    { unfold in_halves, js_length. nia. }
    destruct (redactAsync_batches _ _ _ _ _ _ _ _ _ Hsize Hlen Hauto Hrun)
      as (outs & Hbatches).
    by exists r, tr, outs.
  - intros Heven. unfold whole_batch_reconstruction. cbv zeta.
    apply Z.even_spec in Heven as [size Heven].
    assert (2 ≤ maxContentSize MAX_CONTENT_LENGTH opts) as Hwhole by lia.
    destruct (redactAsync_returns MAX_CONTENT_LENGTH MAX_PROMISES inspectContent opts
                textToRedact entries Hwhole) as (r & tr & Hrun).
    destruct (redactAsync_batches _ _ _ _ _ _ _ _ _ Hsize Hlen Hauto Hrun)
      as (outs & Hbatches & Hcount & Hcalls & Hcat & Htext).
    unfold in_halves in *. rewrite Heven in *.
    replace (2 * size / 2) with size in * by (rewrite Z.mul_comm, Z.div_mul; lia).
    exists r, tr, outs. split; [done|]. split; [|split; [|done]].
    + intros i batchText Hi.
      destruct (Hbatches i batchText Hi) as (Hbatch & Hmax & Hmin & Hfull).
      replace (Z.of_nat i * (2 * size)) with (in_halves (Z.of_nat i * size))
        in Hbatch by (unfold in_halves; lia).
      replace (in_halves (Z.of_nat i * size) + 2 * size)
        with (in_halves (Z.of_nat i * size + size)) in Hbatch
        by (unfold in_halves; lia).
      rewrite !trunc_halves_whole in Hbatch.
      assert ((2 * size + 1) / 2 = size) as Hup
        by (Z.to_euclidean_division_equations; lia).
      rewrite Hup in Hmax.
      split; [done|]. split; [split; [apply Hmin; lia|done]|].
      intros HSi. specialize (Hfull HSi). lia.
    + rewrite Hcount. symmetry.
      pose proof (Z.div_mod (js_length textToRedact + size - 1) size ltac:(lia))
        as Hdiv.
      pose proof (Z.mod_pos_bound (js_length textToRedact + size - 1) size ltac:(lia))
        as Hmod.
      set (q := (js_length textToRedact + size - 1) / size) in *.
      set (m := (js_length textToRedact + size - 1) mod size) in *.
      apply Z.div_unique with (r := 2 * m + 1); [lia|nia].
Qed.

(** The sentence of the worked example with [MAX_CONTENT_LENGTH] seven:
    batches of three and a half characters. *)
Lemma redactAsync_batch_reconstruction_witness :
  batch_reconstruction 7 5 exInspectContent exOptions exText ∅ ∧
  (Z.even (maxContentSize 7 exOptions) = true →
   whole_batch_reconstruction 7 5 exInspectContent exOptions exText ∅).
Proof.
  apply (redactAsync_batch_reconstruction 7 5 exInspectContent exOptions exText ∅).
  - by vm_compute.
  - by vm_compute.
  - reflexivity.
Defined.

(** C4, counterexample. With [MAX_CONTENT_LENGTH] seven the batch size
    is three and a half: the sentence of the worked example is cut into
    slices of 3, 4, 3, 4, 3 and 1 characters, and no slice has exactly
    the batch size. *)
Lemma batch_reconstruction_counterexample :
  maxContentSize 7 exOptions = 7 ∧
  dispatched (snd (redactAsync 7 5 exInspectContent exOptions 6 exText (PolicyObject ∅)))
    = ["My "; "name"; " is"; " Joh"; "n D"; "."] ∧
  ¬ batch_slices_as_specified.
Proof.
  split; [by vm_compute|]. split; [by vm_compute|].
  intros H.
  pose proof (H 7 5 exInspectContent exOptions 6%nat exText ∅
                (mkOutput ["PERSON_NAME"; "FIRST_NAME"; "LAST_NAME"] 0 0 exText [])
                [EvCall "My "; EvCall "name"; EvCall " is"; EvCall " Joh";
                 EvCall "n D"; EvAwaitAll 5; EvCall "."; EvAwaitAll 1]
                ltac:(by vm_compute) ltac:(by vm_compute) eq_refl
                ltac:(by vm_compute) 0%nat "My " eq_refl ltac:(vm_compute; lia))
    as Hslice.
  by vm_compute in Hslice.
Qed.

(** The same run returns the sentence unchanged. *)
Lemma redactAsync_text_unchanged_witness :
  ∃ r tr,
    redactAsync 8 5 exInspectContent exOptions (String.length exText) exText
      (PolicyObject ∅) = (Returned r, tr) ∧
    text r = exText.
Proof.
  apply (proj1 (proj2 (redactAsync_text_unchanged 8 5 exInspectContent exOptions
                         exText)) ∅).
  by vm_compute.
Defined.

(** The default bound of five calls. *)
Lemma waves_bounded_witness :
  (∀ iterations textToRedact filter,
     wave_discipline 5
       (snd (redactAsync 524288 5 exInspectContent exOptions
               iterations textToRedact filter))) ∧
  (∀ iterations headers rows filter,
     wave_discipline 5
       (snd (inspectStructured 5 exInspectTable exOptions
               iterations headers rows filter))).
Proof.
  apply (waves_bounded 524288 5 exInspectContent exInspectTable exOptions). lia.
Defined.

(** ** The returned findings *)

Lemma Forall2_concat_findings filter inspectContent opts (items : list string)
    (outs : list RedactorOutput) :
  Forall2 (λ item o, doRedactAsync inspectContent opts item filter false = Ok o)
          items outs →
  Forall2 (λ item kept,
             js_filter (keepFinding filter) (inspectContent (getInspectConfig opts) item)
             = Ok kept)
          items (map findings outs).
Proof.
  induction 1 as [|item o items outs Hcall _ IH]; simpl; constructor; [|done].
  destruct (doRedactAsync_Ok _ _ _ _ _ _ Hcall) as (kept & Hkept & _ & Heq).
  destruct (Heq eq_refl) as [-> _]. done.
Qed.

(** C6, as amended. The finding set of a result is the filtered one and
    no more: a call of [doRedactAsync] returns the findings of the
    service that the filter callback keeps (in the order of the service
    when no substitution is requested, and a permutation of them
    otherwise); [redactAsync] returns, batch after batch, the findings
    that the callback keeps of those reported for the batch; under an
    object policy every returned finding passes the filter. The overlap
    resolver is not applied to the returned set. *)
Theorem returned_findings_post_filter (MAX_CONTENT_LENGTH MAX_PROMISES : Z)
    (inspectContent : InspectConfig → string → list Finding)
    (opts : HDXGoogleDLPRedactorOptions) :
  (∀ textToRedact filter replaceText o,
     doRedactAsync inspectContent opts textToRedact filter replaceText = Ok o →
     ∃ kept,
       js_filter (keepFinding filter)
         (inspectContent (getInspectConfig opts) textToRedact) = Ok kept ∧
       findings o ≡ₚ kept ∧
       (replaceText = false → findings o = kept)) ∧
  (∀ iterations textToRedact filter r tr,
     redactAsync MAX_CONTENT_LENGTH MAX_PROMISES inspectContent opts
       iterations textToRedact filter = (Returned r, tr) →
     ∃ kepts,
       Forall2 (λ item kept,
                  js_filter (keepFinding filter)
                    (inspectContent (getInspectConfig opts) item) = Ok kept)
               (dispatched tr) kepts ∧
       findings r = concat kepts) ∧
  (∀ iterations textToRedact entries r tr,
     redactAsync MAX_CONTENT_LENGTH MAX_PROMISES inspectContent opts
       iterations textToRedact (PolicyObject entries) = (Returned r, tr) →
     ∀ f, f ∈ findings r → keeps entries f = true).
Proof.
  assert (∀ iterations textToRedact filter r tr,
     redactAsync MAX_CONTENT_LENGTH MAX_PROMISES inspectContent opts
       iterations textToRedact filter = (Returned r, tr) →
     ∃ kepts,
       Forall2 (λ item kept,
                  js_filter (keepFinding filter)
                    (inspectContent (getInspectConfig opts) item) = Ok kept)
               (dispatched tr) kepts ∧
       findings r = concat kepts) as Hbatches.
  { intros iterations textToRedact filter r tr. unfold redactAsync.
    destruct (_ && _).
    - intros Hrun. apply runBatches_returned in Hrun
        as (k & outs & _ & _ & _ & Hcalls & Hmerge).
      apply mergeBatchResults_Ok in Hmerge as [_ ->].
      exists (map findings outs). split; [|done].
      by apply Forall2_concat_findings.
    - intros [= Hcall <-]. unfold settle in Hcall.
      destruct (doRedactAsync _ _ _ _ _) as [o|e] eqn:Ho; simplify_eq.
      destruct (doRedactAsync_Ok _ _ _ _ _ _ Ho) as (kept & Hkept & _ & Heq).
      destruct (Heq eq_refl) as [-> _].
      exists [kept]. simpl. rewrite app_nil_r. split; [|done].
      by repeat constructor. }
  split; [|split; [done|]].
  - intros textToRedact filter replaceText o Ho.
    destruct (doRedactAsync_Ok _ _ _ _ _ _ Ho) as (kept & Hkept & Hperm & Heq).
    exists kept. split; [done|]. split; [done|]. intros Hr. by destruct (Heq Hr).
  - intros iterations textToRedact entries r tr Hrun f Hf.
    destruct (Hbatches _ _ _ _ _ Hrun) as (kepts & Hkepts & Hr).
    rewrite Hr in Hf. apply list_elem_of_In, in_concat in Hf as (kept & Hkept & Hf).
    apply list_elem_of_In in Hkept, Hf.
    apply list_elem_of_lookup in Hkept as [i Hi].
    destruct (Forall2_lookup_r _ _ _ _ _ Hkepts Hi) as (item & _ & Hfilter).
    rewrite js_filter_object in Hfilter. simplify_eq.
    by apply list_elem_of_filter in Hf as [? _].
Qed.

(** A threshold on LAST_NAME: the two other findings of the worked
    example are returned. *)
Lemma returned_findings_post_filter_witness :
  ∃ kept,
    js_filter (keepFinding (PolicyObject {[ "LAST_NAME" := 4 ]}))
      (exInspectContent (getInspectConfig exOptions) exText) = Ok kept ∧
    [exA; exB] ≡ₚ kept ∧
    (false = false → [exA; exB] = kept).
Proof.
  apply (proj1 (returned_findings_post_filter 524288 5 exInspectContent exOptions)
           exText (PolicyObject {[ "LAST_NAME" := 4 ]}) false
           (mkOutput ["PERSON_NAME"; "FIRST_NAME"; "LAST_NAME"] 0 3 exText [exA; exB])).
  by vm_compute.
Defined.

(** C6, counterexample. With an empty policy the three findings of the
    worked example are returned as they are reported, the overlapping
    PERSON_NAME and FIRST_NAME among them. *)
Lemma result_post_resolve_counterexample :
  fst (redactAsync 524288 5 exInspectContent exOptions 0 exText (PolicyObject ∅))
    = Returned (mkOutput ["PERSON_NAME"; "FIRST_NAME"; "LAST_NAME"] 0 3 exText
                  [exA; exB; exC]) ∧
  overlaps exA exB ∧
  ¬ result_post_filter_post_resolve_as_specified.
Proof.
  split; [by vm_compute|]. split; [apply (bool_decide_unpack _); by vm_compute|].
  intros H.
  destruct (H 524288 5 exInspectContent exOptions 0%nat exText ∅
              (mkOutput ["PERSON_NAME"; "FIRST_NAME"; "LAST_NAME"] 0 3 exText
                 [exA; exB; exC]) [EvCall exText]) as [_ Hno].
  - by vm_compute.
  - apply (Hno 0%nat 1%nat exA exB); [done|done|done|].
    apply (bool_decide_unpack _). by vm_compute.
Qed.

(** ** Structured batching *)

Lemma runBatches_Running {Item} MAX_PROMISES total size (batchAt : Z → Z → Item)
    call iterations :
  fst (runBatches MAX_PROMISES total size batchAt call iterations) = Running →
  fst (batchLoop MAX_PROMISES total size batchAt call iterations
         (mkBatchState [] 0 [] [])) = Running.
Proof.
  unfold runBatches. cbv zeta.
  destruct (fst (batchLoop _ _ _ _ _ _ _)) as [[]|e|]; simpl; [|done..].
  destruct (Promise_all _); simpl; [|done].
  by destruct (mergeBatchResults _).
Qed.

Lemma maxRowsPerBatch_columns headers :
  1 ≤ Z.of_nat (length headers) →
  maxRowsPerBatch headers = Some (50000 / Z.of_nat (length headers) / 2 - 1).
Proof.
  intros Hcols. unfold maxRowsPerBatch. cbv zeta.
  by replace (Z.of_nat (length headers) =? 0) with false
    by (symmetry; apply Z.eqb_neq; lia).
Qed.

(** C8, as amended. For a table of [H] columns, [H] at least one, the
    maximum of rows per batch is [50000 / H / 2 - 1] with integer
    quotients, the integer part of [50000 / (2 H)] less one. When [H]
    is at most 25000 (a maximum that is not negative), every batch that
    a run issues, however long it is observed, carries the header list
    as given and at most that many rows. When [H] is at most 12500 (a
    positive maximum) a run leaves the loop within as many iterations
    as there are rows. *)
Theorem inspectStructured_batches (MAX_PROMISES : Z)
    (inspectTable : InspectConfig → list string → list (list string)
                    → option (list Finding))
    (opts : HDXGoogleDLPRedactorOptions) (headers : list string) :
  (1 ≤ Z.of_nat (length headers) →
     maxRowsPerBatch headers = Some (50000 / Z.of_nat (length headers) / 2 - 1) ∧
     50000 / Z.of_nat (length headers) / 2 = 50000 / (Z.of_nat (length headers) * 2)) ∧
  (1 ≤ Z.of_nat (length headers) ≤ 25000 →
     ∀ iterations rows filter batch,
       batch ∈ dispatched (snd (inspectStructured MAX_PROMISES inspectTable opts
                                  iterations headers rows filter)) →
       fst batch = headers ∧
       Z.of_nat (length (snd batch)) ≤ 50000 / Z.of_nat (length headers) / 2 - 1) ∧
  (1 ≤ Z.of_nat (length headers) ≤ 12500 →
     ∀ rows filter,
       fst (inspectStructured MAX_PROMISES inspectTable opts
              (length rows) headers rows filter) ≠ Running).
Proof.
  set (H := Z.of_nat (length headers)).
  split; [|split].
  - intros Hcols. split; [by apply maxRowsPerBatch_columns|].
    apply Z.div_div; lia.
  - intros [Hlo Hhi] iterations rows filter batch.
    assert (0 ≤ 50000 / H / 2 - 1) as Hmax.
    { assert (2 ≤ 50000 / H) by (apply Z.div_le_lower_bound; lia).
      assert (1 ≤ 50000 / H / 2) by (apply Z.div_le_lower_bound; lia). lia. }
    unfold inspectStructured. cbv zeta. rewrite maxRowsPerBatch_columns by done.
    fold H. case_eq (50000 / H / 2 - 1 <? Z.of_nat (length rows)); intros Hbatch.
    + destruct (runBatches_dispatched MAX_PROMISES (Z.of_nat (length rows))
                  (50000 / H / 2 - 1) (λ a b, (headers, js_slice rows a b))
                  (λ batch, doInspectStructured inspectTable opts
                              (fst batch) (snd batch) filter) iterations)
        as (k & -> & _).
      intros Hin. apply list_elem_of_In, in_map_iff in Hin as (i & <- & _).
      unfold nthBatch. simpl. split; [done|].
      apply js_slice_length; nia.
    + apply Z.ltb_ge in Hbatch. simpl.
      intros ->%list_elem_of_singleton. simpl. split; [done|lia].
  - intros [Hlo Hhi] rows filter.
    assert (1 ≤ 50000 / H / 2 - 1) as Hmax.
    { assert (4 ≤ 50000 / H) by (apply Z.div_le_lower_bound; lia).
      assert (2 ≤ 50000 / H / 2) by (apply Z.div_le_lower_bound; lia). lia. }
    unfold inspectStructured. cbv zeta. rewrite maxRowsPerBatch_columns by done.
    fold H. destruct (50000 / H / 2 - 1 <? Z.of_nat (length rows)).
    + intros Hrun%runBatches_Running. revert Hrun.
      apply batchLoop_ends; simpl; lia.
    + simpl. by destruct (doInspectStructured _ _ _ _ _).
Qed.

(** A table of two columns. *)
Lemma inspectStructured_batches_witness :
  maxRowsPerBatch ["name"; "email"] = Some (50000 / 2 / 2 - 1) ∧
  50000 / 2 / 2 = 50000 / (2 * 2).
Proof.
  apply (proj1 (inspectStructured_batches 5 exInspectTable exOptions ["name"; "email"])).
  simpl. lia.
Defined.

(** C8, counterexample. With 25001 columns the maximum is [-1]; the
    first batch of a table of two rows is [rows.slice(0, -1)], one row. *)
Lemma structured_batching_counterexample :
  maxRowsPerBatch exWideHeaders = Some (-1) ∧
  dispatched (snd (inspectStructured 5 exInspectTable exOptions 1 exWideHeaders
                     [["a"]; ["b"]] (PolicyObject ∅)))
    = [(exWideHeaders, [["a"]])] ∧
  ¬ structured_batching_as_specified.
Proof.
  assert (maxRowsPerBatch exWideHeaders = Some (-1)) as Hmax.
  { unfold maxRowsPerBatch, exWideHeaders. rewrite length_replicate.
    rewrite Z2Nat.id by lia. reflexivity. }
  assert (∀ headers, maxRowsPerBatch headers = Some (-1) →
            dispatched (snd (inspectStructured 5 exInspectTable exOptions 1 headers
                               [["a"]; ["b"]] (PolicyObject ∅)))
            = [(headers, [["a"]])]) as Hdisp.
  { intros headers Hh. unfold inspectStructured. rewrite Hh. reflexivity. }
  split; [done|]. split; [by apply Hdisp|].
  intros Hspec.
  destruct (Hspec 5 exInspectTable exOptions 1%nat exWideHeaders [["a"]; ["b"]]
              (PolicyObject ∅) (-1) (exWideHeaders, [["a"]]) Hmax) as (_ & _ & Hrows).
  - rewrite Hdisp by done. left.
  - simpl in Hrows. lia.
Qed.

(** ** Examples *)

(** A batched run on the sentence of the source's comment, with batches
    of four characters and waves of two calls. *)
Example redactAsync_example :
  redactAsync 8 2 exInspectContent exOptions 5 exText (PolicyObject ∅)
  = (Returned (mkOutput ["PERSON_NAME"; "FIRST_NAME"; "LAST_NAME"] 0 0 exText []),
     [EvCall "My n"; EvCall "ame "; EvAwaitAll 2;
      EvCall "is J"; EvCall "ohn "; EvAwaitAll 2;
      EvCall "D."; EvAwaitAll 1]).
Proof. by vm_compute. Qed.

(** The substitution branch on the same sentence: PERSON_NAME loses
    against FIRST_NAME, the two survivors are replaced by their labels,
    and the returned findings are the filtered ones, sorted by start. *)
Example doRedactAsync_substitution_example :
  doRedactAsync exInspectContent exOptions exText (PolicyObject ∅) true
  = Ok (mkOutput ["PERSON_NAME"; "FIRST_NAME"; "LAST_NAME"] 0 3
          "My name is FIRST_NAME LAST_NAME" [exA; exB; exC]).
Proof. by vm_compute. Qed.

(** A threshold on LAST_NAME drops the finding of rank 3 before the
    resolver sees it. *)
Example doRedactAsync_threshold_example :
  doRedactAsync (λ _ _, [exC; exB; exA]) exOptions exText
    (PolicyObject {[ "LAST_NAME" := 4 ]}) true
  = Ok (mkOutput ["PERSON_NAME"; "FIRST_NAME"; "LAST_NAME"] 0 3
          "My name is FIRST_NAME D." [exB; exA]).
Proof. by vm_compute. Qed.

(** * Further properties *)

(** ** The resolver: what it keeps *)

Lemma sweep_sublist previous rest : sweep previous rest `sublist_of` previous :: rest.
Proof.
  revert previous. induction rest as [|current rest IH]; intros previous; simpl.
  - done.
  - destruct (getFindingStart current <? getFindingEnd previous).
    + destruct (js_value_gt (likelihoodValue current) (likelihoodValue previous)).
      * apply sublist_cons, IH.
      * etrans; [apply IH|]. apply sublist_skip, sublist_cons. done.
    + apply sublist_skip, IH.
Qed.

Lemma sweep_nonempty previous rest : sweep previous rest ≠ [].
Proof.
  revert previous. induction rest as [|current rest IH]; intros previous; simpl.
  - done.
  - destruct (getFindingStart current <? getFindingEnd previous); [|done].
    destruct (js_value_gt (likelihoodValue current) (likelihoodValue previous)); apply IH.
Qed.

Lemma StronglySorted_sublist {A} (R : A → A → Prop) (l1 l2 : list A) :
  l1 `sublist_of` l2 → StronglySorted R l2 → StronglySorted R l1.
Proof.
  induction 1 as [|x l1 l2 Hsub IH|x l1 l2 Hsub IH]; intros Hs.
  - constructor.
  - inversion Hs as [|?? Hs' Hx]; subst. constructor; [by apply IH|].
    apply Forall_forall. intros y Hy.
    eapply Forall_forall; [exact Hx|]. by eapply elem_of_sublist.
  - inversion Hs; subst. by apply IH.
Qed.

(** X1. The resolver keeps a subsequence of its input as sorted by
    start: every kept finding is an input finding, none is repeated or
    invented, the order is ascending start; and it keeps at least one
    finding of every non-empty input. *)
Theorem removeOverlappingFindings_sublist (findings : list Finding) :
  removeOverlappingFindings findings `sublist_of` js_sort byStart findings ∧
  StronglySorted startsBefore (removeOverlappingFindings findings) ∧
  (length (removeOverlappingFindings findings) ≤ length findings)%nat ∧
  (removeOverlappingFindings findings = [] ↔ findings = []).
Proof.
  assert (removeOverlappingFindings findings `sublist_of` js_sort byStart findings) as Hsub.
  { rewrite removeOverlappingFindings_sweep.
    destruct (js_sort byStart findings); [done|apply sweep_sublist]. }
  split; [done|]. split; [|split].
  - eapply StronglySorted_sublist; [exact Hsub|apply js_sort_byStart_sorted].
  - rewrite <- (js_sort_length byStart findings). by apply sublist_length.
  - rewrite removeOverlappingFindings_sweep.
    pose proof (js_sort_length byStart findings) as Hlen.
    destruct (js_sort byStart findings) as [|first rest].
    + split; [|done]. intros _. by destruct findings.
    + split; [intros H; by apply sweep_nonempty in H|].
      intros ->. done.
Qed.

Lemma js_sort_byStart_id l :
  StronglySorted startsBefore l → js_sort byStart l = l.
Proof.
  induction 1 as [|x l Hl IH Hx]; [done|].
  simpl. rewrite IH. destruct l as [|y l]; [done|]. simpl.
  inversion Hx as [|?? Hxy _]; subst. unfold byStart, startsBefore in *.
  by replace (getFindingStart x - getFindingStart y <=? 0) with true
    by (symmetry; apply Z.leb_le; lia).
Qed.

Lemma sweep_disjoint_id previous rest :
  StronglySorted endsBefore (previous :: rest) → sweep previous rest = previous :: rest.
Proof.
  revert previous. induction rest as [|current rest IH]; intros previous Hs; [done|].
  inversion Hs as [|?? Hs' Hp]; subst. inversion Hp as [|?? Hpc _]; subst.
  simpl. unfold endsBefore in Hpc.
  replace (getFindingStart current <? getFindingEnd previous) with false
    by (symmetry; apply Z.ltb_ge; lia).
  by rewrite IH.
Qed.

Lemma removeOverlappingFindings_fixed findings :
  StronglySorted startsBefore findings →
  StronglySorted endsBefore findings →
  removeOverlappingFindings findings = findings.
Proof.
  intros Hstart Hend. rewrite removeOverlappingFindings_sweep, js_sort_byStart_id by done.
  destruct findings as [|first rest]; [done|]. by apply sweep_disjoint_id.
Qed.

(** X2. The resolver is idempotent, and its fixed points are the lists
    that are sorted by start and in which every finding ends at or
    before the start of the findings after it. *)
Theorem removeOverlappingFindings_idempotent (findings : list Finding) :
  removeOverlappingFindings (removeOverlappingFindings findings)
    = removeOverlappingFindings findings ∧
  (removeOverlappingFindings findings = findings ↔
   StronglySorted startsBefore findings ∧ StronglySorted endsBefore findings).
Proof.
  assert (StronglySorted startsBefore (removeOverlappingFindings findings)) as Hstart.
  { eapply (StronglySorted_sublist _ _ (js_sort byStart findings)).
    - rewrite removeOverlappingFindings_sweep.
      destruct (js_sort byStart findings); [done|apply sweep_sublist].
    - apply js_sort_byStart_sorted. }
  pose proof (removeOverlappingFindings_endsBefore findings) as Hend.
  split.
  - by apply removeOverlappingFindings_fixed.
  - split.
    + intros Heq. by rewrite Heq in Hstart, Hend.
    + intros [? ?]. by apply removeOverlappingFindings_fixed.
Qed.

Lemma chained_snoc members q current :
  chained members → q ∈ members →
  getFindingStart current < getFindingEnd q →
  chained (members ++ [current]).
Proof.
  intros Hch Hq Hlt i h Hi Hh.
  destruct (decide (i < length members)%nat) as [Hlen|Hlen].
  - rewrite lookup_app_l in Hh by done.
    destruct (Hch i h Hi Hh) as (j & q' & Hj & Hq' & Hlt').
    exists j, q'. split; [done|]. split; [|done].
    rewrite lookup_app_l by lia. done.
  - rewrite lookup_app_r in Hh by lia.
    destruct (i - length members)%nat as [|k] eqn:Hk; [|by destruct k].
    injection Hh as <-.
    apply list_elem_of_lookup in Hq as [j Hj].
    pose proof (lookup_lt_Some _ _ _ Hj).
    exists j, q. split; [lia|]. split; [|done].
    rewrite lookup_app_l by lia. done.
Qed.

Lemma chained_singleton f : chained [f].
Proof. intros i h Hi Hh. destruct i; [lia|by destruct i]. Qed.

Lemma sweep_groups rest : ∀ before previous after,
  Forall known_likelihood (previous :: rest) →
  StronglySorted startsBefore rest →
  group_dominated (mkGroup before previous after) →
  chained (before ++ previous :: after) →
  ∃ groups,
    (before ++ previous :: after) ++ rest = concat (map group_members groups) ∧
    sweep previous rest = map group_kept groups ∧
    Forall group_dominated groups ∧
    Forall (λ g, chained (group_members g)) groups ∧
    StronglySorted group_precedes groups.
Proof.
  induction rest as [|current rest IH]; intros before previous after Hknown Hsorted Hdom Hch.
  - exists [mkGroup before previous after]. simpl. unfold group_members; simpl.
    rewrite !app_nil_r. repeat split; try done.
    + by constructor.
    + by constructor.
    + repeat constructor.
  - inversion Hknown as [|?? [rp Hrp] Hknown']; subst.
    inversion Hknown' as [|?? [rc Hrc] Hknown'']; subst.
    inversion Hsorted as [|?? Hsorted' Hcur]; subst.
    destruct Hdom as [Hbefore Hafter]. simpl in Hbefore, Hafter.
    simpl. destruct (getFindingStart current <? getFindingEnd previous) eqn:Hov.
    + apply Z.ltb_lt in Hov. rewrite js_value_gt_rank by (left; by exists rc).
      rewrite Hrc, Hrp. simpl.
      destruct (rp <? rc) eqn:Hgt.
      * apply Z.ltb_lt in Hgt.
        destruct (IH (before ++ previous :: after) current []) as (groups & Hcat & Hsw & Hd & Hc & Hp).
        -- constructor; [by exists rc|done].
        -- done.
        -- split; simpl.
           ++ intros h Hh. apply elem_of_app in Hh as [Hh|Hh].
              ** destruct (Hbefore h Hh) as (rh & rp' & Hrh & Hrp' & Hlt).
                 exists rh, rc. repeat split; try done.
                 rewrite Hrp in Hrp'. injection Hrp' as <-. lia.
              ** apply elem_of_cons in Hh as [->|Hh].
                 --- exists rp, rc. done.
                 --- destruct (Hafter h Hh) as [(rh & rp' & Hrh & Hrp' & Hle) _].
                     exists rh, rc. repeat split; try done.
                     rewrite Hrp in Hrp'. injection Hrp' as <-. lia.
           ++ intros h Hh. by apply elem_of_nil in Hh.
        -- apply (chained_snoc _ previous); [done| |done].
           apply elem_of_app. right. apply elem_of_cons. by left.
        -- exists groups. rewrite <- Hcat, <- Hsw.
           repeat split; try done. by rewrite <- !app_assoc.
      * apply Z.ltb_ge in Hgt.
        destruct (IH before previous (after ++ [current])) as (groups & Hcat & Hsw & Hd & Hc & Hp).
        -- constructor; [by exists rp|done].
        -- done.
        -- split; simpl; [done|].
           intros h Hh. apply elem_of_app in Hh as [Hh|Hh]; [by apply Hafter|].
           apply elem_of_cons in Hh as [->|Hh]; [|by apply elem_of_nil in Hh].
           split; [|done]. exists rc, rp. done.
        -- replace (before ++ previous :: after ++ [current])
             with ((before ++ previous :: after) ++ [current])
             by (by rewrite <- app_assoc).
           apply (chained_snoc _ previous); [done| |done].
           apply elem_of_app. right. apply elem_of_cons. by left.
        -- exists groups. rewrite <- Hcat, <- Hsw.
           repeat split; try done.
           rewrite <- !app_assoc. simpl. by rewrite <- app_assoc.
    + apply Z.ltb_ge in Hov.
      destruct (IH [] current []) as (groups & Hcat & Hsw & Hd & Hc & Hp).
      * done.
      * done.
      * split; simpl; intros h Hh; by apply elem_of_nil in Hh.
      * apply chained_singleton.
      * exists (mkGroup before previous after :: groups). simpl.
        rewrite <- Hcat, <- Hsw. unfold group_members at 1. simpl.
        repeat split; try done.
        -- by constructor.
        -- by constructor.
        -- constructor; [done|]. apply Forall_forall. intros g Hg h Hh.
           simpl.
           assert (h ∈ current :: rest) as Hin.
           { change (current :: rest) with (([] ++ [current]) ++ rest).
             rewrite Hcat. apply list_elem_of_In, in_concat.
             exists (group_members g). split; [|by apply list_elem_of_In].
             apply in_map, list_elem_of_In. done. }
           apply elem_of_cons in Hin as [->|Hin]; [done|].
           eapply Forall_forall in Hcur; [|exact Hin].
           unfold startsBefore in Hcur. lia.
Qed.

(** X3. For findings whose likelihoods are names of the table, the
    resolver splits its input, sorted by start, into consecutive groups
    and keeps exactly one finding of each group: every member after
    the first starts before the end of an earlier member, the members
    before the kept one have a lower rank, the members after it have no
    higher rank and start before its end, and the next groups start at
    or after the end of the kept finding. *)
Theorem removeOverlappingFindings_groups (findings : list Finding) :
  Forall known_likelihood findings →
  ∃ groups : list Group,
    js_sort byStart findings = concat (map group_members groups) ∧
    removeOverlappingFindings findings = map group_kept groups ∧
    Forall group_dominated groups ∧
    Forall (λ g, chained (group_members g)) groups ∧
    StronglySorted group_precedes groups.
Proof.
  intros Hknown. rewrite removeOverlappingFindings_sweep.
  assert (Forall known_likelihood (js_sort byStart findings)) as Hk.
  { apply Forall_forall. intros f Hf. apply elem_of_js_sort in Hf.
    eapply Forall_forall in Hknown; [exact Hknown|done]. }
  pose proof (js_sort_byStart_sorted findings) as Hs.
  destruct (js_sort byStart findings) as [|first rest].
  - exists []. repeat split; constructor.
  - inversion Hs; subst.
    destruct (sweep_groups rest [] first []) as (groups & Hcat & Hsw & Hd & Hc & Hp).
    + done.
    + done.
    + split; simpl; intros h Hh; by apply elem_of_nil in Hh.
    + apply chained_singleton.
    + exists groups. done.
Qed.

Lemma removeOverlappingFindings_groups_witness :
  Forall known_likelihood [exA; exB; exC] ∧
  ∃ groups : list Group,
    js_sort byStart [exA; exB; exC] = concat (map group_members groups) ∧
    removeOverlappingFindings [exA; exB; exC] = map group_kept groups ∧
    Forall group_dominated groups ∧
    Forall (λ g, chained (group_members g)) groups ∧
    StronglySorted group_precedes groups.
Proof.
  assert (Forall known_likelihood [exA; exB; exC]) as Hknown.
  { repeat constructor; eexists; vm_compute; reflexivity. }
  split; [exact Hknown|].
  exact (removeOverlappingFindings_groups [exA; exB; exC] Hknown).
Defined.

(** ** The single calls *)

Lemma removeOverlappingFindings_st_sorted findings :
  fst (removeOverlappingFindings_st findings) = js_sort byStart findings.
Proof.
  unfold removeOverlappingFindings_st.
  destruct findings as [|a [|b l]]; [done..|].
  replace (length (a :: b :: l) <=? 1)%nat with false by done.
  cbv zeta. by destruct (js_sort byStart (a :: b :: l)).
Qed.

Lemma js_filter_no_object filter (a : Finding) l :
  (∀ entries, filter ≠ PolicyObject entries) →
  js_filter (keepFinding filter) (a :: l) = Err TypeError.
Proof. intros Hno. destruct filter; [done..|]. by destruct (Hno entries). Qed.

Lemma doRedactAsync_replaced_text
    (inspectContent : InspectConfig → string → list Finding)
    (opts : HDXGoogleDLPRedactorOptions) (textToRedact : string)
    (entries : gmap string Z) :
  ∃ o, doRedactAsync inspectContent opts textToRedact (PolicyObject entries) true
         = Ok o ∧
       text o = fold_left replaceFinding
                  (js_sort byLikelihoodDesc
                     (removeOverlappingFindings
                        (filter (λ f, keeps entries f = true)
                           (inspectContent (getInspectConfig opts) textToRedact))))
                  textToRedact.
Proof.
  unfold doRedactAsync. cbv zeta.
  destruct (inspectContent (getInspectConfig opts) textToRedact) as [|f fs] eqn:Hfs.
  - simpl. by eexists.
  - replace (0 <? Z.of_nat (length (f :: fs))) with true
      by (symmetry; apply Z.ltb_lt; simpl; lia).
    rewrite js_filter_object. simpl. by eexists.
Qed.

(** X4. With an object policy a call of [doRedactAsync] that replaces
    the text returns the findings that pass the filter sorted by
    ascending start, findings of equal start in the order of the
    service (the resolver sorts the filtered array in place), whereas a
    call that does not replace returns them in the order of the
    service. *)
Theorem doRedactAsync_findings_order
    (inspectContent : InspectConfig → string → list Finding)
    (opts : HDXGoogleDLPRedactorOptions) (textToRedact : string)
    (entries : gmap string Z) :
  (∃ o, doRedactAsync inspectContent opts textToRedact (PolicyObject entries) true
          = Ok o ∧
        findings o
          = js_sort byStart
              (filter (λ f, keeps entries f = true)
                 (inspectContent (getInspectConfig opts) textToRedact)) ∧
        StronglySorted startsBefore (findings o)) ∧
  (∃ o, doRedactAsync inspectContent opts textToRedact (PolicyObject entries) false
          = Ok o ∧
        findings o
          = filter (λ f, keeps entries f = true)
              (inspectContent (getInspectConfig opts) textToRedact)).
Proof.
  unfold doRedactAsync. cbv zeta.
  destruct (inspectContent (getInspectConfig opts) textToRedact) as [|f fs] eqn:Hfs.
  - simpl. split; eexists; (split; [reflexivity|]); simpl; [|done].
    split; [done|constructor].
  - replace (0 <? Z.of_nat (length (f :: fs))) with true
      by (symmetry; apply Z.ltb_lt; simpl; lia).
    rewrite js_filter_object. simpl.
    split; eexists; (split; [reflexivity|]); simpl; [|done].
    rewrite removeOverlappingFindings_st_sorted.
    split; [done|apply js_sort_byStart_sorted].
Qed.

(** X5. The only failure of the single calls is the [TypeError] of
    reading the policy: [doRedactAsync] fails exactly when the service
    reports a finding and the policy is not an object;
    [doInspectStructured] fails exactly when the options carry no
    client options, or the service reports a finding and the policy is
    not an object. *)
Theorem single_call_errors
    (inspectContent : InspectConfig → string → list Finding)
    (inspectTable : InspectConfig → list string → list (list string)
                    → option (list Finding))
    (opts : HDXGoogleDLPRedactorOptions) (filter : Policy) :
  (∀ textToRedact replaceText,
     doRedactAsync inspectContent opts textToRedact filter replaceText
       = Err TypeError ↔
     inspectContent (getInspectConfig opts) textToRedact ≠ [] ∧
     ∀ entries, filter ≠ PolicyObject entries) ∧
  (∀ headers rows,
     doInspectStructured inspectTable opts headers rows filter = Err TypeError ↔
     clientOptions opts = None ∨
     (default [] (inspectTable (getInspectConfig opts) headers rows) ≠ [] ∧
      ∀ entries, filter ≠ PolicyObject entries)).
Proof.
  split.
  - intros textToRedact replaceText. unfold doRedactAsync. cbv zeta.
    destruct (inspectContent (getInspectConfig opts) textToRedact) as [|f fs] eqn:Hfs.
    + simpl. split; [done|]. by intros [? _].
    + replace (0 <? Z.of_nat (length (f :: fs))) with true
        by (symmetry; apply Z.ltb_lt; simpl; lia).
      destruct filter as [| |entries].
      * done.
      * done.
      * rewrite js_filter_object. simpl. split.
        -- by destruct replaceText.
        -- intros [_ Hno]. by destruct (Hno entries).
  - intros headers rows. unfold doInspectStructured. cbv zeta.
    destruct (clientOptions opts) as [c|]; simpl; [|split; [by left|done]].
    destruct (default [] (inspectTable (getInspectConfig opts) headers rows))
      as [|f fs] eqn:Hfs.
    + simpl. split; [done|]. intros [?|[? _]]; done.
    + replace (0 <? Z.of_nat (length (f :: fs))) with true
        by (symmetry; apply Z.ltb_lt; simpl; lia).
      destruct filter as [| |entries].
      * split; [|done]. intros _. right. done.
      * split; [|done]. intros _. right. done.
      * rewrite js_filter_object. simpl. split; [done|].
        intros [?|[_ Hno]]; [done|]. by destruct (Hno entries).
Qed.

(** ** The substitution loop *)

Lemma string_length_app s1 s2 :
  String.length (s1 +:+ s2) = (String.length s1 + String.length s2)%nat.
Proof.
  induction s1 as [|c s1 IH]; [done|].
  change (S (String.length (s1 +:+ s2)) = S (String.length s1 + String.length s2)).
  by rewrite IH.
Qed.

Lemma js_length_app s1 s2 : js_length (s1 +:+ s2) = js_length s1 + js_length s2.
Proof. unfold js_length. rewrite string_length_app. lia. Qed.

Lemma string_cons_app c s1 s2 : String c s1 +:+ s2 = String c (s1 +:+ s2).
Proof. reflexivity. Qed.

Lemma string_drop_app s1 s2 : string_drop (String.length s1) (s1 +:+ s2) = s2.
Proof. induction s1 as [|c s1 IH]; [by destruct s2|]. exact IH. Qed.

Lemma prefix_app find s :
  String.prefix find s = true ↔ ∃ post, s = find +:+ post.
Proof.
  revert s. induction find as [|a find IH]; intros s.
  - split; [|by destruct s]. intros _. by exists s.
  - destruct s as [|b s]; simpl.
    + split; [done|]. by intros [post ?].
    + destruct (Ascii.ascii_dec a b) as [->|Hab].
      * rewrite IH. split.
        -- intros [post ->]. by exists post.
        -- intros [post Hpost]. exists post.
           rewrite string_cons_app in Hpost. by injection Hpost.
      * split; [done|]. intros [post Hpost].
        rewrite string_cons_app in Hpost. injection Hpost as ? ?. by destruct Hab.
Qed.

Lemma js_indexOf_unfold find s :
  js_indexOf find s
  = if String.prefix find s then Some 0
    else match s with
         | EmptyString => None
         | String _ s' => Z.succ <$> js_indexOf find s'
         end.
Proof. by destruct s. Qed.

(** What [indexOf] finds: the text before the first occurrence and
    the text after it, as [replace] cuts them. *)
Lemma js_indexOf_Some find s i :
  js_indexOf find s = Some i →
  ∃ pre post,
    s = pre +:+ find +:+ post ∧
    i = js_length pre ∧
    string_take (Z.to_nat i) s = pre ∧
    string_drop (Z.to_nat i + String.length find) s = post.
Proof.
  revert i. induction s as [|c s IH]; intros i; rewrite js_indexOf_unfold.
  - destruct (String.prefix find "") eqn:Hp; [|done].
    intros [= <-]. apply prefix_app in Hp as [post Hpost].
    exists "", post. split; [done|]. split; [done|]. split; [done|].
    simpl. rewrite Hpost at 1. apply string_drop_app.
  - destruct (String.prefix find (String c s)) eqn:Hp.
    + intros [= <-]. apply prefix_app in Hp as [post Hpost].
      exists "", post. split; [done|]. split; [done|]. split; [done|].
      simpl Z.to_nat. simpl Nat.add. rewrite Hpost at 1. apply string_drop_app.
    + destruct (js_indexOf find s) as [i'|] eqn:Hi; [|done].
      simpl. intros [= <-].
      destruct (IH i' eq_refl) as (pre & post & Hs & Hi' & Htake & Hdrop).
      exists (String c pre), post.
      assert (Z.to_nat (Z.succ i') = S (Z.to_nat i')) as ->.
      { unfold js_length in Hi'. lia. }
      split; [by rewrite string_cons_app, <- Hs|].
      split; [unfold js_length in *; simpl; lia|].
      split; [simpl; by rewrite Htake|].
      exact Hdrop.
Qed.

Lemma js_indexOf_None find s : js_indexOf find s = None → ¬ occurs find s.
Proof.
  induction s as [|c s IH]; rewrite js_indexOf_unfold.
  - destruct (String.prefix find "") eqn:Hp; [done|]. intros _ (pre & post & Hs).
    destruct pre; [|done]. 
    assert (String.prefix find "" = true) as Hp'; [|congruence].
    apply prefix_app. by exists post.
  - destruct (String.prefix find (String c s)) eqn:Hp; [done|].
    destruct (js_indexOf find s) as [i'|] eqn:Hi; [done|].
    intros _ (pre & post & Hs). destruct pre as [|c' pre].
    + assert (String.prefix find (String c s) = true) as Hp'; [|congruence].
      apply prefix_app. by exists post.
    + rewrite string_cons_app in Hs. injection Hs as _ Hs.
      apply IH; [done|]. by exists pre, post.
Qed.

Lemma js_indexOf_occurs find s :
  occurs find s ↔ is_Some (js_indexOf find s).
Proof.
  split.
  - intros Hocc. destruct (js_indexOf find s) eqn:Hi; [done|].
    by apply js_indexOf_None in Hi.
  - intros [i Hi]. apply js_indexOf_Some in Hi as (pre & post & Hs & _).
    by exists pre, post.
Qed.

(** One [replace] when the pattern occurs. *)
Lemma js_replace_occurs find repl s :
  occurs find s →
  ∃ pre post, s = pre +:+ find +:+ post ∧
              js_replace find repl s = pre +:+ repl +:+ post.
Proof.
  intros [i Hi]%js_indexOf_occurs. unfold js_replace. rewrite Hi.
  apply js_indexOf_Some in Hi as (pre & post & Hs & _ & -> & ->).
  by exists pre, post.
Qed.

Lemma replaced_S find name k s :
  replaced find name (S k) s = replaced find name k (js_replace find name s).
Proof. unfold replaced. by rewrite Nat.iter_succ_r. Qed.

(** The loop makes [k] replacements, [k] at most the limit: the quote
    occurs before each of them, and no longer after the last one unless
    the limit is reached. *)
Lemma replaceLoop_spec find name n s :
  ∃ k : nat,
    (k ≤ n)%nat ∧
    replaceLoop find name n s = replaced find name k s ∧
    (∀ j, (j < k)%nat → occurs find (replaced find name j s)) ∧
    ((k < n)%nat → ¬ occurs find (replaceLoop find name n s)) ∧
    js_length (replaceLoop find name n s)
      = js_length s + Z.of_nat k * (js_length name - js_length find).
Proof.
  revert s. induction n as [|n IH]; intros s; simpl.
  - exists 0%nat. split; [lia|]. split; [done|]. split; [intros j; lia|].
    split; [lia|lia].
  - destruct (js_indexOf find s) as [i|] eqn:Hi.
    + assert (occurs find s) as Hocc by (apply js_indexOf_occurs; by exists i).
      destruct (js_replace_occurs find name s Hocc) as (pre & post & Hs & Hr).
      destruct (IH (js_replace find name s)) as (k & Hk & Heq & Hocc' & Hnone & Hlen).
      exists (S k). split; [lia|]. split; [by rewrite replaced_S|].
      split; [|split].
      * intros [|j] Hj; [done|]. rewrite replaced_S. apply Hocc'. lia.
      * intros Hlt. apply Hnone. lia.
      * rewrite Hlen, Hr, Hs, !js_length_app. lia.
    + exists 0%nat. split; [lia|]. split; [done|]. split; [intros j; lia|].
      split; [|lia]. intros _. by apply js_indexOf_None.
Qed.

(** X6. The substitution for one finding leaves the text as it is when
    the quote is the label or has fewer than two characters. Otherwise
    it replaces the first occurrence of the quote by the label again
    and again, [k] times with [k] at most 1000: the quote occurs in the
    text before each replacement, and when the loop stops before the
    1000th replacement the quote no longer occurs in the result; every
    replacement changes the length of the text by the difference of the
    lengths of label and quote. *)
Theorem replaceFinding_bounded (textToRedact : string) (finding : Finding) :
  (quote finding = infoType_name finding ∨
   js_length (quote finding) < MIN_FINDING_QUOTE_LENGTH →
   replaceFinding textToRedact finding = textToRedact) ∧
  (quote finding ≠ infoType_name finding →
   MIN_FINDING_QUOTE_LENGTH ≤ js_length (quote finding) →
   ∃ k : nat,
     (k ≤ 1000)%nat ∧
     replaceFinding textToRedact finding
       = replaced (quote finding) (infoType_name finding) k textToRedact ∧
     (∀ j, (j < k)%nat →
           occurs (quote finding)
             (replaced (quote finding) (infoType_name finding) j textToRedact)) ∧
     ((k < 1000)%nat →
      ¬ occurs (quote finding) (replaceFinding textToRedact finding)) ∧
     js_length (replaceFinding textToRedact finding)
       = js_length textToRedact
         + Z.of_nat k
           * (js_length (infoType_name finding) - js_length (quote finding))).
Proof.
  unfold replaceFinding. cbv zeta.
  pose proof (replaceLoop_spec (quote finding) (infoType_name finding) 1000
                textToRedact) as Hloop.
  revert Hloop. generalize 1000%nat. intros fuel Hloop.
  destruct (String.eqb_spec (quote finding) (infoType_name finding)) as [Heq|Hne];
    cbn [negb andb].
  - split; [done|]. intros Hne. by destruct Hne.
  - destruct (Z.leb_spec MIN_FINDING_QUOTE_LENGTH (js_length (quote finding)))
      as [Hlen|Hlen].
    + split; [intros [?|?]; [done|lia]|]. intros _ _. exact Hloop.
    + split; [done|]. intros _ ?. lia.
Qed.

Lemma replaceFinding_bounded_witness :
  ∃ k : nat,
    (k ≤ 1000)%nat ∧
    replaceFinding exText exB
      = replaced (quote exB) (infoType_name exB) k exText ∧
    (∀ j, (j < k)%nat →
          occurs (quote exB) (replaced (quote exB) (infoType_name exB) j exText)) ∧
    ((k < 1000)%nat → ¬ occurs (quote exB) (replaceFinding exText exB)) ∧
    js_length (replaceFinding exText exB)
      = js_length exText
        + Z.of_nat k * (js_length (infoType_name exB) - js_length (quote exB)).
Proof.
  apply (proj2 (replaceFinding_bounded exText exB)).
  - discriminate.
  - vm_compute. discriminate.
Defined.

Lemma replaceFinding_nothing s f : nothing_to_replace s f → replaceFinding s f = s.
Proof.
  unfold replaceFinding, nothing_to_replace. cbv zeta. generalize 1000%nat.
  intros fuel [Heq|[Hlen|Hocc]].
  - rewrite Heq, String.eqb_refl. done.
  - apply Z.leb_gt in Hlen. rewrite Hlen. by rewrite andb_false_r.
  - destruct (_ && _); [|done]. destruct fuel as [|fuel]; [done|]. simpl.
    destruct (js_indexOf (quote f) s) eqn:Hi; [|done].
    destruct Hocc. apply js_indexOf_occurs. by eexists.
Qed.

Lemma fold_replaceFinding_nothing s fs :
  (∀ f, f ∈ fs → nothing_to_replace s f) →
  fold_left replaceFinding fs s = s.
Proof.
  induction fs as [|f fs IH]; [done|]. intros Hall. simpl.
  rewrite replaceFinding_nothing by (apply Hall; by left).
  apply IH. intros g Hg. apply Hall. by right.
Qed.

(** X7. A call of [doRedactAsync] that replaces the text returns the
    text unchanged when, for every finding the service reports, the
    quote is the label, or is shorter than two characters, or does not
    occur in the text. *)
Theorem doRedactAsync_nothing_to_replace
    (inspectContent : InspectConfig → string → list Finding)
    (opts : HDXGoogleDLPRedactorOptions) (textToRedact : string)
    (entries : gmap string Z) :
  (∀ f, f ∈ inspectContent (getInspectConfig opts) textToRedact →
        nothing_to_replace textToRedact f) →
  ∃ o, doRedactAsync inspectContent opts textToRedact (PolicyObject entries) true
         = Ok o ∧
       text o = textToRedact.
Proof.
  intros Hall. unfold doRedactAsync. cbv zeta.
  destruct (inspectContent (getInspectConfig opts) textToRedact) as [|f fs] eqn:Hfs.
  - simpl. by eexists.
  - replace (0 <? Z.of_nat (length (f :: fs))) with true
      by (symmetry; apply Z.ltb_lt; simpl; lia).
    rewrite js_filter_object. simpl. eexists. split; [reflexivity|]. simpl.
    apply fold_replaceFinding_nothing. intros g Hg. apply Hall.
    apply elem_of_js_sort in Hg.
    change (snd (removeOverlappingFindings_st
                   (filter (λ a, keeps entries a = true) (f :: fs))))
      with (removeOverlappingFindings (filter (λ a, keeps entries a = true) (f :: fs)))
      in Hg.
    apply removeOverlappingFindings_subset in Hg.
    by apply list_elem_of_filter in Hg as [_ Hg].
Qed.

Lemma doRedactAsync_nothing_to_replace_witness :
  (∀ f, f ∈ exInspectLabel (getInspectConfig exOptions) exText →
        nothing_to_replace exText f) ∧
  ∃ o, doRedactAsync exInspectLabel exOptions exText (PolicyObject ∅) true = Ok o ∧
       text o = exText.
Proof.
  assert (∀ f, f ∈ exInspectLabel (getInspectConfig exOptions) exText →
               nothing_to_replace exText f) as Hall.
  { intros f Hf. apply list_elem_of_singleton in Hf as ->. left. reflexivity. }
  split; [exact Hall|].
  exact (doRedactAsync_nothing_to_replace exInspectLabel exOptions exText ∅ Hall).
Defined.




(** ** The merge of the batch results *)

Lemma fold_left_last {A} (l : list A) (a : A) :
  fold_left (λ _ b, b) l a = default a (last l).
Proof.
  revert a. induction l as [|b l IH]; intros a; [done|].
  simpl. rewrite IH, last_cons. by destruct (last l).
Qed.

Lemma fold_left_Zadd l a : fold_left Z.add l a = a + foldr Z.add 0 l.
Proof.
  revert a. induction l as [|b l IH]; intros a; simpl; [lia|]. rewrite IH. lia.
Qed.

Lemma fold_left_Zmax l a :
  (a ≤ fold_left Z.max l a) ∧
  (∀ x, x ∈ l → x ≤ fold_left Z.max l a) ∧
  (fold_left Z.max l a = a ∨ fold_left Z.max l a ∈ l).
Proof.
  revert a. induction l as [|b l IH]; intros a; simpl.
  - split; [lia|]. split; [|by left]. intros x Hx. by apply elem_of_nil in Hx.
  - destruct (IH (Z.max a b)) as (Hle & Hall & Hin). split; [lia|]. split.
    + intros x Hx. apply elem_of_cons in Hx as [->|Hx]; [lia|by apply Hall].
    + destruct Hin as [Heq|Hin].
      * destruct (Z.max_spec a b) as [[_ Hm]|[_ Hm]]; rewrite Hm in *.
        -- right. rewrite Heq. by left.
        -- by left.
      * right. by right.
Qed.

Lemma capped_count {Item} (count : Item → Z) (items : list Item) :
  foldr Z.add 0 (map (λ item, if 2000 <=? count item then 1 else 0) items)
  = Z.of_nat (length (filter (λ item, 2000 ≤ count item) items)).
Proof.
  induction items as [|item items IH]; [done|].
  simpl. rewrite IH, filter_cons.
  destruct (Z.leb_spec 2000 (count item)); case_decide; simpl; lia.
Qed.

Lemma mergeBatchResults_single o : mergeBatchResults [o] = Ok o.
Proof. by destruct o. Qed.

(** The merge of the outputs of calls that report the same info types
    and the metrics of their own item. *)
Lemma mergeBatchResults_metrics {Item} (call : Item → result RedactorOutput)
    (count : Item → Z) (reported : list string) items outs r :
  (∀ item o, call item = Ok o →
     config_infoTypes o = reported ∧
     metrics_maxFindings o = count item ∧
     metrics_findingsCap o = if 2000 <=? count item then 1 else 0) →
  Forall2 (λ item o, call item = Ok o) items outs →
  mergeBatchResults outs = Ok r →
  config_infoTypes r = reported ∧ merged_metrics count items r.
Proof.
  intros Hcall Hcalls Hmerge.
  assert (map config_infoTypes outs = map (λ _, reported) items ∧
          map metrics_maxFindings outs = map count items ∧
          map metrics_findingsCap outs
            = map (λ item, if 2000 <=? count item then 1 else 0) items)
    as (Hconfig & Hmax & Hcap).
  { clear Hmerge. induction Hcalls as [|item o items outs Ho _ IH]; [done|].
    destruct IH as (IH1 & IH2 & IH3). simpl. rewrite IH1, IH2, IH3.
    by destruct (Hcall item o Ho) as (-> & -> & ->). }
  destruct Hcalls as [|item o items outs Ho Hcalls]; [done|].
  unfold mergeBatchResults in Hmerge. rewrite Hconfig, Hmax, Hcap in Hmerge.
  simpl in Hmerge. injection Hmerge as <-. unfold merged_metrics. simpl.
  split; [|split; [|split]].
  - rewrite fold_left_last. clear. induction items as [|item items IH]; [done|].
    simpl. rewrite last_cons. by destruct (last _).
  - rewrite fold_left_Zadd, capped_count, filter_cons.
    destruct (Z.leb_spec 2000 (count item)); case_decide; simpl; lia.
  - intros x Hx. destruct (fold_left_Zmax (map count items) (count item))
      as (Hle & Hall & _).
    apply elem_of_cons in Hx as [->|Hx]; [done|].
    apply Hall. apply list_elem_of_fmap. by exists x.
  - destruct (fold_left_Zmax (map count items) (count item)) as (_ & _ & [Heq|Hin]).
    + exists item. split; [by left|done].
    + apply list_elem_of_fmap in Hin as (x & Hx & Hin).
      exists x. split; [by right|done].
Qed.

Lemma doRedactAsync_metrics inspectContent opts textToRedact filter replaceText o :
  doRedactAsync inspectContent opts textToRedact filter replaceText = Ok o →
  config_infoTypes o = reportedInfoTypes (getInspectConfig opts) ∧
  metrics_maxFindings o = reportedCount inspectContent opts textToRedact ∧
  metrics_findingsCap o
    = if 2000 <=? reportedCount inspectContent opts textToRedact then 1 else 0.
Proof.
  unfold doRedactAsync, reportedCount. cbv zeta.
  destruct (if 0 <? _ then _ else _); simpl; [|done]. by intros [= <-].
Qed.

Lemma doInspectStructured_metrics inspectTable opts headers rows filter o :
  doInspectStructured inspectTable opts headers rows filter = Ok o →
  config_infoTypes o = reportedInfoTypes (getInspectConfig opts) ∧
  metrics_maxFindings o = reportedTableCount inspectTable opts (headers, rows) ∧
  metrics_findingsCap o
    = (if 2000 <=? reportedTableCount inspectTable opts (headers, rows) then 1 else 0) ∧
  text o = "".
Proof.
  unfold doInspectStructured, reportedTableCount. cbv zeta.
  destruct (clientOptions opts); simpl; [|done].
  destruct (if 0 <? _ then _ else _); simpl; [|done]. by intros [= <-].
Qed.

(** X9. The result of a run of [redactAsync] that returns reports the
    info types of the configuration (the batches all report the same),
    as findings cap the number of calls for which the service reported
    2000 findings or more, which may exceed one, and as maximum the
    largest number of findings the service reported for one call. *)
Theorem redactAsync_metrics (MAX_CONTENT_LENGTH MAX_PROMISES : Z)
    (inspectContent : InspectConfig → string → list Finding)
    (opts : HDXGoogleDLPRedactorOptions) (iterations : nat)
    (textToRedact : string) (filter : Policy) (r : RedactorOutput)
    (tr : list (event string)) :
  redactAsync MAX_CONTENT_LENGTH MAX_PROMISES inspectContent opts
    iterations textToRedact filter = (Returned r, tr) →
  config_infoTypes r = reportedInfoTypes (getInspectConfig opts) ∧
  merged_metrics (reportedCount inspectContent opts) (dispatched tr) r.
Proof.
  unfold redactAsync. destruct (_ && _).
  - intros Hrun. apply runBatches_returned in Hrun
      as (k & outs & _ & _ & _ & Hcalls & Hmerge).
    eapply mergeBatchResults_metrics; [|exact Hcalls|exact Hmerge].
    intros item o Ho. by apply doRedactAsync_metrics in Ho.
  - intros [= Hcall <-]. unfold settle in Hcall.
    destruct (doRedactAsync _ _ _ _ _) as [o|e] eqn:Ho; simplify_eq.
    eapply (mergeBatchResults_metrics
              (λ item, doRedactAsync inspectContent opts item filter false)
              _ _ [textToRedact] [r]).
    + intros item o Ho'. by apply doRedactAsync_metrics in Ho'.
    + by repeat constructor.
    + apply mergeBatchResults_single.
Qed.

Lemma redactAsync_metrics_witness :
  config_infoTypes (mkOutput ["PERSON_NAME"; "FIRST_NAME"; "LAST_NAME"] 0 0 exText [])
    = reportedInfoTypes (getInspectConfig exOptions) ∧
  merged_metrics (reportedCount exInspectContent exOptions)
    (dispatched [EvCall "My n"; EvCall "ame "; EvAwaitAll 2;
                 EvCall "is J"; EvCall "ohn "; EvAwaitAll 2;
                 EvCall "D."; EvAwaitAll 1])
    (mkOutput ["PERSON_NAME"; "FIRST_NAME"; "LAST_NAME"] 0 0 exText []).
Proof.
  apply (redactAsync_metrics 8 2 exInspectContent exOptions 5 exText (PolicyObject ∅)).
  by vm_compute.
Defined.

(** X10. The result of a run of [inspectStructured] that returns
    reports the info types of the configuration, as findings cap the
    number of calls for which the service reported 2000 findings or
    more, and as maximum the largest number of findings the service
    reported for one call. *)
Theorem inspectStructured_metrics (MAX_PROMISES : Z)
    (inspectTable : InspectConfig → list string → list (list string)
                    → option (list Finding))
    (opts : HDXGoogleDLPRedactorOptions) (iterations : nat)
    (headers : list string) (rows : list (list string)) (filter : Policy)
    (r : RedactorOutput) (tr : list (event (list string * list (list string)))) :
  inspectStructured MAX_PROMISES inspectTable opts iterations headers rows filter
    = (Returned r, tr) →
  config_infoTypes r = reportedInfoTypes (getInspectConfig opts) ∧
  merged_metrics (reportedTableCount inspectTable opts) (dispatched tr) r.
Proof.
  assert (∀ (batch : list string * list (list string)) o,
            doInspectStructured inspectTable opts (fst batch) (snd batch) filter = Ok o →
            config_infoTypes o = reportedInfoTypes (getInspectConfig opts) ∧
            metrics_maxFindings o = reportedTableCount inspectTable opts batch ∧
            metrics_findingsCap o
              = if 2000 <=? reportedTableCount inspectTable opts batch then 1 else 0)
    as Hcall.
  { intros [h rs] o Ho. apply doInspectStructured_metrics in Ho. tauto. }
  assert (settle (doInspectStructured inspectTable opts headers rows filter)
            = Returned r →
          config_infoTypes r = reportedInfoTypes (getInspectConfig opts) ∧
          merged_metrics (reportedTableCount inspectTable opts) [(headers, rows)] r)
    as Hsingle.
  { unfold settle. destruct (doInspectStructured _ _ _ _ _) as [o|e] eqn:Ho; [|done].
    intros [= ->].
    eapply (mergeBatchResults_metrics
              (λ batch, doInspectStructured inspectTable opts (fst batch) (snd batch) filter)
              _ _ [(headers, rows)] [r]).
    - exact Hcall.
    - by repeat constructor.
    - apply mergeBatchResults_single. }
  unfold inspectStructured. cbv zeta.
  destruct (maxRowsPerBatch headers) as [size|].
  - destruct (size <? _).
    + intros Hrun. apply runBatches_returned in Hrun
        as (k & outs & _ & _ & _ & Hcalls & Hmerge).
      eapply mergeBatchResults_metrics; [exact Hcall|exact Hcalls|exact Hmerge].
    + intros [= Hr <-]. by apply Hsingle.
  - intros [= Hr <-]. by apply Hsingle.
Qed.

Lemma inspectStructured_metrics_witness :
  config_infoTypes
    (mkOutput ["PERSON_NAME"; "FIRST_NAME"; "LAST_NAME"] 0 2 "" [exA; exB])
    = reportedInfoTypes (getInspectConfig exOptions) ∧
  merged_metrics (reportedTableCount exInspectTableTwo exOptions)
    (dispatched [EvCall (["name"], [["John D."]])])
    (mkOutput ["PERSON_NAME"; "FIRST_NAME"; "LAST_NAME"] 0 2 "" [exA; exB]).
Proof.
  apply (inspectStructured_metrics 5 exInspectTableTwo exOptions 0
           ["name"] [["John D."]] (PolicyObject ∅)).
  by vm_compute.
Defined.

(** ** The structured driver *)

Lemma js_slice_glue {A} (l : list A) a size :
  0 ≤ a → 0 ≤ size →
  js_slice l 0 a ++ js_slice l a (a + size) = js_slice l 0 (a + size).
Proof.
  intros Ha Hs. unfold js_slice, slice_index. cbv zeta.
  replace (0 <? 0) with false by done.
  replace (a <? 0) with false by (symmetry; apply Z.ltb_ge; lia).
  replace (a + size <? 0) with false by (symmetry; apply Z.ltb_ge; lia).
  replace (Z.min 0 (Z.of_nat (length l))) with 0 by lia.
  change (Z.to_nat 0) with 0%nat.
  rewrite !drop_0, !Z.sub_0_r, take_take_drop. f_equal. lia.
Qed.

Lemma js_slice_whole {A} (l : list A) b :
  Z.of_nat (length l) ≤ b → js_slice l 0 b = l.
Proof.
  intros Hb. unfold js_slice, slice_index. cbv zeta.
  replace (0 <? 0) with false by done.
  replace (b <? 0) with false by (symmetry; apply Z.ltb_ge; lia).
  replace (Z.min 0 (Z.of_nat (length l))) with 0 by lia.
  change (Z.to_nat 0) with 0%nat.
  rewrite drop_0. apply take_ge. lia.
Qed.

Lemma slice_batches_concat {A} (l : list A) size k :
  0 ≤ size →
  concat (map (nthBatch size (js_slice l)) (seq 0 k)) = js_slice l 0 (Z.of_nat k * size).
Proof.
  intros Hs. induction k as [|k IH].
  - change (Z.of_nat 0 * size) with 0. simpl. unfold js_slice, slice_index. cbv zeta.
    replace (0 <? 0) with false by done.
    replace (Z.min 0 (Z.of_nat (length l))) with 0 by lia.
    change (Z.to_nat (0 - 0)) with 0%nat. by rewrite take_0.
  - rewrite seq_S, map_app, concat_app, IH. cbn [map concat]. rewrite app_nil_r.
    unfold nthBatch. simpl.
    rewrite js_slice_glue by nia. f_equal. lia.
Qed.

Lemma doInspectStructured_Ok inspectTable opts headers rows filter o :
  doInspectStructured inspectTable opts headers rows filter = Ok o →
  js_filter (keepFinding filter)
    (default [] (inspectTable (getInspectConfig opts) headers rows))
    = Ok (findings o).
Proof.
  unfold doInspectStructured. cbv zeta.
  destruct (clientOptions opts); simpl; [|done].
  destruct (default [] (inspectTable (getInspectConfig opts) headers rows))
    as [|f fs] eqn:Hfs.
  - simpl. by intros [= <-].
  - replace (0 <? Z.of_nat (length (f :: fs))) with true
      by (symmetry; apply Z.ltb_lt; simpl; lia).
    destruct (js_filter (keepFinding filter) (f :: fs)); simpl; [|done].
    by intros [= <-].
Qed.

(** The outputs of the calls of a structured run, merged. *)
Lemma structured_outputs_merged inspectTable opts filter
    (batches : list (list string * list (list string))) outs r :
  Forall2 (λ batch o,
             doInspectStructured inspectTable opts (fst batch) (snd batch) filter
             = Ok o) batches outs →
  mergeBatchResults outs = Ok r →
  text r = "" ∧
  Forall2 (λ batch kept,
             js_filter (keepFinding filter)
               (default [] (inspectTable (getInspectConfig opts) (fst batch) (snd batch)))
             = Ok kept) batches (map findings outs) ∧
  findings r = concat (map findings outs).
Proof.
  intros Hcalls Hmerge. apply mergeBatchResults_Ok in Hmerge as [-> ->].
  split; [|split; [|done]].
  - clear r. induction Hcalls as [|batch o batches outs Ho _ IH]; [done|].
    simpl. rewrite IH.
    by apply doInspectStructured_metrics in Ho as (_ & _ & _ & ->).
  - induction Hcalls as [|batch o batches outs Ho _ IH]; simpl; constructor; [|done].
    by apply doInspectStructured_Ok.
Qed.

(** X11. A run of [inspectStructured] that returns has sent every row
    exactly once and in order (the row batches of the calls, appended,
    are the rows), its text is empty, and its findings are the findings
    that pass the filter, call after call in the order of the calls. *)
Theorem inspectStructured_returned (MAX_PROMISES : Z)
    (inspectTable : InspectConfig → list string → list (list string)
                    → option (list Finding))
    (opts : HDXGoogleDLPRedactorOptions) (iterations : nat)
    (headers : list string) (rows : list (list string)) (filter : Policy)
    (r : RedactorOutput) (tr : list (event (list string * list (list string)))) :
  inspectStructured MAX_PROMISES inspectTable opts iterations headers rows filter
    = (Returned r, tr) →
  concat (map snd (dispatched tr)) = rows ∧
  text r = "" ∧
  ∃ kepts,
    Forall2 (λ batch kept,
               js_filter (keepFinding filter)
                 (default [] (inspectTable (getInspectConfig opts)
                                (fst batch) (snd batch)))
               = Ok kept) (dispatched tr) kepts ∧
    findings r = concat kepts.
Proof.
  assert (settle (doInspectStructured inspectTable opts headers rows filter)
            = Returned r →
          concat (map snd [(headers, rows)]) = rows ∧
          text r = "" ∧
          ∃ kepts,
            Forall2 (λ batch kept,
                       js_filter (keepFinding filter)
                         (default [] (inspectTable (getInspectConfig opts)
                                        (fst batch) (snd batch)))
                       = Ok kept) [(headers, rows)] kepts ∧
            findings r = concat kepts)
    as Hsingle.
  { unfold settle. destruct (doInspectStructured _ _ _ _ _) as [o|e] eqn:Ho; [|done].
    intros [= ->]. split; [simpl; apply app_nil_r|].
    destruct (structured_outputs_merged inspectTable opts filter
                [(headers, rows)] [r] r) as (Ht & Hf & Hc).
    - by repeat constructor.
    - apply mergeBatchResults_single.
    - split; [done|]. by exists (map findings [r]). }
  unfold inspectStructured. cbv zeta.
  destruct (maxRowsPerBatch headers) as [size|].
  - destruct (size <? _) eqn:Hlt.
    + apply Z.ltb_lt in Hlt. intros Hrun. apply runBatches_returned in Hrun
        as (k & outs & Hdisp & Hbefore & Hend & Hcalls & Hmerge).
      destruct (structured_outputs_merged _ _ _ _ _ _ Hcalls Hmerge)
        as (Ht & Hf & Hc).
      split; [|split; [done|by exists (map findings outs)]].
      rewrite Hdisp, map_map.
      change (map (λ i, snd (nthBatch size (λ a b, (headers, js_slice rows a b)) i))
                (seq 0 k))
        with (map (nthBatch size (js_slice rows)) (seq 0 k)).
      destruct (decide (0 ≤ size)) as [Hs|Hs].
      * rewrite slice_batches_concat by done. by apply js_slice_whole.
      * destruct k as [|k].
        -- rewrite Hdisp in Hcalls. inversion Hcalls; subst. done.
        -- specialize (Hbefore 0%nat). nia.
    + intros [= Hr <-]. by apply Hsingle.
  - intros [= Hr <-]. by apply Hsingle.
Qed.

Lemma inspectStructured_returned_witness :
  concat (map snd (dispatched [EvCall (["name"], [["John D."]])])) = [["John D."]] ∧
  text (mkOutput ["PERSON_NAME"; "FIRST_NAME"; "LAST_NAME"] 0 2 "" [exA; exB]) = "" ∧
  ∃ kepts,
    Forall2 (λ batch kept,
               js_filter (keepFinding (PolicyObject ∅))
                 (default [] (exInspectTableTwo (getInspectConfig exOptions)
                                (fst batch) (snd batch)))
               = Ok kept) (dispatched [EvCall (["name"], [["John D."]])]) kepts ∧
    findings (mkOutput ["PERSON_NAME"; "FIRST_NAME"; "LAST_NAME"] 0 2 "" [exA; exB])
      = concat kepts.
Proof.
  apply (inspectStructured_returned 5 exInspectTableTwo exOptions 0
           ["name"] [["John D."]] (PolicyObject ∅)).
  by vm_compute.
Defined.

(** ** Runs that do not return *)

Lemma Promise_all_rejected {A} (promises : list (result A)) :
  Forall (λ p, p = Err TypeError) promises → promises ≠ [] →
  Promise_all promises = Err TypeError.
Proof. intros Hall Hne. destruct Hall as [|p ps -> _]; done. Qed.

Lemma error_TypeError (e : error) : e = TypeError.
Proof. by destruct e. Qed.

(** With calls that all fail the loop collects no result. *)
Lemma batchLoop_rejecting {Item} MAX_PROMISES total size (batchAt : Z → Z → Item)
    call iterations :
  (∀ item, call item = Err TypeError) →
  ∀ st, batchResults st = [] →
    Forall (λ p, p = Err TypeError) (batchPromises st) →
    (fst (batchLoop MAX_PROMISES total size batchAt call iterations st)
       = Returned () →
     batchResults (snd (batchLoop MAX_PROMISES total size batchAt call iterations st))
       = [] ∧
     Forall (λ p, p = Err TypeError)
       (batchPromises (snd (batchLoop MAX_PROMISES total size batchAt call
                              iterations st)))) ∧
    ((1 ≤ iterations)%nat →
     MAX_PROMISES ≤ Z.of_nat (length (batchPromises st)) + Z.of_nat iterations →
     fst (batchLoop MAX_PROMISES total size batchAt call iterations st) ≠ Running).
Proof.
  intros Hcall. induction iterations as [|n IH]; intros st Hres Hall; simpl.
  - destruct (batchStartIndex st <? total); simpl; [|done]. split; [done|lia].
  - destruct (batchStartIndex st <? total); simpl; [|done].
    rewrite Hcall.
    assert (Forall (λ p : result RedactorOutput, p = Err TypeError)
              (batchPromises st ++ [Err TypeError])) as Hall'.
    { apply Forall_app. split; [done|]. by repeat constructor. }
    destruct (Z.leb_spec MAX_PROMISES
                (Z.of_nat (length (batchPromises st ++ [Err TypeError]))))
      as [Hfull|Hfree].
    + rewrite Promise_all_rejected; [done|done|]. by destruct (batchPromises st).
    + destruct (IH (mkBatchState (batchPromises st ++ [Err TypeError])
                      (batchStartIndex st + size) (batchResults st)
                      (trace st ++ [EvCall (batchAt (batchStartIndex st)
                                              (batchStartIndex st + size))])))
        as [Hret Hrun]; [done|done|].
      split; [done|]. intros _ Hn. rewrite length_app in Hfree. simpl in Hfree.
      apply Hrun; simpl; rewrite ?length_app; simpl; lia.
Qed.

Lemma runBatches_rejecting {Item} MAX_PROMISES total size (batchAt : Z → Z → Item)
    call iterations :
  (∀ item, call item = Err TypeError) →
  (∀ r, fst (runBatches MAX_PROMISES total size batchAt call iterations)
        ≠ Returned r) ∧
  ((1 ≤ iterations)%nat → MAX_PROMISES ≤ Z.of_nat iterations →
   fst (runBatches MAX_PROMISES total size batchAt call iterations)
     = Thrown TypeError).
Proof.
  intros Hcall.
  destruct (batchLoop_rejecting MAX_PROMISES total size batchAt call iterations
              Hcall (mkBatchState [] 0 [] [])) as [Hret Hrun]; [done|done|].
  unfold runBatches. cbv zeta.
  destruct (fst (batchLoop _ _ _ _ _ _ _)) as [[]|e|] eqn:Hexit; simpl.
  - destruct (Hret eq_refl) as [Hres Hall].
    assert (fst (match Promise_all (batchPromises (snd (batchLoop MAX_PROMISES total
                   size batchAt call iterations (mkBatchState [] 0 [] [])))) with
                 | Ok rs =>
                     (settle (mergeBatchResults
                        (batchResults (snd (batchLoop MAX_PROMISES total size batchAt
                           call iterations (mkBatchState [] 0 [] []))) ++ rs)),
                      trace (snd (batchLoop MAX_PROMISES total size batchAt call
                                    iterations (mkBatchState [] 0 [] [])))
                        ++ [EvAwaitAll (length (batchPromises (snd (batchLoop
                              MAX_PROMISES total size batchAt call iterations
                              (mkBatchState [] 0 [] [])))))])
                 | Err e =>
                     (Thrown e, trace (snd (batchLoop MAX_PROMISES total size batchAt
                                              call iterations (mkBatchState [] 0 [] []))))
                 end) = Thrown TypeError) as Hthrown.
    { rewrite Hres.
      destruct (batchPromises _) as [|p ps] eqn:Hps.
      - done.
      - rewrite Promise_all_rejected; done. }
    rewrite Hthrown. done.
  - rewrite (error_TypeError e). done.
  - split; [done|]. intros H1 Hn. destruct Hrun; [done|simpl; lia|done].
Qed.

(** X12. On a redactor whose options carry no client options (as the
    default options of the constructor) no run of [inspectStructured]
    returns a result: whatever the table and the policy, the run fails
    with a [TypeError], at the latest when the first wave of calls is
    awaited. *)
Theorem inspectStructured_without_clientOptions (MAX_PROMISES : Z)
    (inspectTable : InspectConfig → list string → list (list string)
                    → option (list Finding))
    (opts : HDXGoogleDLPRedactorOptions) (iterations : nat)
    (headers : list string) (rows : list (list string)) (filter : Policy) :
  clientOptions opts = None →
  (∀ r, fst (inspectStructured MAX_PROMISES inspectTable opts iterations
               headers rows filter) ≠ Returned r) ∧
  ((1 ≤ iterations)%nat → MAX_PROMISES ≤ Z.of_nat iterations →
   fst (inspectStructured MAX_PROMISES inspectTable opts iterations
          headers rows filter) = Thrown TypeError).
Proof.
  intros Hnone.
  assert (∀ h rs, doInspectStructured inspectTable opts h rs filter = Err TypeError)
    as Hcall.
  { intros h rs. unfold doInspectStructured. by rewrite Hnone. }
  unfold inspectStructured. cbv zeta. rewrite Hcall.
  destruct (maxRowsPerBatch headers) as [size|]; [|done].
  destruct (size <? _); [|done].
  apply runBatches_rejecting. intros [h rs]. apply Hcall.
Qed.

Lemma inspectStructured_without_clientOptions_witness :
  (∀ r, fst (inspectStructured 5 exInspectTableTwo exOptionsDefault 5
               ["name"] [["John D."]] (PolicyObject ∅)) ≠ Returned r) ∧
  ((1 ≤ 5)%nat → 5 ≤ Z.of_nat 5 →
   fst (inspectStructured 5 exInspectTableTwo exOptionsDefault 5
          ["name"] [["John D."]] (PolicyObject ∅)) = Thrown TypeError).
Proof.
  apply (inspectStructured_without_clientOptions 5 exInspectTableTwo
           exOptionsDefault 5 ["name"] [["John D."]] (PolicyObject ∅)).
  reflexivity.
Defined.

(** With a batch size that is not positive and calls that all return,
    the loop over a non-empty content issues a call in every iteration
    and never ends. *)
Lemma batchLoop_never_ends {Item} MAX_PROMISES total size (batchAt : Z → Z → Item)
    call iterations :
  size ≤ 0 → 0 < total → (∀ item, ∃ o, call item = Ok o) →
  ∀ st, batchStartIndex st ≤ 0 →
    Forall (λ p, ∃ a, p = Ok a) (batchPromises st) →
    fst (batchLoop MAX_PROMISES total size batchAt call iterations st) = Running ∧
    length (dispatched
              (trace (snd (batchLoop MAX_PROMISES total size batchAt call
                             iterations st))))
      = (length (dispatched (trace st)) + iterations)%nat.
Proof.
  intros Hsize Htotal Hcall. induction iterations as [|n IH]; intros st Hstart Hall;
    simpl.
  - replace (batchStartIndex st <? total) with true
      by (symmetry; apply Z.ltb_lt; lia).
    simpl. split; [done|lia].
  - replace (batchStartIndex st <? total) with true
      by (symmetry; apply Z.ltb_lt; lia).
    assert (Forall (λ p, ∃ a, p = Ok a)
              (batchPromises st
                 ++ [call (batchAt (batchStartIndex st) (batchStartIndex st + size))]))
      as Hall'.
    { apply Forall_app. split; [done|]. constructor; [apply Hcall|constructor]. }
    destruct (MAX_PROMISES <=? _).
    + destruct (Promise_all_Forall _ Hall') as [rs ->].
      match goal with
      | |- context [batchLoop _ _ _ _ _ n ?st'] =>
          destruct (IH st') as [Hrun Hlen]; [simpl; lia|simpl; constructor|]
      end.
      split; [done|]. rewrite Hlen. simpl.
      rewrite dispatched_await, dispatched_call, length_app. simpl. lia.
    + match goal with
      | |- context [batchLoop _ _ _ _ _ n ?st'] =>
          destruct (IH st') as [Hrun Hlen]; [simpl; lia|done|]
      end.
      split; [done|]. rewrite Hlen. simpl.
      rewrite dispatched_call, length_app. simpl. lia.
Qed.

Lemma runBatches_never_ends {Item} MAX_PROMISES total size (batchAt : Z → Z → Item)
    call iterations :
  size ≤ 0 → 0 < total → (∀ item, ∃ o, call item = Ok o) →
  fst (runBatches MAX_PROMISES total size batchAt call iterations) = Running ∧
  length (dispatched (snd (runBatches MAX_PROMISES total size batchAt call iterations)))
    = iterations.
Proof.
  intros Hsize Htotal Hcall.
  destruct (batchLoop_never_ends MAX_PROMISES total size batchAt call iterations
              Hsize Htotal Hcall (mkBatchState [] 0 [] [])) as [Hrun Hlen];
    [done|constructor|].
  unfold runBatches. cbv zeta. rewrite Hrun. simpl. by rewrite Hlen.
Qed.

(** The merge of no result at all: [reduce] of an empty array. *)
Lemma runBatches_nothing {Item} MAX_PROMISES total size (batchAt : Z → Z → Item)
    call iterations :
  total ≤ 0 →
  runBatches MAX_PROMISES total size batchAt call iterations
  = (Thrown TypeError, [EvAwaitAll 0]).
Proof.
  intros Htotal. unfold runBatches. cbv zeta.
  assert (batchLoop MAX_PROMISES total size batchAt call iterations
            (mkBatchState [] 0 [] []) = (Returned (), mkBatchState [] 0 [] []))
    as ->.
  { destruct iterations; simpl;
      by replace (0 <? total) with false by (symmetry; apply Z.ltb_ge; lia). }
  done.
Qed.

(** X13. With a batch size that is not positive (a negative
    [maxContentSizeForBatch], or the default with a
    [MAX_CONTENT_LENGTH] that is not positive) and automatic batching,
    [redactAsync]
    does not return for any non-empty text under an object policy:
    the loop issues one call in every iteration and never ends. For
    the empty text and a negative batch size it fails with the
    [TypeError] of reducing an empty array, without any call. *)
Theorem redactAsync_nonpositive_batch_size (MAX_CONTENT_LENGTH MAX_PROMISES : Z)
    (inspectContent : InspectConfig → string → list Finding)
    (opts : HDXGoogleDLPRedactorOptions) :
  maxContentSize MAX_CONTENT_LENGTH opts ≤ 0 →
  disableAutoBatchWhenContentSizeExceedsLimit opts = false →
  (∀ iterations textToRedact entries,
     0 < js_length textToRedact →
     fst (redactAsync MAX_CONTENT_LENGTH MAX_PROMISES inspectContent opts
            iterations textToRedact (PolicyObject entries)) = Running ∧
     length (dispatched
               (snd (redactAsync MAX_CONTENT_LENGTH MAX_PROMISES inspectContent opts
                       iterations textToRedact (PolicyObject entries))))
       = iterations) ∧
  (maxContentSize MAX_CONTENT_LENGTH opts < 0 →
   ∀ iterations filter,
     redactAsync MAX_CONTENT_LENGTH MAX_PROMISES inspectContent opts
       iterations "" filter = (Thrown TypeError, [EvAwaitAll 0])).
Proof.
  intros Hsize Hauto. split.
  - intros iterations textToRedact entries Hlen. unfold redactAsync.
    rewrite Hauto.
    replace (maxContentSize MAX_CONTENT_LENGTH opts
             <? in_halves (js_length textToRedact))
      with true by (symmetry; apply Z.ltb_lt; unfold in_halves; lia).
    simpl. apply runBatches_never_ends; [done|unfold in_halves; lia|].
    intros item. apply doRedactAsync_object.
  - intros Hneg iterations filter. unfold redactAsync. rewrite Hauto.
    replace (maxContentSize MAX_CONTENT_LENGTH opts <? in_halves (js_length ""))
      with true
      by (symmetry; apply Z.ltb_lt; unfold in_halves, js_length; simpl; lia).
    simpl. apply runBatches_nothing. by vm_compute.
Qed.

Lemma redactAsync_nonpositive_batch_size_witness :
  (∀ iterations textToRedact entries,
     0 < js_length textToRedact →
     fst (redactAsync 524288 5 exInspectContent exOptionsNegative
            iterations textToRedact (PolicyObject entries)) = Running ∧
     length (dispatched
               (snd (redactAsync 524288 5 exInspectContent exOptionsNegative
                       iterations textToRedact (PolicyObject entries))))
       = iterations) ∧
  (maxContentSize 524288 exOptionsNegative < 0 →
   ∀ iterations filter,
     redactAsync 524288 5 exInspectContent exOptionsNegative
       iterations "" filter = (Thrown TypeError, [EvAwaitAll 0])).
Proof.
  apply (redactAsync_nonpositive_batch_size 524288 5 exInspectContent
           exOptionsNegative).
  - vm_compute. discriminate.
  - reflexivity.
Defined.

(** X14. For a table of more than 12500 columns the maximum of rows per
    batch is not positive: with client options and an object policy,
    [inspectStructured] does not return for any non-empty list of
    rows, the loop issuing one call in every iteration; for more than
    25000 columns and no row it fails with the [TypeError] of reducing
    an empty array, without any call. *)
Theorem inspectStructured_too_many_columns (MAX_PROMISES : Z)
    (inspectTable : InspectConfig → list string → list (list string)
                    → option (list Finding))
    (opts : HDXGoogleDLPRedactorOptions) (headers : list string) :
  12500 < Z.of_nat (length headers) →
  (is_Some (clientOptions opts) →
   ∀ iterations rows entries,
     rows ≠ [] →
     fst (inspectStructured MAX_PROMISES inspectTable opts iterations
            headers rows (PolicyObject entries)) = Running ∧
     length (dispatched
               (snd (inspectStructured MAX_PROMISES inspectTable opts iterations
                       headers rows (PolicyObject entries))))
       = iterations) ∧
  (25000 < Z.of_nat (length headers) →
   ∀ iterations filter,
     inspectStructured MAX_PROMISES inspectTable opts iterations headers [] filter
     = (Thrown TypeError, [EvAwaitAll 0])).
Proof.
  intros Hcols.
  assert (50000 / Z.of_nat (length headers) / 2 - 1 ≤ 0) as Hsize.
  { assert (50000 / Z.of_nat (length headers) < 4)
      by (apply Z.div_lt_upper_bound; lia).
    assert (50000 / Z.of_nat (length headers) / 2 < 2)
      by (apply Z.div_lt_upper_bound; lia).
    lia. }
  split.
  - intros [c Hc] iterations rows entries Hrows. unfold inspectStructured. cbv zeta.
    rewrite maxRowsPerBatch_columns by lia.
    replace (50000 / Z.of_nat (length headers) / 2 - 1 <? Z.of_nat (length rows))
      with true by (symmetry; apply Z.ltb_lt; destruct rows; [done|simpl; lia]).
    apply runBatches_never_ends; [done|destruct rows; [done|simpl; lia]|].
    intros [h rs]. simpl. unfold doInspectStructured. cbv zeta. rewrite Hc. simpl.
    destruct (0 <? _); [|by eexists].
    rewrite js_filter_object. by eexists.
  - intros Hwide iterations filter. unfold inspectStructured. cbv zeta.
    rewrite maxRowsPerBatch_columns by lia.
    assert (50000 / Z.of_nat (length headers) / 2 - 1 < 0) as Hneg.
    { assert (50000 / Z.of_nat (length headers) < 2)
        by (apply Z.div_lt_upper_bound; lia).
      assert (50000 / Z.of_nat (length headers) / 2 < 1)
        by (apply Z.div_lt_upper_bound; lia).
      lia. }
    replace (50000 / Z.of_nat (length headers) / 2 - 1 <? Z.of_nat (length []))
      with true by (symmetry; apply Z.ltb_lt; simpl; lia).
    by apply runBatches_nothing.
Qed.

Lemma inspectStructured_too_many_columns_witness :
  (is_Some (clientOptions exOptions) →
   ∀ iterations rows entries,
     rows ≠ [] →
     fst (inspectStructured 5 exInspectTable exOptions iterations
            exWideHeaders rows (PolicyObject entries)) = Running ∧
     length (dispatched
               (snd (inspectStructured 5 exInspectTable exOptions iterations
                       exWideHeaders rows (PolicyObject entries))))
       = iterations) ∧
  (25000 < Z.of_nat (length exWideHeaders) →
   ∀ iterations filter,
     inspectStructured 5 exInspectTable exOptions iterations exWideHeaders [] filter
     = (Thrown TypeError, [EvAwaitAll 0])).
Proof.
  apply (inspectStructured_too_many_columns 5 exInspectTable exOptions exWideHeaders).
  unfold exWideHeaders. rewrite length_replicate. lia.
Defined.

(** ** Monotonicity of the filter and order of the input *)

Lemma known_rank_lower_bound f r : rank f = Some r → -1 ≤ r.
Proof.
  intros Hr. apply likelihoodPriority_cases in Hr.
  repeat (destruct Hr as [[_ ->]|Hr]; [lia|]). destruct Hr as [_ ->]. lia.
Qed.

(** X15. Under an object policy the filter is monotone: a finding of
    the same category and of a rank at least as high as a kept finding
    is kept; and a finding of a known likelihood that is kept stays
    kept when the thresholds are lowered, or removed for a category
    that is not the name of a member of [Object.prototype] (without its
    own entry such a category reads as the inherited member, and the
    finding is dropped). *)
Theorem keepFinding_monotone :
  (∀ entries f g,
     infoType_name f = infoType_name g → rank_le f g →
     keepFinding (PolicyObject entries) f = Ok true →
     keepFinding (PolicyObject entries) g = Ok true) ∧
  (∀ entries lower f,
     lower_policy lower entries → known_likelihood f →
     is_Some (lower !! infoType_name f) ∨
     infoType_name f ∉ Object_prototype_names →
     keepFinding (PolicyObject entries) f = Ok true →
     keepFinding (PolicyObject lower) f = Ok true).
Proof.
  split.
  - intros entries f g Hname (rf & rg & Hrf & Hrg & Hle).
    rewrite !keepFinding_object. intros [= Hf]. f_equal.
    apply keeps_true_iff in Hf; [|by eapply known_not_inherited].
    apply keeps_true_iff; [by eapply known_not_inherited|]. rewrite <- Hname.
    destruct Hf as [Hf|[Hf|(m & r & Hm & Hr & Hmr)]]; [by left|by right; left|].
    right; right. exists m, rg. rewrite Hrf in Hr. injection Hr as <-.
    split; [done|]. split; [done|lia].
  - intros entries lower f Hlower [r Hr] Hcat.
    rewrite !keepFinding_object. intros [= Hf]. f_equal.
    apply keeps_true_iff in Hf; [|by eapply known_not_inherited].
    apply keeps_true_iff; [by eapply known_not_inherited|].
    destruct (lower !! infoType_name f) as [m'|] eqn:Hm'.
    + destruct (decide (m' = 0)) as [->|Hm0]; [by right; left|].
      right; right. exists m', r. split; [done|]. split; [done|].
      destruct (Hlower _ _ Hm') as (m & Hm & Hle).
      pose proof (known_rank_lower_bound f r Hr).
      destruct Hf as [[Hf _]|[Hf|(m0 & r0 & Hm0' & Hr0 & Hmr)]]; simplify_eq; lia.
    + left. split; [done|]. by destruct Hcat as [[? [=]]|?].
Qed.

Lemma keepFinding_monotone_witness :
  keepFinding (PolicyObject {[ "FIRST_NAME" := 4 ]}) exB = Ok true ∧
  keepFinding (PolicyObject {[ "FIRST_NAME" := 2 ]}) exB = Ok true ∧
  keepFinding (PolicyObject ∅) exB = Ok true.
Proof.
  split; [|split].
  - apply (proj1 keepFinding_monotone {[ "FIRST_NAME" := 4 ]}
             (mkFinding "LIKELY" "John" "FIRST_NAME" (Some 11) (Some 15)) exB).
    + reflexivity.
    + exists 4, 5. repeat split; [by vm_compute..|lia].
    + by vm_compute.
  - apply (proj2 keepFinding_monotone {[ "FIRST_NAME" := 4 ]}
             {[ "FIRST_NAME" := 2 ]} exB).
    + intros name m' [<- <-]%lookup_singleton_Some. exists 4.
      split; [by vm_compute|lia].
    + eexists. by vm_compute.
    + left. eexists. by vm_compute.
    + by vm_compute.
  - apply (proj2 keepFinding_monotone {[ "FIRST_NAME" := 4 ]} ∅ exB).
    + intros name m' Hm'. by rewrite lookup_empty in Hm'.
    + eexists. by vm_compute.
    + right. apply (bool_decide_unpack _). by vm_compute.
    + by vm_compute.
Defined.

(** X16. When no two different findings start at the same offset, the
    result of the resolver does not depend on the order in which the
    findings are given. *)
Theorem removeOverlappingFindings_permutation (findings findings' : list Finding) :
  findings ≡ₚ findings' →
  distinct_starts findings →
  removeOverlappingFindings findings = removeOverlappingFindings findings'.
Proof.
  intros Hperm Hdistinct. rewrite !removeOverlappingFindings_sweep.
  assert (js_sort byStart findings = js_sort byStart findings') as ->; [|done].
  apply (StronglySorted_unique_strong startsBefore).
  - intros a b Ha Hb Hab Hba. apply elem_of_js_sort in Ha, Hb.
    apply Hdistinct; [done|by rewrite Hperm|].
    unfold startsBefore in *. lia.
  - apply js_sort_byStart_sorted.
  - apply js_sort_byStart_sorted.
  - by rewrite !js_sort_perm.
Qed.

Lemma removeOverlappingFindings_permutation_witness :
  removeOverlappingFindings [exC; exA; exZ] = removeOverlappingFindings [exZ; exA; exC].
Proof.
  apply removeOverlappingFindings_permutation.
  - apply (bool_decide_unpack _). by vm_compute.
  - intros a b Ha Hb.
    rewrite !elem_of_cons, elem_of_nil in Ha, Hb.
    destruct Ha as [->|[->|[->|[]]]]; destruct Hb as [->|[->|[->|[]]]];
      vm_compute; congruence.
Defined.

(** ** The order of the substitutions *)

Lemma js_sort_insert_byLikelihoodDesc_sorted x l :
  known_likelihood x → Forall known_likelihood l →
  StronglySorted (flip rank_le) l →
  StronglySorted (flip rank_le) (js_sort_insert byLikelihoodDesc x l).
Proof.
  intros [rx Hrx] Hknown Hsorted.
  induction Hsorted as [|y l Hl IH Hy]; simpl.
  - repeat constructor.
  - inversion Hknown as [|?? [ry Hry] Hknown']; subst.
    unfold byLikelihoodDesc at 1. rewrite Hrx, Hry.
    destruct (Z.leb_spec (ry - rx) 0) as [Hc|Hc].
    + constructor; [by constructor|].
      constructor; [by exists ry, rx; repeat split; [..|lia]|].
      eapply Forall_impl; [exact Hy|]. intros z (rz & ry' & Hrz & Hry' & Hle).
      exists rz, rx. rewrite Hry in Hry'. injection Hry' as <-.
      repeat split; [done..|lia].
    + constructor; [by apply IH|].
      rewrite js_sort_insert_perm. constructor; [|done].
      exists rx, ry. repeat split; [done..|lia].
Qed.

Lemma js_sort_byLikelihoodDesc_sorted l :
  Forall known_likelihood l →
  StronglySorted (flip rank_le) (js_sort byLikelihoodDesc l).
Proof.
  induction 1 as [|x l Hx Hl IH]; simpl; [constructor|].
  apply js_sort_insert_byLikelihoodDesc_sorted; [done| |done].
  apply Forall_forall. intros f Hf. apply elem_of_js_sort in Hf.
  eapply Forall_forall in Hl; [exact Hl|done].
Qed.

Lemma js_sort_insert_byLikelihoodDesc_stable k x l :
  known_likelihood x → Forall known_likelihood l →
  filter (λ f, rank f = Some k) (js_sort_insert byLikelihoodDesc x l)
  = filter (λ f, rank f = Some k) (x :: l).
Proof.
  intros [rx Hrx] Hknown. induction Hknown as [|y l [ry Hry] Hl IH]; simpl; [done|].
  unfold byLikelihoodDesc at 1. rewrite Hrx, Hry.
  destruct (Z.leb_spec (ry - rx) 0) as [Hc|Hc]; [done|].
  rewrite !filter_cons in *.
  destruct (decide (rank y = Some k)) as [Hyk|Hyk];
    destruct (decide (rank x = Some k)) as [Hxk|Hxk];
    rewrite IH; try done.
  rewrite Hrx in Hxk. rewrite Hry in Hyk. simplify_eq. lia.
Qed.

Lemma js_sort_byLikelihoodDesc_stable k l :
  Forall known_likelihood l →
  filter (λ f, rank f = Some k) (js_sort byLikelihoodDesc l)
  = filter (λ f, rank f = Some k) l.
Proof.
  induction 1 as [|x l Hx Hl IH]; simpl; [done|].
  rewrite js_sort_insert_byLikelihoodDesc_stable; [|done|].
  - rewrite !filter_cons. by rewrite IH.
  - apply Forall_forall. intros f Hf. apply elem_of_js_sort in Hf.
    eapply Forall_forall in Hl; [exact Hl|done].
Qed.

(** X17. When the likelihoods of the reported findings are names of the
    table, a call of [doRedactAsync] that replaces the text under an
    object policy substitutes the findings kept by the resolver in the
    order of descending rank, findings of equal rank in the order of
    ascending start. *)
Theorem doRedactAsync_substitution_order
    (inspectContent : InspectConfig → string → list Finding)
    (opts : HDXGoogleDLPRedactorOptions) (textToRedact : string)
    (entries : gmap string Z) :
  Forall known_likelihood (inspectContent (getInspectConfig opts) textToRedact) →
  ∃ o order,
    doRedactAsync inspectContent opts textToRedact (PolicyObject entries) true
      = Ok o ∧
    text o = fold_left replaceFinding order textToRedact ∧
    order ≡ₚ removeOverlappingFindings
               (filter (λ f, keeps entries f = true)
                  (inspectContent (getInspectConfig opts) textToRedact)) ∧
    StronglySorted (flip rank_le) order ∧
    ∀ k, StronglySorted startsBefore (filter (λ f, rank f = Some k) order).
Proof.
  intros Hknown.
  destruct (doRedactAsync_replaced_text inspectContent opts textToRedact entries)
    as (o & Ho & Ht).
  set (kept := filter (λ f, keeps entries f = true)
                 (inspectContent (getInspectConfig opts) textToRedact)) in *.
  assert (Forall known_likelihood (removeOverlappingFindings kept)) as Hk.
  { apply Forall_forall. intros f Hf.
    apply removeOverlappingFindings_subset in Hf.
    apply list_elem_of_filter in Hf as [_ Hf].
    eapply Forall_forall in Hknown; [exact Hknown|done]. }
  exists o, (js_sort byLikelihoodDesc (removeOverlappingFindings kept)).
  split; [done|]. split; [done|]. split; [apply js_sort_perm|].
  split; [by apply js_sort_byLikelihoodDesc_sorted|].
  intros k. rewrite js_sort_byLikelihoodDesc_stable by done.
  eapply StronglySorted_sublist; [apply sublist_filter|].
  eapply StronglySorted_sublist; [|apply (js_sort_byStart_sorted kept)].
  rewrite removeOverlappingFindings_sweep.
  destruct (js_sort byStart kept); [done|apply sweep_sublist].
Qed.

Lemma doRedactAsync_substitution_order_witness :
  ∃ o order,
    doRedactAsync exInspectContent exOptions exText (PolicyObject ∅) true = Ok o ∧
    text o = fold_left replaceFinding order exText ∧
    order ≡ₚ removeOverlappingFindings
               (filter (λ f, keeps ∅ f = true)
                  (exInspectContent (getInspectConfig exOptions) exText)) ∧
    StronglySorted (flip rank_le) order ∧
    ∀ k, StronglySorted startsBefore (filter (λ f, rank f = Some k) order).
Proof.
  apply doRedactAsync_substitution_order.
  vm_compute. repeat constructor; eexists; reflexivity.
Defined.

(** ** Runs that return *)

Lemma doInspectStructured_object inspectTable opts headers rows entries :
  is_Some (clientOptions opts) →
  ∃ o, doInspectStructured inspectTable opts headers rows (PolicyObject entries) = Ok o.
Proof.
  intros [c Hc]. unfold doInspectStructured. cbv zeta. rewrite Hc. simpl.
  destruct (0 <? _); [|by eexists].
  rewrite js_filter_object. by eexists.
Qed.

(** X18. With client options, an object policy and a table of at most
    12500 columns, [inspectStructured] returns a result, within as many
    iterations of the batching loop as the table has rows. *)
Theorem inspectStructured_returns (MAX_PROMISES : Z)
    (inspectTable : InspectConfig → list string → list (list string)
                    → option (list Finding))
    (opts : HDXGoogleDLPRedactorOptions) (headers : list string)
    (rows : list (list string)) (entries : gmap string Z) :
  is_Some (clientOptions opts) →
  Z.of_nat (length headers) ≤ 12500 →
  ∃ r tr,
    inspectStructured MAX_PROMISES inspectTable opts (length rows) headers rows
      (PolicyObject entries) = (Returned r, tr).
Proof.
  intros Hclient Hcols. unfold inspectStructured. cbv zeta.
  destruct (doInspectStructured_object inspectTable opts headers rows entries Hclient)
    as [o Ho].
  rewrite Ho. unfold maxRowsPerBatch. cbv zeta.
  destruct (Z.eqb_spec (Z.of_nat (length headers)) 0) as [H0|H0];
    [by eexists _, _|].
  assert (0 < 50000 / Z.of_nat (length headers) / 2 - 1) as Hsize.
  { assert (4 ≤ 50000 / Z.of_nat (length headers))
      by (apply Z.div_le_lower_bound; lia).
    assert (2 ≤ 50000 / Z.of_nat (length headers) / 2)
      by (apply Z.div_le_lower_bound; lia).
    lia. }
  destruct (Z.ltb_spec (50000 / Z.of_nat (length headers) / 2 - 1)
              (Z.of_nat (length rows))) as [Hlt|Hge]; [|by eexists _, _].
  apply runBatches_returns; [done|lia|done|].
  intros [h rs]. by apply doInspectStructured_object.
Qed.

Lemma inspectStructured_returns_witness :
  ∃ r tr,
    inspectStructured 5 exInspectTableTwo exOptions (length [["John D."]; ["Jane R."]])
      ["name"] [["John D."]; ["Jane R."]] (PolicyObject ∅) = (Returned r, tr).
Proof.
  apply inspectStructured_returns.
  - by eexists.
  - simpl. lia.
Defined.
